(** * goamf: an AMF3 encoder and decoder, embedded and verified

    The development follows the two source files of the package:
    [encoder.go] (module [Enc]) and the decoder (module [Dec]).  The Go
    runtime facilities the code relies on (fixed-width integers, strings,
    [strconv], [math.Float64bits], [reflect]) are modelled in the modules
    that precede them. *)

From Stdlib Require Import ZArith List Lia.
From Stdlib Require Import Strings.String Strings.Ascii Strings.Byte.
From Stdlib Require Import Floats.SpecFloat.
From stdpp Require Import base option list gmap strings.

Import ListNotations.
Local Open Scope Z_scope.
Local Set Warnings "-register-all".

(** ** Machine integers and bytes *)

(** Go's conversions to fixed-width unsigned integers keep the low bits. *)
Definition uint32 (z : Z) : Z := z mod 2 ^ 32.
Definition uint64 (z : Z) : Z := z mod 2 ^ 64.

(** Conversion to a signed integer of [w] bits (two's complement). *)
Definition sint (w : Z) (z : Z) : Z :=
  let r := z mod 2 ^ w in
  if r <? 2 ^ (w - 1) then r else r - 2 ^ w.
Definition int32 (z : Z) : Z := sint 32 z.
Definition int64 (z : Z) : Z := sint 64 z.

(** [byte(z)]: the low eight bits of [z] as a byte of the stream. *)
Definition byte_of_Z (z : Z) : byte :=
  match Byte.of_N (Z.to_N (z mod 256)) with
  | Some b => b
  | None => Byte.x00
  end.

(** [uint32(b)], [uint64(b)]: the numeric value of a byte. *)
Definition Z_of_byte (b : byte) : Z := Z.of_N (Byte.to_N b).

(** [[]byte(s)] and [string(bytes)]: Go strings are byte sequences. *)
Definition bytes_of_string (s : string) : list byte := list_byte_of_string s.
Definition string_of_bytes (b : list byte) : string := string_of_list_byte b.

(** [len(s)] as a Go [int]. *)
Definition len (s : string) : Z := Z.of_nat (String.length s).

(** ** Outcomes of a call

    A Go method of the codec either returns (a value and a nil error),
    returns a non-nil error, or panics (a run-time error such as an index
    out of range, or a misuse of [reflect]).  [OutOfFuel] is the model's
    own: recursion is bounded by a fuel argument. *)

Inductive panic : Type :=
| IndexOutOfRange (i : Z) (length : nat)
    (* runtime error: index out of range [i] with length [length] *)
| ReflectPanic (method : string).
    (* a reflect method called on a Value it does not accept *)

Inductive outcome (E A : Type) : Type :=
| Ok (a : A)
| Err (e : E)
| Panic (p : panic)
| OutOfFuel.
Arguments Ok {E A} a.
Arguments Err {E A} e.
Arguments Panic {E A} p.
Arguments OutOfFuel {E A}.

(** State-and-outcome monad: the state is threaded through and survives
    errors and panics, as the receiver object does in Go. *)
Definition M (S E A : Type) : Type := S -> outcome E A * S.

Definition ret {S E A} (a : A) : M S E A := fun s => (Ok a, s).
Definition bind {S E A B} (m : M S E A) (k : A -> M S E B) : M S E B :=
  fun s =>
    match m s with
    | (Ok a, s') => k a s'
    | (Err e, s') => (Err e, s')
    | (Panic p, s') => (Panic p, s')
    | (OutOfFuel, s') => (OutOfFuel, s')
    end.
Definition throw {S E A} (e : E) : M S E A := fun s => (Err e, s).
Definition panics {S E A} (p : panic) : M S E A := fun s => (Panic p, s).
Definition out_of_fuel {S E A} : M S E A := fun s => (OutOfFuel, s).
Definition gets {S E A} (f : S -> A) : M S E A := fun s => (Ok (f s), s).
Definition modify {S E} (f : S -> S) : M S E unit := fun s => (Ok tt, f s).

Declare Scope go_scope.
Delimit Scope go_scope with go.
Notation "x <- m ;; k" := (bind m (fun x => k))
  (at level 100, m at next level, right associativity) : go_scope.
Notation "m ;;; k" := (bind m (fun _ => k))
  (at level 100, right associativity) : go_scope.
Local Open Scope go_scope.

(** ** Numbers of the Go runtime: [float64], [math.Float64bits], [strconv] *)

(** A [float64] is kept as its 64-bit pattern: sign, 11 bits of biased
    exponent, 52 of mantissa.  [math.Float64bits] and
    [math.Float64frombits] reinterpret, they do not change the bits. *)
Definition float64 : Type := Z.
Definition Float64bits (v : float64) : Z := v.
Definition Float64frombits (n : Z) : float64 := n.

(** The number a pattern stands for. *)
Definition float_value (n : float64) : spec_float :=
  let s := Z.testbit n 63 in
  let e := Z.land (Z.shiftr n 52) 0x7ff in
  let m := Z.land n (2 ^ 52 - 1) in
  if e =? 0 then
    match m with Z.pos p => S754_finite s p (-1074) | _ => S754_zero s end
  else if e =? 0x7ff then
    (if m =? 0 then S754_infinity s else S754_nan)
  else
    match m + 2 ^ 52 with Z.pos p => S754_finite s p (e - 1075) | _ => S754_zero s end.

(** The pattern of a number (of a NaN, the one of [math.NaN()]). *)
Definition float_pattern (f : spec_float) : float64 :=
  let sign (s : bool) := if s then 2 ^ 63 else 0 in
  match f with
  | S754_zero s => sign s
  | S754_infinity s => sign s + 0x7ff * 2 ^ 52
  | S754_nan => 0x7ff8000000000001
  | S754_finite s m e =>
      let m' := Z.pos m - 2 ^ 52 in
      sign s + (if 0 <=? m' then (e + 1075) * 2 ^ 52 + m' else Z.pos m)
  end.

(** [float64(v)] for an integer [v]: the nearest double, ties to even. *)
Definition float64_of_Z (v : Z) : float64 :=
  float_pattern (binary_normalize 53 1024 v 0 false).

(** The integer part of a float, towards zero; [None] for NaN and the
    infinities. *)
Definition truncate (f : spec_float) : option Z :=
  match f with
  | S754_zero _ => Some 0
  | S754_finite s m e =>
      let a := if 0 <=? e then Z.pos m * 2 ^ e else Z.pos m / 2 ^ (- e) in
      Some (if s then - a else a)
  | _ => None
  end.

(** [int64(v)] and [uint64(v)] for a float [v].  Go leaves the result open
    when the integer part does not fit; the model then gives what amd64
    gives, the pattern [0x8000000000000000]. *)
Definition int64_of_float (v : float64) : Z :=
  match truncate (float_value v) with
  | Some z => if (- 2 ^ 63 <=? z) && (z <? 2 ^ 63) then z else - 2 ^ 63
  | None => - 2 ^ 63
  end.
Definition uint64_of_float (v : float64) : Z :=
  match truncate (float_value v) with
  | Some z => if (0 <=? z) && (z <? 2 ^ 64) then z else uint64 (int64_of_float v)
  | None => 2 ^ 63
  end.

(** [float64(float32(v))]: what a [float32] slot keeps of [v]. *)
Definition round_float32 (v : float64) : float64 :=
  match float_value v with
  | S754_finite s m e =>
      match binary_normalize 24 128 (if s then Z.neg m else Z.pos m) e s with
      | S754_finite s' m' e' =>
          float_pattern (binary_normalize 53 1024 (if s' then Z.neg m' else Z.pos m') e' s')
      | g => float_pattern g
      end
  | _ => v
  end.

(** Decimal digits of a non-negative number, most significant first. *)
Fixpoint digits (fuel : nat) (n : Z) (acc : string) : string :=
  match fuel with
  | O => acc
  | S fuel' =>
      let acc' := String (ascii_of_nat (48 + Z.to_nat (n mod 10))) acc in
      if n <? 10 then acc' else digits fuel' (n / 10) acc'
  end.

(** [strconv.FormatUint(v, 10)] and [strconv.FormatInt(v, 10)]. *)
Definition FormatUint (v : Z) : string := digits 20 v "".
Definition FormatInt (v : Z) : string :=
  if v <? 0 then String "-" (digits 20 (- v) "") else digits 20 v "".

Fixpoint parse_digits (s : string) (acc : Z) : option Z :=
  match s with
  | EmptyString => Some acc
  | String c rest =>
      let d := Z.of_nat (nat_of_ascii c) - 48 in
      if (0 <=? d) && (d <=? 9) then parse_digits rest (10 * acc + d) else None
  end.

(** [strconv.ParseUint(s, 10, 64)]: digits only, at least one, below 2^64;
    [None] stands for the syntax or range error. *)
Definition ParseUint (s : string) : option Z :=
  match s with
  | EmptyString => None
  | _ => match parse_digits s 0 with
         | Some n => if n <? 2 ^ 64 then Some n else None
         | None => None
         end
  end.

(** [strconv.ParseInt(s, 10, 64)]: an optional sign, then as [ParseUint],
    within the range of [int64]. *)
Definition ParseInt (s : string) : option Z :=
  match s with
  | EmptyString => None
  | String c rest =>
      let neg := Ascii.eqb c "-" in
      let body := if Ascii.eqb c "+" || neg then rest else s in
      match ParseUint body with
      | Some un =>
          if neg then (if un <=? 2 ^ 63 then Some (- un) else None)
          else (if un <? 2 ^ 63 then Some un else None)
      | None => None
      end
  end.

(** [unicode.IsLower], [unicode.ToLower], [unicode.ToUpper] on the leading
    rune of an identifier; the model covers ASCII letters and leaves every
    other rune as it is. *)
Definition IsLower (c : ascii) : bool :=
  let n := nat_of_ascii c in Nat.leb 97 n && Nat.leb n 122.
Definition IsUpper (c : ascii) : bool :=
  let n := nat_of_ascii c in Nat.leb 65 n && Nat.leb n 90.
Definition ToLower (c : ascii) : ascii :=
  if IsUpper c then ascii_of_nat (nat_of_ascii c + 32) else c.
Definition ToUpper (c : ascii) : ascii :=
  if IsLower c then ascii_of_nat (nat_of_ascii c - 32) else c.

(** ** Go values in memory, and [reflect] on them

    The decoder writes through [reflect.Value]s into the destination it is
    given, and keeps such Values in its object cache; what it does is a
    matter of which storage they share.  Memory is a list of objects: an
    object is a run of cells of one type (a variable is a run of one cell,
    the backing array of a sequence a longer run) or a string-keyed
    mapping.  The types are the ones the codec deals with; a type is a
    finite tree, and [AMFAny] is the empty interface. *)

Module Go.

Inductive width : Type := W8 | W16 | W32 | W64 | WInt.

Definition bits (w : width) : Z :=
  match w with W8 => 8 | W16 => 16 | W32 => 32 | W64 | WInt => 64 end.

Inductive gotype : Type :=
| TBool
| TInt (w : width)
| TUint (w : width)
| TFloat32
| TFloat64
| TString
| TInterface                                (* AMFAny *)
| TSlice (elem : gotype)
| TMap (elem : gotype)                      (* map[string]elem *)
| TPtr (elem : gotype)
| TStruct (name : string) (fields : list (string * string * gotype))
                                            (* per field: Name, Tag.Get("amf.name"), Type *)
| TFunc.                                    (* a func type: nilable, nothing more *)

(** [reflect.Kind]: [KInt W8] is [reflect.Int8], [KInt WInt] [reflect.Int]. *)
Inductive kind : Type :=
| KInvalid | KBool | KInt (w : width) | KUint (w : width) | KFloat32 | KFloat64
| KString | KInterface | KSlice | KMap | KPtr | KStruct | KFunc.

Definition kind_of (t : gotype) : kind :=
  match t with
  | TBool => KBool | TInt w => KInt w | TUint w => KUint w | TFloat32 => KFloat32
  | TFloat64 => KFloat64 | TString => KString | TInterface => KInterface
  | TSlice _ => KSlice | TMap _ => KMap | TPtr _ => KPtr | TStruct _ _ => KStruct
  | TFunc => KFunc
  end.

(** A place: a cell of an object, or a field inside it. *)
Record place : Type := { blk : nat; idx : nat; path : list nat }.

Inductive val : Type :=
| VBool (b : bool)
| VInt (z : Z)
| VUint (z : Z)
| VFloat (f : float64)
| VString (s : string)
| VInterface (dyn : option (gotype * val))  (* nil, or dynamic type and value *)
| VSlice (hdr : option (nat * nat * nat))   (* nil, or object, offset, length *)
| VMap (m : option nat)                     (* nil, or the mapping object *)
| VPtr (p : option place)
| VStruct (fields : list val)
| VFunc (isnil : bool).

Inductive object : Type :=
| Cells (t : gotype) (vs : list val)
| Mapping (t : gotype) (m : gmap string val).

Abbreviation Heap := (list object).

(** [reflect.Value]: the zero Value, a Value that refers to storage
    (addressable), or one that carries a copy (not addressable).  [ro]
    marks a Value obtained through an unexported field. *)
Inductive Value : Type :=
| Zero
| At (ro : bool) (p : place)
| Imm (ro : bool) (t : gotype) (v : val).

Definition width_eqb (a b : width) : bool :=
  match a, b with
  | W8, W8 | W16, W16 | W32, W32 | W64, W64 | WInt, WInt => true
  | _, _ => false
  end.

Fixpoint type_eqb (a b : gotype) : bool :=
  match a, b with
  | TBool, TBool | TFloat32, TFloat32 | TFloat64, TFloat64
  | TString, TString | TInterface, TInterface | TFunc, TFunc => true
  | TInt w, TInt w' | TUint w, TUint w' => width_eqb w w'
  | TSlice x, TSlice y | TMap x, TMap y | TPtr x, TPtr y => type_eqb x y
  | TStruct n fs, TStruct n' fs' =>
      String.eqb n n' &&
      (fix all2 (l l' : list (string * string * gotype)) : bool :=
         match l, l' with
         | [], [] => true
         | (fn, tg, t) :: r, (fn', tg', t') :: r' =>
             String.eqb fn fn' && String.eqb tg tg' && type_eqb t t' && all2 r r'
         | _, _ => false
         end) fs fs'
  | _, _ => false
  end.

Fixpoint zero (t : gotype) : val :=
  match t with
  | TBool => VBool false
  | TInt _ => VInt 0
  | TUint _ => VUint 0
  | TFloat32 | TFloat64 => VFloat 0
  | TString => VString ""
  | TInterface => VInterface None
  | TSlice _ => VSlice None
  | TMap _ => VMap None
  | TPtr _ => VPtr None
  | TStruct _ fs => VStruct (List.map (fun f => zero (snd f)) fs)
  | TFunc => VFunc true
  end.

(** Pointer nesting of a type: the number of [*] in front of it. *)
Fixpoint ptr_depth (t : gotype) : nat :=
  match t with TPtr t' => S (ptr_depth t') | _ => O end.

(** *** Reading and writing memory *)

Fixpoint sub_type (t : gotype) (path : list nat) : option gotype :=
  match path with
  | [] => Some t
  | i :: rest =>
      match t with
      | TStruct _ fs =>
          match fs !! i with
          | Some (_, _, ft) => sub_type ft rest
          | None => None
          end
      | _ => None
      end
  end.

Fixpoint sub_val (v : val) (path : list nat) : option val :=
  match path with
  | [] => Some v
  | i :: rest =>
      match v with
      | VStruct vs => match vs !! i with Some x => sub_val x rest | None => None end
      | _ => None
      end
  end.

Fixpoint upd_val (v : val) (path : list nat) (new : val) : option val :=
  match path with
  | [] => Some new
  | i :: rest =>
      match v with
      | VStruct vs =>
          match vs !! i with
          | Some x =>
              match upd_val x rest new with
              | Some x' => Some (VStruct (<[i := x']> vs))
              | None => None
              end
          | None => None
          end
      | _ => None
      end
  end.

Definition type_at (h : Heap) (p : place) : option gotype :=
  match h !! blk p with
  | Some (Cells t vs) =>
      if Nat.ltb (idx p) (length vs) then sub_type t (path p) else None
  | _ => None
  end.

Definition load (h : Heap) (p : place) : option val :=
  match h !! blk p with
  | Some (Cells _ vs) =>
      match vs !! idx p with Some v => sub_val v (path p) | None => None end
  | _ => None
  end.

Definition store (h : Heap) (p : place) (new : val) : option Heap :=
  match h !! blk p with
  | Some (Cells t vs) =>
      match vs !! idx p with
      | Some v =>
          match upd_val v (path p) new with
          | Some v' => Some (<[blk p := Cells t (<[idx p := v']> vs)]> h)
          | None => None
          end
      | None => None
      end
  | _ => None
  end.

Definition TypeOf (h : Heap) (v : Value) : option gotype :=
  match v with
  | Zero => None
  | At _ p => type_at h p
  | Imm _ t _ => Some t
  end.

Definition ValOf (h : Heap) (v : Value) : option val :=
  match v with
  | Zero => None
  | At _ p => load h p
  | Imm _ _ x => Some x
  end.

Definition ro_of (v : Value) : bool :=
  match v with Zero => false | At ro _ | Imm ro _ _ => ro end.

(** *** The methods of [reflect.Value]

    Each is a computation on memory that returns or panics; [E] is the
    error type of the caller. *)

Section Reflect.
Context {E : Type}.
Local Abbreviation R := (M Heap E).

Definition reflect_panic {A} (method : string) : R A :=
  panics (ReflectPanic method).

Definition Kind (v : Value) : R kind :=
  fun h => (Ok (match TypeOf h v with Some t => kind_of t | None => KInvalid end), h).

(** [v.Type()] panics on the zero Value. *)
Definition Type_ (v : Value) : R gotype :=
  fun h => match TypeOf h v with
           | Some t => (Ok t, h)
           | None => (Panic (ReflectPanic "reflect.Value.Type"), h)
           end.

(** [v.IsNil()] panics unless [v] is of a nilable kind. *)
Definition IsNil (v : Value) : R bool :=
  fun h => match ValOf h v with
           | Some (VInterface d) => (Ok (bool_decide (d = None)), h)
           | Some (VSlice d) => (Ok (bool_decide (d = None)), h)
           | Some (VMap d) => (Ok (bool_decide (d = None)), h)
           | Some (VPtr d) => (Ok (bool_decide (d = None)), h)
           | Some (VFunc b) => (Ok b, h)
           | _ => (Panic (ReflectPanic "reflect.Value.IsNil"), h)
           end.

(** [reflect.Zero(t)], [reflect.ValueOf(x)] for a value [x] of type [t]. *)
Definition ZeroOf (t : gotype) : Value := Imm false t (zero t).
Definition ValueOf (t : gotype) (x : val) : Value := Imm false t x.

(** [v.Set(x)]: [v] must be addressable and not read-only, [x] valid and
    not read-only, and the type of [x] assignable to that of [v]. *)
Definition Set_ (v x : Value) : R unit :=
  fun h =>
    match v, TypeOf h x, ValOf h x with
    | At false p, Some tx, Some xv =>
        if ro_of x then (Panic (ReflectPanic "reflect.Value.Set"), h)
        else
          match type_at h p with
          | Some tv =>
              let new := if type_eqb tx tv then Some xv
                         else match tv with
                              | TInterface => Some (VInterface (Some (tx, xv)))
                              | _ => None
                              end in
              match new with
              | Some w =>
                  match store h p w with
                  | Some h' => (Ok tt, h')
                  | None => (Panic (ReflectPanic "reflect.Value.Set"), h)
                  end
              | None => (Panic (ReflectPanic "reflect.Value.Set"), h)
              end
          | None => (Panic (ReflectPanic "reflect.Value.Set"), h)
          end
    | _, _, _ => (Panic (ReflectPanic "reflect.Value.Set"), h)
    end.

(** [v.SetBool], [v.SetInt], [v.SetUint], [v.SetFloat], [v.SetString]:
    [v] must be assignable and of the kind; an integer is cut to the width
    of the slot, a float rounded to it. *)
Definition set_scalar (method : string) (v : Value) (conv : gotype -> option val) : R unit :=
  fun h =>
    match v with
    | At false p =>
        match type_at h p with
        | Some t =>
            match conv t with
            | Some w =>
                match store h p w with
                | Some h' => (Ok tt, h')
                | None => (Panic (ReflectPanic method), h)
                end
            | None => (Panic (ReflectPanic method), h)
            end
        | None => (Panic (ReflectPanic method), h)
        end
    | _ => (Panic (ReflectPanic method), h)
    end.

Definition SetBool (v : Value) (x : bool) : R unit :=
  set_scalar "reflect.Value.SetBool" v
    (fun t => match t with TBool => Some (VBool x) | _ => None end).

Definition SetInt (v : Value) (x : Z) : R unit :=
  set_scalar "reflect.Value.SetInt" v
    (fun t => match t with TInt w => Some (VInt (sint (bits w) x)) | _ => None end).

Definition SetUint (v : Value) (x : Z) : R unit :=
  set_scalar "reflect.Value.SetUint" v
    (fun t => match t with TUint w => Some (VUint (x mod 2 ^ bits w)) | _ => None end).

Definition SetFloat (v : Value) (x : float64) : R unit :=
  set_scalar "reflect.Value.SetFloat" v
    (fun t => match t with
              | TFloat64 => Some (VFloat x)
              | TFloat32 => Some (VFloat (round_float32 x))
              | _ => None
              end).

Definition SetString (v : Value) (x : string) : R unit :=
  set_scalar "reflect.Value.SetString" v
    (fun t => match t with TString => Some (VString x) | _ => None end).

Definition alloc (o : object) : R nat :=
  fun h => (Ok (length h), h ++ [o]).

(** [reflect.New(t)]: a pointer to a fresh zero variable of type [t]. *)
Definition New (t : gotype) : R Value :=
  l <- alloc (Cells t [zero t]) ;;
  ret (Imm false (TPtr t) (VPtr (Some {| blk := l; idx := 0; path := [] |}))).

(** [reflect.MakeMap(t)] for a mapping type [t]. *)
Definition MakeMap (t : gotype) : R Value :=
  match t with
  | TMap e =>
      l <- alloc (Mapping e ∅) ;;
      ret (Imm false t (VMap (Some l)))
  | _ => reflect_panic "reflect.MakeMap"
  end.

(** [reflect.MakeSlice(t, n, n)] for a sequence type [t]. *)
Definition MakeSlice (t : gotype) (n : nat) : R Value :=
  match t with
  | TSlice e =>
      l <- alloc (Cells e (replicate n (zero e))) ;;
      ret (Imm false t (VSlice (Some (l, O, n))))
  | _ => reflect_panic "reflect.MakeSlice"
  end.

(** [v.Elem()] of a pointer or an interface; of a nil one, the zero Value. *)
Definition Elem (v : Value) : R Value :=
  fun h => match ValOf h v with
           | Some (VPtr None) | Some (VInterface None) => (Ok Zero, h)
           | Some (VPtr (Some p)) => (Ok (At (ro_of v) p), h)
           | Some (VInterface (Some (t, x))) => (Ok (Imm (ro_of v) t x), h)
           | _ => (Panic (ReflectPanic "reflect.Value.Elem"), h)
           end.

(** [reflect.ValueOf(v.Interface())]: the dynamic value of an interface,
    the value itself for another kind. *)
Definition ValueOfInterface (v : Value) : R Value :=
  fun h =>
    if ro_of v then (Panic (ReflectPanic "reflect.Value.Interface"), h)
    else match TypeOf h v, ValOf h v with
         | Some _, Some (VInterface None) => (Ok Zero, h)
         | Some _, Some (VInterface (Some (t, x))) => (Ok (Imm false t x), h)
         | Some t, Some x => (Ok (Imm false t x), h)
         | _, _ => (Panic (ReflectPanic "reflect.Value.Interface"), h)
         end.

(** [v.Index(i)] of a sequence: its [i]-th cell. *)
Definition Index (v : Value) (i : nat) : R Value :=
  fun h => match ValOf h v with
           | Some (VSlice (Some (b, off, n))) =>
               if Nat.ltb i n
               then (Ok (At (ro_of v) {| blk := b; idx := off + i; path := [] |}), h)
               else (Panic (ReflectPanic "reflect.Value.Index"), h)
           | _ => (Panic (ReflectPanic "reflect.Value.Index"), h)
           end.

(** Position of the field called [name]. *)
Fixpoint field_index (fs : list (string * string * gotype)) (name : string) : option nat :=
  match fs with
  | [] => None
  | (n, _, _) :: rest =>
      if String.eqb n name then Some O
      else match field_index rest name with Some i => Some (S i) | None => None end
  end.

(** A field is exported when its name starts with an upper-case letter. *)
Definition exported (name : string) : bool :=
  match name with String c _ => IsUpper c | EmptyString => false end.

(** [v.FieldByName(name)] of a record; the zero Value if there is none. *)
Definition FieldByName (v : Value) (name : string) : R Value :=
  fun h =>
    match TypeOf h v with
    | Some (TStruct _ fs) =>
        match field_index fs name with
        | Some i =>
            let ro := ro_of v || negb (exported name) in
            match v, fs !! i with
            | At _ p, _ =>
                (Ok (At ro {| blk := blk p; idx := idx p; path := path p ++ [i] |}), h)
            | Imm _ _ (VStruct vs), Some (_, _, ft) =>
                match vs !! i with
                | Some x => (Ok (Imm ro ft x), h)
                | None => (Panic (ReflectPanic "reflect.Value.FieldByName"), h)
                end
            | _, _ => (Panic (ReflectPanic "reflect.Value.FieldByName"), h)
            end
        | None => (Ok Zero, h)
        end
    | _ => (Panic (ReflectPanic "reflect.Value.FieldByName"), h)
    end.

(** [m.SetMapIndex(reflect.ValueOf(key), elem)] for a string [key]. *)
Definition SetMapIndex (m : Value) (key : string) (elem : Value) : R unit :=
  fun h =>
    match ValOf h m with
    | Some (VMap (Some l)) =>
        match h !! l with
        | Some (Mapping e es) =>
            if ro_of m || ro_of elem then (Panic (ReflectPanic "reflect.Value.SetMapIndex"), h)
            else
              match elem, TypeOf h elem, ValOf h elem with
              | Zero, _, _ => (Ok tt, <[l := Mapping e (delete key es)]> h)
              | _, Some te, Some ev =>
                  if type_eqb te e
                  then (Ok tt, <[l := Mapping e (<[key := ev]> es)]> h)
                  else match e with
                       | TInterface =>
                           (Ok tt, <[l := Mapping e (<[key := VInterface (Some (te, ev))]> es)]> h)
                       | _ => (Panic (ReflectPanic "reflect.Value.SetMapIndex"), h)
                       end
              | _, _, _ => (Panic (ReflectPanic "reflect.Value.SetMapIndex"), h)
              end
        | _ => (Panic (ReflectPanic "reflect.Value.SetMapIndex"), h)
        end
    | _ => (Panic (ReflectPanic "reflect.Value.SetMapIndex"), h)
    end.

End Reflect.

End Go.

(** ** The marker table *)

(** Modelled from the spec: the one-byte marker constants ([NULL_MARKER],
    [FALSE_MARKER], ...) are declared in a file of the package that is not
    among the sources; section 6 of the specification describes them as the
    fixed table of single-byte tags (Null, True, False, Integer, Double,
    String, Array, Object) defined by the AMF3 specification, whose values
    these are. *)
Definition NULL_MARKER : byte := Byte.x01.
Definition FALSE_MARKER : byte := Byte.x02.
Definition TRUE_MARKER : byte := Byte.x03.
Definition INTEGER_MARKER : byte := Byte.x04.
Definition DOUBLE_MARKER : byte := Byte.x05.
Definition STRING_MARKER : byte := Byte.x06.
Definition ARRAY_MARKER : byte := Byte.x09.
Definition OBJECT_MARKER : byte := Byte.x0a.

(** ** The encoder's stream and caches (encoder.go) *)

Module Enc.

(** [io.Writer], as an in-memory buffer with an optional capacity: a write
    that does not fit is short, which [writeBytes] reports as a failure. *)
Record Writer : Type := { written : list byte; room : option nat }.

Definition Write (b : list byte) (w : Writer) : nat * Writer :=
  match room w with
  | None => (length b, {| written := written w ++ b; room := None |})
  | Some r =>
      let n := Nat.min r (length b) in
      (n, {| written := written w ++ firstn n b; room := Some (r - n)%nat |})
  end.

Inductive error : Type :=
| WriteFailed                       (* "write failed" *)
| U29Overflow                       (* "u29 overflow" *)
| MapKeyMustBeString                (* "map key must be string" *)
| UnsupportedType (t : string).     (* "unsupported type: " + t *)

(** [type Encoder struct]: the caches map a string, or the address
    [v.Pointer()] of a composite, to its index. *)
Record Encoder : Type := {
  writer : Writer;
  stringCache : gmap string Z;
  objectCache : gmap Z Z;
  reservStruct : bool
}.

Definition EM (A : Type) : Type := M Encoder error A.

Definition set_writer (w : Writer) (e : Encoder) : Encoder :=
  {| writer := w; stringCache := stringCache e;
     objectCache := objectCache e; reservStruct := reservStruct e |}.
Definition set_stringCache (c : gmap string Z) (e : Encoder) : Encoder :=
  {| writer := writer e; stringCache := c;
     objectCache := objectCache e; reservStruct := reservStruct e |}.
Definition set_objectCache (c : gmap Z Z) (e : Encoder) : Encoder :=
  {| writer := writer e; stringCache := stringCache e;
     objectCache := c; reservStruct := reservStruct e |}.

Definition Reset (e : Encoder) : Encoder :=
  set_stringCache ∅ (set_objectCache ∅ e).

Definition NewEncoder (w : Writer) (reservStruct : bool) : Encoder :=
  Reset {| writer := w; stringCache := ∅; objectCache := ∅;
           reservStruct := reservStruct |}.

Definition writeBytes (b : list byte) : EM unit :=
  fun e =>
    let '(n, w) := Write b (writer e) in
    if Nat.eqb n (length b) then (Ok tt, set_writer w e)
    else (Err WriteFailed, set_writer w e).

Definition writeMarker (m : byte) : EM unit := writeBytes [m].

Definition writeU29 (v : Z) : EM unit :=
  if v <? 0x80 then
    writeBytes [byte_of_Z v]
  else if v <? 0x4000 then
    writeBytes [byte_of_Z (Z.lor (Z.shiftr v 7) 0x80); byte_of_Z (Z.land v 0x7f)]
  else if v <? 0x200000 then
    writeBytes [byte_of_Z (Z.lor (Z.shiftr v 14) 0x80);
                byte_of_Z (Z.lor (Z.shiftr v 7) 0x80);
                byte_of_Z (Z.land v 0x7f)]
  else if v <? 0x20000000 then
    writeBytes [byte_of_Z (Z.lor (Z.shiftr v 22) 0x80);
                byte_of_Z (Z.lor (Z.shiftr v 15) 0x80);
                byte_of_Z (Z.lor (Z.shiftr v 7) 0x80);
                byte_of_Z (Z.land v 0xff)]
  else
    throw U29Overflow.

Definition writeString (s : string) : EM unit :=
  c <- gets stringCache ;;
  match c !! s with
  | Some idx => writeU29 (uint32 (Z.shiftl idx 1))
  | None =>
      writeU29 (uint32 (Z.lor (Z.shiftl (len s) 1) 0x01)) ;;;
      (if String.eqb s "" then ret tt
       else modify (fun e =>
              set_stringCache (<[s := Z.of_nat (size (stringCache e))]> (stringCache e)) e)) ;;;
      writeBytes (bytes_of_string s)
  end.

(** [reflect.Value] as the encoder sees it.  The encoder only reads the
    value it is given, so a value is presented as the tree of answers that
    [reflect] gives: each node records its kind and what the accessors
    return.  [ptr] is the address that [v.Pointer()] reports for a mapping
    (its header) or a sequence (its first element) and [Addr().Pointer()]
    for a record; two nodes with the same address are the same storage.
    A node whose address is already in the object cache is never descended
    into, so a cyclic graph is presented by unfolding it once. *)
Inductive kind : Type :=
| KInvalid | KBool | KInt | KUint | KFloat | KString | KMap | KSlice
| KArray | KInterface | KPtr | KStruct | KOther.

(** [reflect.StructField]: [Name] and [Tag.Get("amf.name")]. *)
Record StructField : Type := { Name : string; amf_name : string }.

(** A map key: its kind is [reflect.String] or it is not. *)
Inductive mapkey : Type :=
| KeyString (s : string)
| KeyOther.

Inductive value : Type :=
| Invalid                       (* the zero Value, [reflect.ValueOf(nil)] *)
| Bool (b : bool)
| Int (v : Z)                   (* Int, Int8 .. Int64: [v.Int()] *)
| Uint (v : Z)                  (* Uint, Uint8 .. Uint64: [v.Uint()] *)
| Float (f : float64)           (* Float32, Float64: [v.Float()] *)
| String_ (s : string)
| Map (ptr : Z) (entries : list (mapkey * value))
                                (* entries in the order of [v.MapKeys()] *)
| Slice (ptr : Z) (elems : list value)
| Array (addressable : bool) (ptr : Z) (elems : list value)
| Interface (ro : bool) (dyn : value)
                                (* [dyn] is [reflect.ValueOf(v.Interface())];
                                   [ro]: reached through an unexported field *)
| Ptr (target : option (Z * value))
                                (* nil, or the address and [v.Elem()] *)
| Struct (typ : string) (ro : bool) (ptr : Z) (fields : list (StructField * value))
                                (* a record by value, living at [ptr]; as a
                                   map element, [ptr] is the address of the
                                   copy that [reflect.New] allocates *)
| Other (typ : string).         (* any other kind; [typ] is [v.Type().String()] *)

Definition Kind (v : value) : kind :=
  match v with
  | Invalid => KInvalid | Bool _ => KBool | Int _ => KInt | Uint _ => KUint
  | Float _ => KFloat | String_ _ => KString | Map _ _ => KMap
  | Slice _ _ => KSlice | Array _ _ _ => KArray | Interface _ _ => KInterface
  | Ptr _ => KPtr | Struct _ _ _ _ => KStruct | Other _ => KOther
  end.

Definition Pointer (v : value) : Z :=
  match v with
  | Map p _ | Slice p _ | Array _ p _ | Struct _ _ p _ => p
  | Ptr (Some (p, _)) => p
  | _ => 0
  end.

Definition Elem (v : value) : value :=
  match v with
  | Ptr (Some (_, x)) => x
  | Interface _ x => x
  | _ => Invalid
  end.

Definition Len (v : value) : Z :=
  match v with
  | Slice _ l | Array _ _ l => Z.of_nat (length l)
  | Map _ l => Z.of_nat (length l)
  | String_ s => len s
  | _ => 0
  end.

Definition elems_of (v : value) : list value :=
  match v with
  | Slice _ l | Array _ _ l => l
  | _ => []
  end.

Definition entries_of (v : value) : list (mapkey * value) :=
  match v with Map _ l => l | _ => [] end.

Definition fields_of (v : value) : list (StructField * value) :=
  match v with Struct _ _ _ l => l | _ => [] end.

(** [v.Type().String()]; it panics on the zero Value. *)
Definition TypeString (v : value) : EM string :=
  match v with
  | Invalid => panics (ReflectPanic "reflect.Value.Type")
  | Bool _ => ret "bool"%string | Int _ => ret "int"%string
  | Uint _ => ret "uint"%string | Float _ => ret "float64"%string
  | String_ _ => ret "string"%string | Map _ _ => ret "map"%string
  | Slice _ _ => ret "slice"%string | Array _ _ _ => ret "array"%string
  | Interface _ _ => ret "interface {}"%string | Ptr _ => ret "ptr"%string
  | Struct t _ _ _ => ret t | Other t => ret t
  end.

(** [elem.Addr()]: a pointer to the place the record lives at. *)
Definition Addr (v : value) : value := Ptr (Some (Pointer v, v)).

Definition getFieldName (f : StructField) : EM string :=
  match Name f with
  | EmptyString => panics (IndexOutOfRange 0 0)
  | String r0 rest =>
      if IsLower r0 then ret ""%string
      else if negb (String.eqb (amf_name f) "") then ret (amf_name f)
      else
        reserv <- gets reservStruct ;;
        if negb reserv then ret (String (ToLower r0) rest)
        else ret (Name f)
  end.

(** *** Primitive encoders *)

Definition encodeBool (v : bool) : EM unit :=
  if v then writeMarker TRUE_MARKER else writeMarker FALSE_MARKER.

Definition encodeNull : EM unit := writeMarker NULL_MARKER.

(** The loop of [encodeFloat] fills [buf[8]] down to [buf[1]] with the low
    byte of [u], shifting [u] right by eight each time. *)
Fixpoint big_endian (n : nat) (u : Z) : list byte :=
  match n with
  | O => []
  | S n' => big_endian n' (Z.shiftr u 8) ++ [byte_of_Z (Z.land u 0xff)]
  end.

Definition encodeFloat (v : float64) : EM unit :=
  let u := Float64bits v in
  writeBytes (DOUBLE_MARKER :: big_endian 8 u).

Definition encodeString (s : string) : EM unit :=
  writeMarker STRING_MARKER ;;;
  writeString s.

Definition encodeUint (v : Z) : EM unit :=
  if 0x20000000 <=? v then
    if v <=? 0xffffffff then encodeFloat (float64_of_Z v)
    else encodeString (FormatUint v)
  else
    writeMarker INTEGER_MARKER ;;;
    writeU29 (uint32 v).

Definition encodeInt (v : Z) : EM unit :=
  if v <? - 0x0fffffff then
    if - 0x7fffffff <? v then encodeFloat (float64_of_Z v)
    else encodeString (FormatInt v)
  else
    writeMarker INTEGER_MARKER ;;;
    writeU29 (uint32 v).

(** *** Compound encoders

    [encode] is the dispatcher these call back into. *)

Definition cache_object (p : Z) : EM unit :=
  modify (fun e =>
    set_objectCache (<[p := Z.of_nat (size (objectCache e))]> (objectCache e)) e).

(** The body of [for _, k := range v.MapKeys()]. *)
Fixpoint encodeMap_range (encode : value -> EM unit)
    (entries : list (mapkey * value)) : EM unit :=
  match entries with
  | [] => ret tt
  | (k, elem) :: rest =>
      match k with
      | KeyOther => throw MapKeyMustBeString
      | KeyString ks =>
          writeString ks ;;;
          elem' <- match elem with
                   | Struct _ ro _ _ =>
                       (* ptr := reflect.New(elem.Type()); ptr.Elem().Set(elem) *)
                       if ro then panics (ReflectPanic "reflect.Value.Set")
                       else ret (Addr elem)
                   | _ => ret elem
                   end ;;
          encode elem' ;;;
          encodeMap_range encode rest
      end
  end.

Definition encodeMap (encode : value -> EM unit) (v : value) : EM unit :=
  writeMarker OBJECT_MARKER ;;;
  c <- gets objectCache ;;
  match c !! Pointer v with
  | Some idx => writeU29 (uint32 (Z.shiftl idx 2))
  | None =>
      cache_object (Pointer v) ;;;
      writeMarker Byte.x0b ;;;
      writeString "" ;;;
      encodeMap_range encode (entries_of v) ;;;
      writeString ""
  end.

(** The body of [for i := 0; i < st.NumField(); i++]. *)
Fixpoint encodeStruct_fields (encode : value -> EM unit)
    (fields : list (StructField * value)) : EM unit :=
  match fields with
  | [] => ret tt
  | (f, fv) :: rest =>
      name <- getFieldName f ;;
      if String.eqb name "" then encodeStruct_fields encode rest
      else
        writeString name ;;;
        encode (match fv with Struct _ _ _ _ => Addr fv | _ => fv end) ;;;
        encodeStruct_fields encode rest
  end.

Definition encodeStruct (encode : value -> EM unit) (v : value) : EM unit :=
  writeMarker OBJECT_MARKER ;;;
  c <- gets objectCache ;;
  match c !! Pointer v with
  | Some idx => writeU29 (uint32 (Z.shiftl idx 2))
  | None =>
      cache_object (Pointer v) ;;;
      writeMarker Byte.x0b ;;;
      writeString "" ;;;
      encodeStruct_fields encode (fields_of (Elem v)) ;;;
      writeString ""
  end.

(** The body of [for i := 0; i < v.Len(); i++]. *)
Fixpoint encodeSlice_elems (encode : value -> EM unit) (elems : list value) : EM unit :=
  match elems with
  | [] => ret tt
  | elem :: rest =>
      encode (match elem with Struct _ _ _ _ => Addr elem | _ => elem end) ;;;
      encodeSlice_elems encode rest
  end.

Definition encodeSlice (encode : value -> EM unit) (v : value) : EM unit :=
  writeMarker ARRAY_MARKER ;;;
  c <- gets objectCache ;;
  match c !! Pointer v with
  | Some idx => writeU29 (uint32 (Z.shiftl idx 2))
  | None =>
      cache_object (Pointer v) ;;;
      writeU29 (Z.lor (uint32 (Z.shiftl (uint32 (Len v)) 1)) 0x01) ;;;
      writeString "" ;;;
      encodeSlice_elems encode (elems_of v)
  end.

(** *** Dispatcher *)

Definition encode_body (encode : value -> EM unit) (v : value) : EM unit :=
  match v with
  | Map _ _ => encodeMap encode v
  | Uint x => encodeUint x
  | Int x => encodeInt x
  | Bool b => encodeBool b
  | String_ s => encodeString s
  | Array addressable p l =>
      (* v.Slice(0, v.Len()) *)
      if addressable then encodeSlice encode (Slice p l)
      else panics (ReflectPanic "reflect.Value.Slice")
  | Slice _ _ => encodeSlice encode v
  | Float f => encodeFloat f
  | Interface ro dyn =>
      (* reflect.ValueOf(v.Interface()) *)
      if ro then panics (ReflectPanic "reflect.Value.Interface")
      else encode dyn
  | Ptr None => encodeNull
  | Ptr (Some (_, Struct _ _ _ _)) => encodeStruct encode v
  | Ptr (Some (_, x)) => encode x
  | Invalid | Struct _ _ _ _ | Other _ =>
      t <- TypeString v ;;
      throw (UnsupportedType t)
  end.

(** The recursion of [encode], bounded by [fuel]. *)
Fixpoint encode (fuel : nat) (v : value) : EM unit :=
  match fuel with
  | O => out_of_fuel
  | S fuel' => encode_body (encode fuel') v
  end.

(** Nesting depth of a value: the recursion of [encode] on [v] is at most
    [2 * depth v] deep (taking the address of a record adds a level). *)
Fixpoint depth (v : value) : nat :=
  match v with
  | Map _ entries =>
      S (fold_right (fun kv d => Nat.max (depth (snd kv)) d) O entries)
  | Slice _ elems | Array _ _ elems =>
      S (fold_right (fun x d => Nat.max (depth x) d) O elems)
  | Interface _ x => S (depth x)
  | Ptr (Some (_, x)) => S (depth x)
  | Struct _ _ _ fields =>
      S (fold_right (fun fx d => Nat.max (depth (snd fx)) d) O fields)
  | _ => 1%nat
  end.

(** [Encode(v)]: [v] is [reflect.ValueOf] of the argument. *)
Definition Encode (v : value) : EM unit := encode (2 * depth v + 1) v.

End Enc.

(** ** The decoder (decoder source) *)

Module Dec.
Import Go.

Inductive error : Type :=
| EOF                                       (* the reader's error on a short read *)
| InvalidType (t : gotype) (what : string)  (* "invalid type: " + t + " for " + what *)
| UnsupportedMarker (marker : byte)         (* "unsupported marker: " + marker *)
| InvalidObjectType                         (* "invalid object type" *)
| TypedObjectNotSupported                   (* "typed object not supported" *)
| ECMAArrayNotAllowed                       (* "ECMA array not allowed" *)
| StructExpected (t : gotype)               (* "struct expected, found: " + t *)
| KeyNotFound (key : string) (t : gotype)   (* "key " + key + " not found in struct " + t *)
| NumError (s : string).                    (* the error of strconv.ParseInt / ParseUint *)

(** [type Decoder struct]; [reader] is what is left of the input. *)
Record Decoder : Type := {
  reader : list byte;
  stringCache : list string;
  objectCache : list Value
}.

(** A decoder runs on its own fields and on the memory of its destinations. *)
Record state : Type := { dec : Decoder; mem : Heap }.

Definition DM (A : Type) : Type := M state error A.

Definition Reset (d : Decoder) : Decoder :=
  {| reader := reader d; stringCache := []; objectCache := [] |}.

Definition NewDecoder (r : list byte) : Decoder :=
  Reset {| reader := r; stringCache := []; objectCache := [] |}.

(** A [reflect] method, run on the memory. *)
Definition reflect {A} (m : M Heap error A) : DM A :=
  fun s => let '(o, h) := m (mem s) in (o, {| dec := dec s; mem := h |}).

Definition set_reader (r : list byte) (s : state) : state :=
  {| dec := {| reader := r; stringCache := stringCache (dec s);
               objectCache := objectCache (dec s) |};
     mem := mem s |}.

(** [d.stringCache = append(d.stringCache, x)] *)
Definition append_stringCache (x : string) : DM unit :=
  modify (fun s =>
    {| dec := {| reader := reader (dec s);
                 stringCache := stringCache (dec s) ++ [x];
                 objectCache := objectCache (dec s) |};
       mem := mem s |}).

(** [d.objectCache = append(d.objectCache, value)] *)
Definition append_objectCache (value : Value) : DM unit :=
  modify (fun s =>
    {| dec := {| reader := reader (dec s);
                 stringCache := stringCache (dec s);
                 objectCache := objectCache (dec s) ++ [value] |};
       mem := mem s |}).

(** *** Low-level IO *)

(** [readBytes(n)]: the reader hands over what it has; when that is less
    than [n] bytes, the next [Read] fails with [io.EOF]. *)
Definition readBytes (n : nat) : DM (list byte) :=
  fun s =>
    let r := reader (dec s) in
    if Nat.leb n (length r) then (Ok (firstn n r), set_reader (skipn n r) s)
    else (Err EOF, set_reader [] s).

Definition readMarker : DM byte :=
  b <- readBytes 1 ;;
  match b with
  | b0 :: _ => ret b0
  | [] => panics (IndexOutOfRange 0 0)
  end.

(** The loop of [readU29], from iteration [i] with [count] left to go. *)
Fixpoint readU29_from (i count : nat) (r : Z) : DM Z :=
  match count with
  | O => ret r
  | S count' =>
      b <- readMarker ;;
      if negb (Nat.eqb i 3) then
        let r' := uint32 (Z.lor (Z.shiftl r 7) (Z.land (Z_of_byte b) 0x7f)) in
        if Z.land (Z_of_byte b) 0x80 =? 0 then ret r'
        else readU29_from (S i) count' r'
      else
        readU29_from (S i) count' (uint32 (Z.lor (Z.shiftl r 8) (Z_of_byte b)))
  end.

Definition readU29 : DM Z := readU29_from 0 4 0.

(** *** Helpers *)

Definition getField (key : string) (t : gotype) : option (string * string * gotype) :=
  let upperKey :=
    match key with
    | String r0 rest => if IsLower r0 then String (ToUpper r0) rest else key
    | EmptyString => key
    end in
  match t with
  | TStruct _ fs =>
      List.find (fun f => String.eqb (fst (fst f)) upperKey
                          || String.eqb (snd (fst f)) key) fs
  | _ => None
  end.

(** [t.Elem()] of a pointer, sequence or mapping type. *)
Definition type_Elem (t : gotype) : DM gotype :=
  match t with
  | TPtr e | TSlice e | TMap e => ret e
  | _ => panics (ReflectPanic "reflect.Type.Elem")
  end.

(** *** Primitives *)

Definition setBool (value : Value) (v : bool) : DM unit :=
  k <- reflect (Kind value) ;;
  match k with
  | KBool => reflect (SetBool value v)
  | KInterface => reflect (Set_ value (ValueOf TBool (VBool v)))
  | _ => t <- reflect (Type_ value) ;; throw (InvalidType t "bool")
  end.

(** The loop of [readFloat]: [n = (n << 8) | uint64(b)] over the bytes. *)
Definition be_uint64 (bytes : list byte) : Z :=
  fold_left (fun n b => uint64 (Z.lor (Z.shiftl n 8) (Z_of_byte b))) bytes 0.

Definition readFloat (value : Value) : DM unit :=
  bytes <- readBytes 8 ;;
  let n := be_uint64 bytes in
  let v := Float64frombits n in
  k <- reflect (Kind value) ;;
  match k with
  | KFloat32 | KFloat64 => reflect (SetFloat value v)
  | KInt W32 | KInt WInt | KInt W64 => reflect (SetInt value (int64_of_float v))
  | KUint W32 | KUint WInt | KUint W64 => reflect (SetUint value (uint64_of_float v))
  | KInterface => reflect (Set_ value (ValueOf TFloat64 (VFloat v)))
  | _ => t <- reflect (Type_ value) ;; throw (InvalidType t "double")
  end.

Definition readInteger (value : Value) : DM unit :=
  uv <- readU29 ;;
  let vv := if 0x0fffffff <? uv then int32 (uint32 (uv - 0x20000000)) else int32 uv in
  k <- reflect (Kind value) ;;
  match k with
  | KInt _ => reflect (SetInt value (int64 vv))
  | KUint _ => reflect (SetUint value (uint64 uv))
  | KInterface => reflect (Set_ value (ValueOf (TUint W32) (VUint uv)))
  | _ => t <- reflect (Type_ value) ;; throw (InvalidType t "integer")
  end.

(** *** Strings *)

Definition readString (value : Value) : DM unit :=
  index <- readU29 ;;
  s <- (if Z.land index 0x01 =? 0 then
          cache <- gets (fun s => stringCache (dec s)) ;;
          match cache !! Z.to_nat (Z.shiftr index 1) with
          | Some s => ret s
          | None => panics (IndexOutOfRange (Z.shiftr index 1) (length cache))
          end
        else
          bytes <- readBytes (Z.to_nat (Z.shiftr index 1)) ;;
          let s := string_of_bytes bytes in
          (if String.eqb s "" then ret tt else append_stringCache s) ;;;
          ret s) ;;
  k <- reflect (Kind value) ;;
  match k with
  | KInt WInt | KInt W32 | KInt W64 =>
      match ParseInt s with
      | Some num => reflect (SetInt value num)
      | None => throw (NumError s)
      end
  | KUint WInt | KUint W32 | KUint W64 =>
      match ParseUint s with
      | Some num => reflect (SetUint value num)
      | None => throw (NumError s)
      end
  | KString => reflect (SetString value s)
  | KInterface => reflect (Set_ value (ValueOf TString (VString s)))
  | _ => t <- reflect (Type_ value) ;; throw (InvalidType t "string")
  end.

(** *** Compound (object / slice)

    [decode] is the dispatcher these call back into; the [for] loops over
    the members of an object run on [fuel]. *)

(** The string variable [k] after [readString] has written it. *)
Definition string_at (v : Value) : DM string :=
  fun s => match ValOf (mem s) v with
           | Some (VString k) => (Ok k, s)
           | _ => (Panic (ReflectPanic "reflect.Value.String"), s)
           end.

(** [var k string; reflect.ValueOf(&k).Elem()] *)
Definition new_string_var : DM Value :=
  p <- reflect (New TString) ;;
  reflect (Elem p).

(** The [for] loop of a mapping destination. *)
Fixpoint readObject_map (decode : Value -> DM unit) (fuel : nat) (value : Value) : DM unit :=
  match fuel with
  | O => out_of_fuel
  | S fuel' =>
      kv <- new_string_var ;;
      readString kv ;;;
      k <- string_at kv ;;
      if String.eqb k "" then ret tt
      else
        t <- reflect (Type_ value) ;;
        te <- type_Elem t ;;
        elem <- reflect (New te) ;;
        decode elem ;;;
        e <- reflect (Elem elem) ;;
        reflect (SetMapIndex value k e) ;;;
        readObject_map decode fuel' value
  end.

(** The [for] loop of a record destination. *)
Fixpoint readObject_struct (decode : Value -> DM unit) (fuel : nat) (value : Value) : DM unit :=
  match fuel with
  | O => out_of_fuel
  | S fuel' =>
      kv <- new_string_var ;;
      readString kv ;;;
      key <- string_at kv ;;
      if String.eqb key "" then ret tt
      else
        t <- reflect (Type_ value) ;;
        match getField key t with
        | None => throw (KeyNotFound key t)
        | Some f =>
            fv <- reflect (FieldByName value (fst (fst f))) ;;
            decode fv ;;;
            readObject_struct decode fuel' value
        end
  end.

Definition is_kind (k k' : kind) : bool :=
  match k, k' with
  | KInterface, KInterface | KMap, KMap | KStruct, KStruct | KPtr, KPtr
  | KSlice, KSlice => true
  | _, _ => false
  end.

Definition readObject (decode : Value -> DM unit) (fuel : nat) (value : Value) : DM unit :=
  index <- readU29 ;;
  if Z.land index 0x01 =? 0 then
    (* object reference *)
    cache <- gets (fun s => objectCache (dec s)) ;;
    match cache !! Z.to_nat (Z.shiftr index 1) with
    | Some x => reflect (Set_ value x)
    | None => panics (IndexOutOfRange (Z.shiftr index 1) (length cache))
    end
  else if negb (index =? 0x0b) then throw InvalidObjectType
  else
    sep <- readMarker ;;
    if negb (Byte.eqb sep Byte.x01) then throw TypedObjectNotSupported
    else
      (* Interface -> map[string]AMFAny *)
      k <- reflect (Kind value) ;;
      value <- (if is_kind k KInterface then
                  m <- reflect (MakeMap (TMap TInterface)) ;;
                  reflect (Set_ value m) ;;;
                  ret m
                else ret value) ;;
      k <- reflect (Kind value) ;;
      if is_kind k KMap then
        (* Map target *)
        isnil <- reflect (IsNil value) ;;
        value <- (if isnil then
                    t <- reflect (Type_ value) ;;
                    m <- reflect (MakeMap t) ;;
                    reflect (Set_ value m) ;;;
                    ret m
                  else ret value) ;;
        append_objectCache value ;;;
        readObject_map decode fuel value
      else if negb (is_kind k KStruct) then
        t <- reflect (Type_ value) ;;
        throw (StructExpected t)
      else
        (* Struct target *)
        append_objectCache value ;;;
        readObject_struct decode fuel value.

(** The loop [for i := 0; i < int(index); i++] of [readSlice], from [i]
    with [count] elements to go. *)
Fixpoint readSlice_elems (decode : Value -> DM unit) (value : Value) (i count : nat) : DM unit :=
  match count with
  | O => ret tt
  | S count' =>
      e <- reflect (Index value i) ;;
      decode e ;;;
      readSlice_elems decode value (S i) count'
  end.

Definition readSlice (decode : Value -> DM unit) (value : Value) : DM unit :=
  index <- readU29 ;;
  if Z.land index 0x01 =? 0 then
    (* slice reference *)
    cache <- gets (fun s => objectCache (dec s)) ;;
    match cache !! Z.to_nat (Z.shiftr index 1) with
    | Some x => reflect (Set_ value x)
    | None => panics (IndexOutOfRange (Z.shiftr index 1) (length cache))
    end
  else
    let index := Z.shiftr index 1 in
    sep <- readMarker ;;
    if negb (Byte.eqb sep Byte.x01) then throw ECMAArrayNotAllowed
    else
      (* Ensure we have a concrete slice or []AMFAny *)
      isnil <- reflect (IsNil value) ;;
      value <- (if isnil then
                  t <- reflect (Type_ value) ;;
                  v <- match kind_of t with
                       | KSlice => reflect (MakeSlice t (Z.to_nat index))
                       | KInterface => reflect (MakeSlice (TSlice TInterface) (Z.to_nat index))
                       | _ => throw (InvalidType t "array")
                       end ;;
                  reflect (Set_ value v) ;;;
                  ret v
                else ret value) ;;
      append_objectCache value ;;;
      readSlice_elems decode value 0 (Z.to_nat index).

(** *** Decode entry *)

(** The loop [for value.Kind() == reflect.Ptr]; a chain of pointers is as
    long as the type is deep, which bounds [n]. *)
Fixpoint unwrap_pointers (n : nat) (value : Value) : DM Value :=
  k <- reflect (Kind value) ;;
  if is_kind k KPtr then
    match n with
    | O => out_of_fuel
    | S n' =>
        isnil <- reflect (IsNil value) ;;
        (if isnil then
           t <- reflect (Type_ value) ;;
           te <- type_Elem t ;;
           p <- reflect (New te) ;;
           reflect (Set_ value p)
         else ret tt) ;;;
        value' <- reflect (Elem value) ;;
        unwrap_pointers n' value'
    end
  else ret value.

Definition decode_body (decode : Value -> DM unit) (fuel : nat) (value : Value) : DM unit :=
  marker <- readMarker ;;
  if Byte.eqb marker NULL_MARKER then
    (* NULL handling *)
    isnil <- reflect (IsNil value) ;;
    if isnil then ret tt
    else
      k <- reflect (Kind value) ;;
      match k with
      | KInterface | KSlice | KMap | KPtr =>
          t <- reflect (Type_ value) ;;
          reflect (Set_ value (ZeroOf t))
      | _ =>
          t <- reflect (Type_ value) ;;
          throw (InvalidType t "nil")
      end
  else
    (* Unwrap interface / pointer *)
    k <- reflect (Kind value) ;;
    value <- (if is_kind k KInterface then
                v <- reflect (ValueOfInterface value) ;;
                kv <- reflect (Kind v) ;;
                if is_kind kv KPtr then ret v else ret value
              else ret value) ;;
    depth <- gets (fun s => match TypeOf (mem s) value with
                            | Some t => ptr_depth t
                            | None => O
                            end) ;;
    value <- unwrap_pointers depth value ;;
    (* Dispatch by marker *)
    if Byte.eqb marker FALSE_MARKER then setBool value false
    else if Byte.eqb marker TRUE_MARKER then setBool value true
    else if Byte.eqb marker STRING_MARKER then readString value
    else if Byte.eqb marker DOUBLE_MARKER then readFloat value
    else if Byte.eqb marker INTEGER_MARKER then readInteger value
    else if Byte.eqb marker ARRAY_MARKER then readSlice decode value
    else if Byte.eqb marker OBJECT_MARKER then readObject decode fuel value
    else throw (UnsupportedMarker marker).

(** The recursion of [decode], bounded by [fuel]. *)
Fixpoint decode (fuel : nat) (value : Value) : DM unit :=
  match fuel with
  | O => out_of_fuel
  | S fuel' => decode_body (decode fuel') fuel' value
  end.

(** Every nested [decode] and every turn of a member loop starts by
    reading a byte, so the input bounds the recursion. *)
Definition DecodeValue (v : Value) : DM unit :=
  fun s => decode (S (length (reader (dec s)))) v s.

(** [Decode(v)]: [v] here is [reflect.ValueOf] of the argument, a Value
    that is not addressable (or the zero Value, for a nil argument). *)
Definition Decode (v : Value) : DM unit := DecodeValue v.

End Dec.

(** * Vocabulary of the statements

    What the theorems below are stated with.  Everything here is defined
    from the code above; nothing is assumed. *)

Import Go.

(** ** Streams *)

(** Bytes written in hexadecimal. *)
Definition hex (l : list Z) : list byte := List.map byte_of_Z l.

(** An encoder at the start of a session, on an unbounded writer, and
    what a computation appends to it. *)
Definition fresh : Enc.Encoder :=
  Enc.NewEncoder {| Enc.written := []; Enc.room := None |} false.
Definition emitted {A} (m : Enc.EM A) : list byte :=
  Enc.written (Enc.writer (snd (m fresh))).

(** The wire form of a U29, as [writeU29] emits it. *)
Definition u29 (v : Z) : list byte := emitted (Enc.writeU29 v).

(** An encoder whose writer takes whatever it is given, and that encoder
    after [b] has been written. *)
Definition unbounded (e : Enc.Encoder) : Prop := Enc.room (Enc.writer e) = None.
Definition append (b : list byte) (e : Enc.Encoder) : Enc.Encoder :=
  Enc.set_writer {| Enc.written := Enc.written (Enc.writer e) ++ b; Enc.room := None |} e.

(** The state of the encoder after a first [writeString(s)]. *)
Definition after_literal (s : string) (e : Enc.Encoder) : Enc.Encoder :=
  Enc.set_writer
    {| Enc.written := Enc.written (Enc.writer e) ++ u29 (2 * len s + 1) ++ bytes_of_string s;
       Enc.room := None |}
    (if String.eqb s "" then e
     else Enc.set_stringCache
            (<[s := Z.of_nat (size (Enc.stringCache e))]> (Enc.stringCache e)) e).

(** The decoder's fields after a step that consumed input and extended
    the string cache. *)
Definition with_strings (r : list byte) (c : list string) (d : Dec.Decoder) : Dec.Decoder :=
  {| Dec.reader := r; Dec.stringCache := c; Dec.objectCache := Dec.objectCache d |}.

(** A decoder at the start of a session on [input], with no memory. *)
Definition decoder_on (input : list byte) : Dec.state :=
  {| Dec.dec := Dec.NewDecoder input; Dec.mem := [] |}.

(** ** Destinations *)

(** A slot: a place of memory of type [t] that holds a value. *)
Definition slot (h : Heap) (p : place) (t : gotype) : Prop :=
  type_at h p = Some t /\ is_Some (load h p).

(** A variable of type [t], holding its zero value, alone in memory, and
    a decoder at the start of a session on [input]; the place of the
    variable, and a pointer to it as [Decode(&x)] receives it. *)
Definition one_variable (t : gotype) (input : list byte) : Dec.state :=
  {| Dec.dec := Dec.NewDecoder input; Dec.mem := [Cells t [zero t]] |}.
Definition the_variable : place := {| blk := 0; idx := 0; path := [] |}.
Definition pointer_to_variable (t : gotype) : Value :=
  Imm false (TPtr t) (VPtr (Some the_variable)).

(** The [i]-th field of that variable, when it is a record. *)
Definition field (i : nat) : place := {| blk := 0; idx := 0; path := [i] |}.

(** A value that is not of a nilable kind. *)
Definition cannot_be_nil (v : val) : bool :=
  match v with
  | VBool _ | VInt _ | VUint _ | VFloat _ | VString _ | VStruct _ => true
  | _ => false
  end.

(** A value of a type of one of the four kinds that the Null handling of
    [decode] clears, and whether it is nil. *)
Definition clearable (t : gotype) (v : val) : option bool :=
  match t, v with
  | TInterface, VInterface d => Some (bool_decide (d = None))
  | TSlice _, VSlice d => Some (bool_decide (d = None))
  | TMap _, VMap d => Some (bool_decide (d = None))
  | TPtr _, VPtr d => Some (bool_decide (d = None))
  | _, _ => None
  end.

(** ** Integers *)

(** The signed reading of a 29-bit number: two's complement on 29 bits. *)
Definition signed29 (u : Z) : Z := if 0x0fffffff <? u then u - 0x20000000 else u.

(** ** What a call keeps *)

(** [m] takes every state to one that [R] relates to it, whatever the
    outcome. *)
Definition keeps {S E A} (R : S -> S -> Prop) (m : M S E A) : Prop :=
  forall s, R s (snd (m s)).

(** The string cache of the encoder is in order: every key is a
    non-empty string, and the keys are numbered 0, 1, 2, ... without gaps
    or repeats. *)
Definition enc_strings_ok (c : gmap string Z) : Prop :=
  c !! ""%string = None
  /\ (forall s i, c !! s = Some i -> 0 <= i < Z.of_nat (size c))
  /\ (forall s s' i, c !! s = Some i -> c !! s' = Some i -> s = s').

(** A later state of that cache: what was cached stays, with its index. *)
Definition enc_later (e e' : Enc.Encoder) : Prop :=
  Enc.stringCache e ⊆ Enc.stringCache e'
  /\ (enc_strings_ok (Enc.stringCache e) -> enc_strings_ok (Enc.stringCache e')).

Abbreviation ekeeps := (keeps (E := Enc.error) enc_later).

(** The string cache of the decoder is in order: no entry is empty. *)
Definition dec_strings_ok (c : list string) : Prop := Forall (fun x => x <> ""%string) c.

(** A later state of that cache: it has only grown at the end. *)
Definition dec_later (s s' : Dec.state) : Prop :=
  Dec.stringCache (Dec.dec s) `prefix_of` Dec.stringCache (Dec.dec s')
  /\ (dec_strings_ok (Dec.stringCache (Dec.dec s)) ->
      dec_strings_ok (Dec.stringCache (Dec.dec s'))).

Abbreviation dkeeps := (keeps (E := Dec.error) dec_later).

(** A state whose string cache is the same as before. *)
Definition dec_same_strings (s s' : Dec.state) : Prop :=
  Dec.stringCache (Dec.dec s') = Dec.stringCache (Dec.dec s).

(** ** Sessions *)

(** The states an encoder goes through: made by [NewEncoder], then any
    sequence of [Encode] and [Reset]; the writer is the caller's, who may
    drain or replace it between calls.  A call of [encode] cut short at
    any depth is part of a session too, so that what holds of every
    session holds of it whatever bound the recursion is given. *)
Inductive enc_session : Enc.Encoder -> Prop :=
| enc_session_new w r : enc_session (Enc.NewEncoder w r)
| enc_session_Encode e v : enc_session e -> enc_session (snd (Enc.Encode v e))
| enc_session_encode e fuel v : enc_session e -> enc_session (snd (Enc.encode fuel v e))
| enc_session_Reset e : enc_session e -> enc_session (Enc.Reset e)
| enc_session_writer e w : enc_session e -> enc_session (Enc.set_writer w e).

(** The states a decoder goes through: made by [NewDecoder], then any
    sequence of [Decode], [DecodeValue] and [Reset]; between calls the
    stream may deliver more input and the program may write its memory.
    As for the encoder, a call of [decode] cut short at any depth is part
    of a session. *)
Inductive dec_session : Dec.state -> Prop :=
| dec_session_new r h : dec_session {| Dec.dec := Dec.NewDecoder r; Dec.mem := h |}
| dec_session_Decode s v : dec_session s -> dec_session (snd (Dec.Decode v s))
| dec_session_DecodeValue s v : dec_session s -> dec_session (snd (Dec.DecodeValue v s))
| dec_session_decode s fuel v : dec_session s -> dec_session (snd (Dec.decode fuel v s))
| dec_session_Reset s :
    dec_session s -> dec_session {| Dec.dec := Dec.Reset (Dec.dec s); Dec.mem := Dec.mem s |}
| dec_session_outside s r h :
    dec_session s ->
    dec_session {| Dec.dec := with_strings r (Dec.stringCache (Dec.dec s)) (Dec.dec s);
                   Dec.mem := h |}.

(** ** Values used as examples *)

(** A nil pointer behind interfaces ([None]) and pointers ([Some] of
    their address). *)
Fixpoint wrapped_nil (wraps : list (option Z)) : Enc.value :=
  match wraps with
  | [] => Enc.Ptr None
  | None :: rest => Enc.Interface false (wrapped_nil rest)
  | Some p :: rest => Enc.Ptr (Some (p, wrapped_nil rest))
  end.

(** [&T{A: m, B: m}] for one empty mapping [m]: two fields of a record
    that alias the same composite; and the type [T]. *)
Definition alias_map : Enc.value := Enc.Map 0xc000012000 [].
Definition two_aliases : Enc.value :=
  Enc.Ptr (Some (0xc000010000,
    Enc.Struct "T" false 0xc000010000
      [({| Enc.Name := "A"; Enc.amf_name := "" |}, alias_map);
       ({| Enc.Name := "B"; Enc.amf_name := "" |}, alias_map)])).
Definition record_T : gotype :=
  TStruct "T" [("A"%string, ""%string, TMap TInterface);
               ("B"%string, ""%string, TMap TInterface)].


(** ** Views of a value *)


Definition is_record (v : Enc.value) : bool :=
  match v with Enc.Struct _ _ _ _ => true | _ => false end.


(** Induction on a value, with the hypothesis for every element, entry
    and field of a composite. *)
Section value_induction.
Variable P : Enc.value -> Prop.
Hypothesis HInvalid : P Enc.Invalid.
Hypothesis HBool : forall b, P (Enc.Bool b).
Hypothesis HInt : forall v, P (Enc.Int v).
Hypothesis HUint : forall v, P (Enc.Uint v).
Hypothesis HFloat : forall f, P (Enc.Float f).
Hypothesis HString : forall s, P (Enc.String_ s).
Hypothesis HMap : forall p es, Forall (fun kv => P (snd kv)) es -> P (Enc.Map p es).
Hypothesis HSlice : forall p l, Forall P l -> P (Enc.Slice p l).
Hypothesis HArray : forall a p l, Forall P l -> P (Enc.Array a p l).
Hypothesis HInterface : forall ro x, P x -> P (Enc.Interface ro x).
Hypothesis HPtrNil : P (Enc.Ptr None).
Hypothesis HPtr : forall p x, P x -> P (Enc.Ptr (Some (p, x))).
Hypothesis HStruct : forall t ro p fs,
  Forall (fun fx => P (snd fx)) fs -> P (Enc.Struct t ro p fs).
Hypothesis HOther : forall t, P (Enc.Other t).

Fixpoint value_induction (v : Enc.value) : P v :=
  match v with
  | Enc.Invalid => HInvalid
  | Enc.Bool b => HBool b
  | Enc.Int x => HInt x
  | Enc.Uint x => HUint x
  | Enc.Float f => HFloat f
  | Enc.String_ s => HString s
  | Enc.Map p es =>
      HMap p es
        ((fix go (l : list (Enc.mapkey * Enc.value)) : Forall (fun kv => P (snd kv)) l :=
            match l with
            | [] => @List.Forall_nil _ _
            | kv :: r => @List.Forall_cons _ _ kv r (value_induction (snd kv)) (go r)
            end) es)
  | Enc.Slice p l =>
      HSlice p l
        ((fix go (l : list Enc.value) : Forall P l :=
            match l with
            | [] => @List.Forall_nil _ _
            | x :: r => @List.Forall_cons _ _ x r (value_induction x) (go r)
            end) l)
  | Enc.Array a p l =>
      HArray a p l
        ((fix go (l : list Enc.value) : Forall P l :=
            match l with
            | [] => @List.Forall_nil _ _
            | x :: r => @List.Forall_cons _ _ x r (value_induction x) (go r)
            end) l)
  | Enc.Interface ro x => HInterface ro x (value_induction x)
  | Enc.Ptr None => HPtrNil
  | Enc.Ptr (Some (p, x)) => HPtr p x (value_induction x)
  | Enc.Struct t ro p fs =>
      HStruct t ro p fs
        ((fix go (l : list (Enc.StructField * Enc.value)) : Forall (fun fx => P (snd fx)) l :=
            match l with
            | [] => @List.Forall_nil _ _
            | fx :: r => @List.Forall_cons _ _ fx r (value_induction (snd fx)) (go r)
            end) fs)
  | Enc.Other t => HOther t
  end.
End value_induction.

(** ** Fuel *)

(** A computation of the encoder that is not cut short by the model. *)
Definition finishes {A} (m : Enc.EM A) : Prop := forall e, fst (m e) <> OutOfFuel.

(** What [encode], with [fuel] left, is asked in a loop over elements:
    the element, or a pointer to it when it is a record. *)
Definition element (x : Enc.value) : Enc.value :=
  match x with Enc.Struct _ _ _ _ => Enc.Addr x | _ => x end.

(** There is fuel enough for [x], and for a pointer to it if it is a
    record. *)
Definition enough (x : Enc.value) : Prop :=
  (forall fuel, (2 * Enc.depth x + 1 <= fuel)%nat -> finishes (Enc.encode fuel x))
  /\ (is_record x = true ->
      forall a fuel, (2 * Enc.depth x + 2 <= fuel)%nat ->
                     finishes (Enc.encode fuel (Enc.Ptr (Some (a, x))))).

(** ** Two runs *)

(** The same value with every part of it at another address. *)
Fixpoint rename (ρ : Z -> Z) (v : Enc.value) : Enc.value :=
  match v with
  | Enc.Map p es => Enc.Map (ρ p) (List.map (fun kv => (fst kv, rename ρ (snd kv))) es)
  | Enc.Slice p l => Enc.Slice (ρ p) (List.map (rename ρ) l)
  | Enc.Array a p l => Enc.Array a (ρ p) (List.map (rename ρ) l)
  | Enc.Interface ro x => Enc.Interface ro (rename ρ x)
  | Enc.Ptr (Some (p, x)) => Enc.Ptr (Some (ρ p, rename ρ x))
  | Enc.Struct t ro p fs =>
      Enc.Struct t ro (ρ p) (List.map (fun fx => (fst fx, rename ρ (snd fx))) fs)
  | _ => v
  end.

(** Two object caches that number the same composites alike, the second
    one at the addresses that [ρ] gives them. *)
Definition caches_alike (ρ : Z -> Z) (c1 c2 : gmap Z Z) : Prop :=
  size c1 = size c2 /\ forall a, c2 !! ρ a = c1 !! a.

(** Two encoders alike in all that a run reads: the caches, the setting
    [reservStruct] and the room that the writer has left.  What they have
    written so far is not compared. *)
Definition alike (ρ : Z -> Z) (e1 e2 : Enc.Encoder) : Prop :=
  Enc.stringCache e1 = Enc.stringCache e2
  /\ caches_alike ρ (Enc.objectCache e1) (Enc.objectCache e2)
  /\ Enc.reservStruct e1 = Enc.reservStruct e2
  /\ Enc.room (Enc.writer e1) = Enc.room (Enc.writer e2).

(** Two computations that, from encoders alike, return the same result,
    append the same bytes and leave the encoders alike. *)
Definition same_run (ρ : Z -> Z) {A} (m1 m2 : Enc.EM A) : Prop :=
  forall e1 e2, alike ρ e1 e2 ->
    fst (m1 e1) = fst (m2 e2)
    /\ alike ρ (snd (m1 e1)) (snd (m2 e2))
    /\ exists out,
         Enc.written (Enc.writer (snd (m1 e1))) = Enc.written (Enc.writer e1) ++ out
         /\ Enc.written (Enc.writer (snd (m2 e2))) = Enc.written (Enc.writer e2) ++ out.

(** ** Destinations and caches of a round trip *)

(** [&x] for a variable [x] of type [t] at place [p], as [Decode(&x)]
    receives it. *)
Definition pointer_to (t : gotype) (p : place) : Value :=
  Imm false (TPtr t) (VPtr (Some p)).

(** A destination that [decode] writes to as it is: a slot whose type is
    not a pointer type and which, if it is an [AMFAny], holds no
    pointer. *)
Definition holds_no_pointer (v : val) : bool :=
  match v with VInterface (Some (TPtr _, _)) => false | _ => true end.
Definition direct (h : Heap) (p : place) (t : gotype) : Prop :=
  type_at h p = Some t /\ ptr_depth t = O
  /\ exists v, load h p = Some v /\ holds_no_pointer v = true.

(** The string caches of an encoder and of the decoder that reads its
    stream are in step: the decoder holds at index [i] the string that the
    encoder numbered [i]. *)
Definition in_step (ec : gmap string Z) (dc : list string) : Prop :=
  size ec = length dc
  /\ forall s i, ec !! s = Some i <-> (0 <= i /\ dc !! Z.to_nat i = Some s).

(** The end of [readString]: the switch on the kind of the destination,
    with the string [s] that has been read. *)
Definition store_string (value : Value) (s : string) : Dec.DM unit :=
  k <- Dec.reflect (Kind value) ;;
  match k with
  | KInt WInt | KInt W32 | KInt W64 =>
      match ParseInt s with
      | Some num => Dec.reflect (SetInt value num)
      | None => throw (Dec.NumError s)
      end
  | KUint WInt | KUint W32 | KUint W64 =>
      match ParseUint s with
      | Some num => Dec.reflect (SetUint value num)
      | None => throw (Dec.NumError s)
      end
  | KString => Dec.reflect (SetString value s)
  | KInterface => Dec.reflect (Set_ value (ValueOf TString (VString s)))
  | _ => t <- Dec.reflect (Type_ value) ;; throw (Dec.InvalidType t "string")
  end.

(** The key that [getField] compares with the names of the fields: the
    key with its first letter in upper case. *)
Definition upper_first (key : string) : string :=
  match key with
  | String r0 rest => if IsLower r0 then String (ToUpper r0) rest else key
  | EmptyString => key
  end.

(** A field answers to a key by its name or by its tag. *)
Definition answers (key : string) (f : string * string * gotype) : bool :=
  String.eqb (fst (fst f)) (upper_first key) || String.eqb (snd (fst f)) key.

(** The [i]-th cell of the object [l]. *)
Definition cell (l i : nat) : place := {| blk := l; idx := i; path := [] |}.

(** The bytes of a sequence of small whole numbers, one Integer each. *)
Definition integers (xs : list Z) : list byte :=
  concat (List.map (fun x => INTEGER_MARKER :: u29 x) xs).

(** What an [AMFAny] holds after an Integer has been decoded into it. *)
Definition any_uint32 (x : Z) : val := VInterface (Some (TUint W32, VUint x)).

(** The mapping [m] with the entries [kxs] entered one after the other. *)
Definition with_entries (kxs : list (string * Z)) (m : gmap string val) : gmap string val :=
  fold_left (fun m kx => <[fst kx := any_uint32 (snd kx)]> m) kxs m.

(** The entries [kxs] as the encoder sees them. *)
Definition integer_entries (kxs : list (string * Z)) : list (Enc.mapkey * Enc.value) :=
  List.map (fun kx => (Enc.KeyString (fst kx), Enc.Int (snd kx))) kxs.

(** * Proofs *)

(** * Facts about bytes and bits *)

Lemma Z_of_byte_range (b : byte) : 0 <= Z_of_byte b < 256.
Proof.
  unfold Z_of_byte. pose proof (Byte.to_N_bounded b). lia.
Qed.

Lemma Z_of_byte_of_Z (z : Z) : Z_of_byte (byte_of_Z z) = z mod 256.
Proof.
  unfold Z_of_byte, byte_of_Z.
  assert (Hr : 0 <= z mod 256 < 256) by (apply Z.mod_pos_bound; lia).
  destruct (Byte.of_N (Z.to_N (z mod 256))) as [b|] eqn:Hb.
  - apply Byte.to_of_N in Hb. rewrite Hb. lia.
  - apply Byte.of_N_None_iff in Hb. lia.
Qed.

Lemma byte_of_Z_of_byte (b : byte) : byte_of_Z (Z_of_byte b) = b.
Proof.
  unfold byte_of_Z. pose proof (Z_of_byte_range b) as Hr.
  rewrite Z.mod_small by lia. unfold Z_of_byte.
  rewrite N2Z.id, Byte.of_to_N. reflexivity.
Qed.

(** Setting the continuation bit of a byte does not touch its low seven bits. *)
Lemma low7_lor_0x80 (x : Z) :
  Z.land (Z.lor x 0x80 mod 256) 0x7f = x mod 128.
Proof.
  change 0x7f with (Z.ones 7). rewrite Z.land_ones by lia.
  change 256 with (2 ^ 8). change 0x80 with (2 ^ 7). change 128 with (2 ^ 7).
  apply Z.bits_inj'. intros n Hn.
  destruct (Z.ltb_spec n 7).
  - rewrite !Z.mod_pow2_bits_low by lia.
    rewrite Z.lor_spec, Z.pow2_bits_false by lia. apply orb_false_r.
  - rewrite !Z.mod_pow2_bits_high by lia. reflexivity.
Qed.

Lemma bit7_lor_0x80 (x : Z) :
  Z.land (Z.lor x 0x80 mod 256) 0x80 = 0x80.
Proof.
  change 256 with (2 ^ 8). change 0x80 with (2 ^ 7).
  apply Z.bits_inj'. intros n Hn.
  rewrite Z.land_spec.
  destruct (Z.eq_dec n 7) as [->|Hne].
  - rewrite Z.mod_pow2_bits_low by lia.
    rewrite Z.lor_spec, Z.pow2_bits_true by lia. rewrite orb_true_r. reflexivity.
  - rewrite (Z.pow2_bits_false 7 n) by lia. apply andb_false_r.
Qed.

Lemma lor_shiftl_small (r y : Z) (k : Z) :
  0 <= k -> 0 <= y < 2 ^ k -> Z.lor (Z.shiftl r k) y = r * 2 ^ k + y.
Proof.
  intros Hk Hy. rewrite Z.shiftl_mul_pow2 by lia.
  rewrite <- Z.add_nocarry_lor; [reflexivity|].
  apply Z.bits_inj'. intros n Hn. rewrite Z.land_spec, Z.bits_0.
  destruct (Z.ltb_spec n k).
  - rewrite Z.mul_pow2_bits_low by lia. reflexivity.
  - destruct (Z.eq_dec y 0) as [->|Hy0]; [rewrite Z.bits_0; apply andb_false_r|].
    rewrite (Z.bits_above_log2 y n); [apply andb_false_r | lia |].
    apply Z.log2_lt_pow2; [lia|].
    apply Z.lt_le_trans with (2 ^ k); [lia|]. apply Z.pow_le_mono_r; lia.
Qed.

(** * The U29 codec *)

Ltac case_ltb :=
  match goal with
  | |- context [?a <? ?b] => destruct (Z.ltb_spec a b)
  | H : context [?a <? ?b] |- _ => destruct (Z.ltb_spec a b)
  end.

Lemma writeBytes_unbounded b e :
  unbounded e -> Enc.writeBytes b e = (Ok tt, append b e).
Proof.
  unfold unbounded, Enc.writeBytes, Enc.Write, append. intros ->.
  rewrite Nat.eqb_refl. reflexivity.
Qed.

Lemma unbounded_append b e : unbounded (append b e).
Proof. reflexivity. Qed.

Lemma writeU29_unbounded v e :
  unbounded e -> v < 0x20000000 ->
  Enc.writeU29 v e = (Ok tt, append (u29 v) e).
Proof.
  intros He Hv. unfold u29, emitted, Enc.writeU29.
  repeat (case_ltb; [rewrite !writeBytes_unbounded by (assumption || reflexivity); reflexivity|]).
  lia.
Qed.

Lemma writeU29_overflow v e :
  0x20000000 <= v -> Enc.writeU29 v e = (Err Enc.U29Overflow, e).
Proof.
  intros Hv. unfold Enc.writeU29.
  repeat (case_ltb; [lia|]). reflexivity.
Qed.

Lemma u29_length v :
  0 <= v < 0x20000000 ->
  length (u29 v) =
    if v <? 0x80 then 1%nat else if v <? 0x4000 then 2%nat
    else if v <? 0x200000 then 3%nat else 4%nat.
Proof.
  intros Hv. unfold u29, emitted, Enc.writeU29.
  repeat (case_ltb; [reflexivity|]). lia.
Qed.

Lemma readMarker_cons b r s :
  Dec.reader (Dec.dec s) = b :: r ->
  Dec.readMarker s = (Ok b, Dec.set_reader r s).
Proof.
  intros H. unfold Dec.readMarker, Dec.readBytes, bind. rewrite H. reflexivity.
Qed.

Lemma readMarker_nil s :
  Dec.reader (Dec.dec s) = [] ->
  Dec.readMarker s = (Err Dec.EOF, Dec.set_reader [] s).
Proof.
  intros H. unfold Dec.readMarker, Dec.readBytes, bind. rewrite H. reflexivity.
Qed.

Lemma set_reader_reader r s : Dec.reader (Dec.dec (Dec.set_reader r s)) = r.
Proof. reflexivity. Qed.

Lemma set_reader_twice r r' s : Dec.set_reader r (Dec.set_reader r' s) = Dec.set_reader r s.
Proof. reflexivity. Qed.

Lemma uint32_lor7 (r y : Z) :
  0 <= r < 2 ^ 25 -> 0 <= y < 128 ->
  uint32 (Z.lor (Z.shiftl r 7) y) = r * 128 + y.
Proof.
  intros Hr Hy. rewrite lor_shiftl_small by lia.
  unfold uint32. apply Z.mod_small. lia.
Qed.

Lemma uint32_lor8 (r y : Z) :
  0 <= r < 2 ^ 24 -> 0 <= y < 256 ->
  uint32 (Z.lor (Z.shiftl r 8) y) = r * 256 + y.
Proof.
  intros Hr Hy. rewrite lor_shiftl_small by lia.
  unfold uint32. apply Z.mod_small. lia.
Qed.

Lemma land_0x7f (x : Z) : Z.land x 0x7f = x mod 128.
Proof. change 0x7f with (Z.ones 7). rewrite Z.land_ones by lia. reflexivity. Qed.

Lemma land_0x80_small (x : Z) : 0 <= x < 128 -> Z.land x 0x80 = 0.
Proof.
  intros Hx. change 0x80 with (2 ^ 7). apply Z.bits_inj'. intros n Hn.
  rewrite Z.land_spec, Z.bits_0. destruct (Z.eq_dec n 7) as [->|].
  - destruct (Z.eq_dec x 0) as [->|]; [reflexivity|].
    rewrite (Z.bits_above_log2 x 7); [reflexivity|lia|].
    apply Z.log2_lt_pow2; lia.
  - rewrite Z.pow2_bits_false by lia. apply andb_false_r.
Qed.

(** One turn of the loop of [readU29] on a byte with the continuation bit. *)
Lemma readU29_from_more i count r x b rest s :
  (i < 3)%nat -> 0 <= r < 2 ^ 25 ->
  Dec.reader (Dec.dec s) = b :: rest ->
  Z_of_byte b = Z.lor x 0x80 mod 256 ->
  Dec.readU29_from i (S count) r s =
  Dec.readU29_from (S i) count (r * 128 + x mod 128) (Dec.set_reader rest s).
Proof.
  intros Hi Hr Hs Hb. cbn [Dec.readU29_from]. unfold bind at 1.
  rewrite (readMarker_cons _ _ _ Hs).
  replace (Nat.eqb i 3) with false by (symmetry; apply Nat.eqb_neq; lia).
  cbn [negb]. rewrite Hb, bit7_lor_0x80, low7_lor_0x80. cbn [Z.eqb].
  rewrite uint32_lor7 by (try apply Z.mod_pos_bound; lia). reflexivity.
Qed.

(** The turn on a byte without it, which ends the loop. *)
Lemma readU29_from_last i count r b rest s :
  (i < 3)%nat -> 0 <= r < 2 ^ 25 ->
  Dec.reader (Dec.dec s) = b :: rest ->
  0 <= Z_of_byte b < 128 ->
  Dec.readU29_from i (S count) r s = (Ok (r * 128 + Z_of_byte b), Dec.set_reader rest s).
Proof.
  intros Hi Hr Hs Hb. cbn [Dec.readU29_from]. unfold bind at 1.
  rewrite (readMarker_cons _ _ _ Hs).
  replace (Nat.eqb i 3) with false by (symmetry; apply Nat.eqb_neq; lia).
  cbn [negb]. rewrite land_0x80_small, land_0x7f by lia. cbn [Z.eqb].
  rewrite Z.mod_small by lia.
  rewrite uint32_lor7 by lia. reflexivity.
Qed.

(** The fourth turn takes all eight bits. *)
Lemma readU29_from_fourth r b rest s :
  0 <= r < 2 ^ 24 ->
  Dec.reader (Dec.dec s) = b :: rest ->
  Dec.readU29_from 3 1 r s = (Ok (r * 256 + Z_of_byte b), Dec.set_reader rest s).
Proof.
  intros Hr Hs. cbn [Dec.readU29_from]. unfold bind at 1.
  rewrite (readMarker_cons _ _ _ Hs). cbn [Nat.eqb negb].
  rewrite uint32_lor8 by (try apply Z_of_byte_range; lia). reflexivity.
Qed.

(** Below [0x200000] the reader inverts the writer. *)
Lemma readU29_u29 v rest s :
  0 <= v < 0x200000 ->
  Dec.reader (Dec.dec s) = u29 v ++ rest ->
  Dec.readU29 s = (Ok v, Dec.set_reader rest s).
Proof.
  intros Hv Hr. unfold u29, emitted, Enc.writeU29 in Hr.
  unfold Dec.readU29.
  destruct (Z.ltb_spec v 0x80) as [H1|H1].
  { cbn in Hr.
    erewrite readU29_from_last; [|lia|lia|exact Hr|];
      rewrite Z_of_byte_of_Z, Z.mod_small by lia; [reflexivity|lia]. }
  destruct (Z.ltb_spec v 0x4000) as [H2|H2].
  { cbn in Hr.
    erewrite readU29_from_more; [|lia|lia|exact Hr|apply Z_of_byte_of_Z].
    rewrite Z.shiftr_div_pow2 by lia.
    erewrite readU29_from_last;
      [|lia|Z.div_mod_to_equations; lia|apply set_reader_reader|];
      rewrite Z_of_byte_of_Z, land_0x7f;
      [|Z.div_mod_to_equations; lia].
    rewrite set_reader_twice. f_equal. f_equal. Z.div_mod_to_equations; lia. }
  destruct (Z.ltb_spec v 0x200000) as [H3|H3]; [|lia].
  cbn in Hr.
  erewrite readU29_from_more; [|lia|lia|exact Hr|apply Z_of_byte_of_Z].
  rewrite Z.shiftr_div_pow2 by lia.
  erewrite readU29_from_more;
    [|lia|Z.div_mod_to_equations; lia|apply set_reader_reader|apply Z_of_byte_of_Z].
  rewrite Z.shiftr_div_pow2 by lia.
  erewrite readU29_from_last;
    [|lia|Z.div_mod_to_equations; lia|apply set_reader_reader|];
    rewrite Z_of_byte_of_Z, land_0x7f;
    [|Z.div_mod_to_equations; lia].
  rewrite !set_reader_twice. f_equal. f_equal. Z.div_mod_to_equations; lia.
Qed.

(** The four-byte form: the third byte repeats bits 7 to 13 where the
    reader expects bits 8 to 14. *)
Lemma readU29_u29_four v rest s :
  0x200000 <= v < 0x20000000 ->
  Dec.reader (Dec.dec s) = u29 v ++ rest ->
  Dec.readU29 s =
  (Ok (v / 2 ^ 15 * 2 ^ 15 + (v / 2 ^ 7) mod 128 * 256 + v mod 256), Dec.set_reader rest s).
Proof.
  intros Hv Hr. unfold u29, emitted, Enc.writeU29 in Hr.
  unfold Dec.readU29.
  repeat (case_ltb; [lia|]). case_ltb; [|lia].
  cbn in Hr.
  erewrite readU29_from_more; [|lia|lia|exact Hr|apply Z_of_byte_of_Z].
  rewrite Z.shiftr_div_pow2 by lia.
  erewrite readU29_from_more;
    [|lia|Z.div_mod_to_equations; lia|apply set_reader_reader|apply Z_of_byte_of_Z].
  rewrite Z.shiftr_div_pow2 by lia.
  erewrite readU29_from_more;
    [|lia|Z.div_mod_to_equations; lia|apply set_reader_reader|apply Z_of_byte_of_Z].
  rewrite Z.shiftr_div_pow2 by lia.
  erewrite readU29_from_fourth;
    [|Z.div_mod_to_equations; lia|apply set_reader_reader].
  rewrite !set_reader_twice, Z_of_byte_of_Z.
  change 0xff with (Z.ones 8). rewrite Z.land_ones by lia.
  f_equal. f_equal. Z.div_mod_to_equations; lia.
Qed.

(** Whatever the input, [readU29] returns a number of 29 bits. *)
Lemma readU29_range s u s' :
  Dec.readU29 s = (Ok u, s') -> 0 <= u < 2 ^ 29.
Proof.
  unfold Dec.readU29. cbn [Dec.readU29_from Nat.eqb negb].
  assert (Hm : forall st, (exists b st', Dec.readMarker st = (Ok b, st'))
                          \/ (exists st', Dec.readMarker st = (Err Dec.EOF, st'))).
  { intros st. destruct (Dec.reader (Dec.dec st)) eqn:E.
    - right. eexists. apply readMarker_nil, E.
    - left. do 2 eexists. eapply readMarker_cons, E. }
  assert (H7 : forall r b, 0 <= r < 0x400000 ->
             0 <= uint32 (Z.lor (Z.shiftl r 7) (Z.land (Z_of_byte b) 0x7f)) < r * 128 + 128).
  { intros r b Hr. rewrite land_0x7f.
    pose proof (Z.mod_pos_bound (Z_of_byte b) 128 ltac:(lia)).
    rewrite uint32_lor7 by (change (2 ^ 25) with 0x2000000; lia). lia. }
  unfold bind at 1. destruct (Hm s) as [(b1 & s1 & ->)|(? & ->)]; [|discriminate].
  pose proof (H7 0 b1 ltac:(lia)) as B1. revert B1.
  generalize (uint32 (Z.lor (Z.shiftl 0 7) (Z.land (Z_of_byte b1) 0x7f))).
  intros r1 B1.
  destruct (_ =? 0); [intros [= <- _]; change (2 ^ 29) with 0x20000000; lia|].
  unfold bind at 1. destruct (Hm s1) as [(b2 & s2 & ->)|(? & ->)]; [|discriminate].
  pose proof (H7 r1 b2 ltac:(lia)) as B2. revert B2.
  generalize (uint32 (Z.lor (Z.shiftl r1 7) (Z.land (Z_of_byte b2) 0x7f))).
  intros r2 B2.
  destruct (_ =? 0); [intros [= <- _]; change (2 ^ 29) with 0x20000000; lia|].
  unfold bind at 1. destruct (Hm s2) as [(b3 & s3 & ->)|(? & ->)]; [|discriminate].
  pose proof (H7 r2 b3 ltac:(lia)) as B3. revert B3.
  generalize (uint32 (Z.lor (Z.shiftl r2 7) (Z.land (Z_of_byte b3) 0x7f))).
  intros r3 B3.
  destruct (_ =? 0); [intros [= <- _]; change (2 ^ 29) with 0x20000000; lia|].
  unfold bind at 1. destruct (Hm s3) as [(b4 & s4 & ->)|(? & ->)]; [|discriminate].
  pose proof (Z_of_byte_range b4).
  rewrite uint32_lor8 by (change (2 ^ 24) with 0x1000000; lia).
  intros [= <- _]. change (2 ^ 29) with 0x20000000. lia.
Qed.

(** * Memory *)


Lemma upd_val_spec v path x w :
  sub_val v path = Some x ->
  exists v', upd_val v path w = Some v' /\ sub_val v' path = Some w.
Proof.
  revert v. induction path as [|i path IH]; intros v H; cbn in *.
  - eauto.
  - destruct v; try discriminate.
    destruct (fields !! i) as [y|] eqn:Hy; [|discriminate].
    destruct (IH _ H) as (y' & -> & Hy'). eexists. split; [reflexivity|].
    cbn. rewrite list_lookup_insert_eq by (eapply lookup_lt_Some; eauto). exact Hy'.
Qed.

(** Writing to a place that can be read succeeds, and the place then
    holds what was written; the types of all places stay as they are. *)
Lemma store_spec h p w :
  is_Some (load h p) ->
  exists h', store h p w = Some h' /\ load h' p = Some w
             /\ forall q, type_at h' q = type_at h q.
Proof.
  intros [x Hx]. unfold load, store in *.
  destruct (h !! blk p) as [[t vs|]|] eqn:Hb; try discriminate.
  destruct (vs !! idx p) as [v|] eqn:Hv; [|discriminate].
  destruct (upd_val_spec _ _ _ w Hx) as (v' & -> & Hv').
  eexists. split; [reflexivity|]. split.
  - rewrite list_lookup_insert_eq by (eapply lookup_lt_Some; eauto).
    cbv beta iota.
    rewrite list_lookup_insert_eq by (eapply lookup_lt_Some; eauto). exact Hv'.
  - intros q. unfold type_at.
    destruct (decide (blk q = blk p)) as [->|Hne].
    + rewrite list_lookup_insert_eq by (eapply lookup_lt_Some; eauto).
      rewrite Hb, length_insert. reflexivity.
    + rewrite list_lookup_insert_ne by congruence. reflexivity.
Qed.

Lemma reflect_Kind_slot h p t ro d :
  slot h p t ->
  Dec.reflect (Kind (At ro p)) {| Dec.dec := d; Dec.mem := h |}
  = (Ok (kind_of t), {| Dec.dec := d; Dec.mem := h |}).
Proof. intros [Ht _]. unfold Dec.reflect, Kind. cbn. rewrite Ht. reflexivity. Qed.

Lemma reflect_set_scalar h p t d method conv w :
  slot h p t -> conv t = Some w ->
  exists h', Dec.reflect (set_scalar method (At false p) conv) {| Dec.dec := d; Dec.mem := h |}
             = (Ok tt, {| Dec.dec := d; Dec.mem := h' |})
             /\ load h' p = Some w /\ forall q, type_at h' q = type_at h q.
Proof.
  intros [Ht Hl] Hc. destruct (store_spec h p w Hl) as (h' & Hs & Hl' & Hty).
  exists h'. split; [|auto].
  unfold Dec.reflect, set_scalar. cbn. rewrite Ht, Hc, Hs. reflexivity.
Qed.

Lemma type_eqb_refl t : type_eqb t t = true.
Proof.
  revert t. fix IH 1. intros [| w | w | | | | | e | e | e | n fs |]; cbn; try reflexivity;
    try (destruct w; reflexivity); try apply IH.
  rewrite String.eqb_refl. cbn.
  induction fs as [|[[fn tg] ft] fs IHfs]; [reflexivity|].
  rewrite !String.eqb_refl, IH. cbn. exact IHfs.
Qed.

(** [Set] of a value of the slot's own type, or of any concrete type into
    an [AMFAny] slot. *)
Lemma reflect_Set_Imm h p t tx x d :
  slot h p t ->
  let w := if type_eqb tx t then Some x
           else match t with TInterface => Some (VInterface (Some (tx, x))) | _ => None end in
  forall w', w = Some w' ->
  exists h', Dec.reflect (Set_ (At false p) (Imm false tx x)) {| Dec.dec := d; Dec.mem := h |}
             = (Ok tt, {| Dec.dec := d; Dec.mem := h' |})
             /\ load h' p = Some w' /\ forall q, type_at h' q = type_at h q.
Proof.
  intros [Ht Hl] w w' Hw. destruct (store_spec h p w' Hl) as (h' & Hs & Hl' & Hty).
  exists h'. split; [|auto].
  unfold Dec.reflect, Set_. cbn. rewrite Ht. fold w. rewrite Hw, Hs. reflexivity.
Qed.

(** * Integers on the wire *)

Lemma sint_32_small z : - 2 ^ 31 <= z < 2 ^ 31 -> sint 32 z = z.
Proof.
  intros Hz. unfold sint. change (32 - 1) with 31.
  change (2 ^ 32) with 4294967296 in *. change (2 ^ 31) with 2147483648 in *.
  case_ltb; Z.div_mod_to_equations; lia.
Qed.

Lemma sint_64_small z : - 2 ^ 63 <= z < 2 ^ 63 -> sint 64 z = z.
Proof.
  intros Hz. unfold sint. change (64 - 1) with 63.
  change (2 ^ 64) with 18446744073709551616 in *.
  change (2 ^ 63) with 9223372036854775808 in *.
  case_ltb; Z.div_mod_to_equations; lia.
Qed.

Lemma signed29_range u : 0 <= u < 2 ^ 29 -> - 2 ^ 28 <= signed29 u < 2 ^ 28.
Proof.
  unfold signed29. change (2 ^ 29) with 0x20000000. change (2 ^ 28) with 0x10000000.
  intros Hu. case_ltb; lia.
Qed.

(** The local [vv] of [readInteger], widened by [int64(vv)]. *)
Lemma readInteger_vv u :
  0 <= u < 2 ^ 29 ->
  int64 (if 0x0fffffff <? u then int32 (uint32 (u - 0x20000000)) else int32 u)
  = signed29 u.
Proof.
  intros Hu. pose proof (signed29_range u Hu) as Hs. unfold signed29 in *.
  change (2 ^ 29) with 0x20000000 in *. change (2 ^ 28) with 0x10000000 in *.
  unfold int64, int32.
  case_ltb.
  - replace (sint 32 (uint32 (u - 0x20000000))) with (u - 0x20000000).
    + apply sint_64_small.
      change (2 ^ 63) with 9223372036854775808. lia.
    + unfold uint32, sint. change (32 - 1) with 31.
      change (2 ^ 32) with 4294967296 in *. change (2 ^ 31) with 2147483648 in *.
      rewrite Z.mod_mod by lia. case_ltb; Z.div_mod_to_equations; lia.
  - rewrite sint_32_small by (change (2 ^ 31) with 2147483648; lia).
    apply sint_64_small. change (2 ^ 63) with 9223372036854775808. lia.
Qed.

Lemma uint64_small z : 0 <= z < 2 ^ 64 -> uint64 z = z.
Proof. intros Hz. unfold uint64. apply Z.mod_small. exact Hz. Qed.

(** C8 (amended).  When [readInteger] has read the U29 [u], its signed
    reading is [u - 0x20000000] if [u > 0x0fffffff] and [u] otherwise.  A
    signed integer slot receives the signed reading cut to the width of
    the slot, which is the signed reading itself for a width of 32 bits or
    more ([int], [int32], [int64]); an unsigned slot receives [u] cut to
    its width, which is [u] itself for a width of 32 bits or more; a
    dynamic slot stores [u] as a [uint32]. *)
Theorem readInteger_slot s u s1 p t :
  Dec.readU29 s = (Ok u, s1) ->
  slot (Dec.mem s1) p t ->
  (forall w, t = TInt w ->
     exists s2, Dec.readInteger (At false p) s = (Ok tt, s2)
       /\ load (Dec.mem s2) p = Some (VInt (sint (bits w) (signed29 u)))
       /\ (32 <= bits w -> sint (bits w) (signed29 u) = signed29 u))
  /\ (forall w, t = TUint w ->
     exists s2, Dec.readInteger (At false p) s = (Ok tt, s2)
       /\ load (Dec.mem s2) p = Some (VUint (u mod 2 ^ bits w))
       /\ (32 <= bits w -> u mod 2 ^ bits w = u))
  /\ (t = TInterface ->
     exists s2, Dec.readInteger (At false p) s = (Ok tt, s2)
       /\ load (Dec.mem s2) p = Some (VInterface (Some (TUint W32, VUint u)))).
Proof.
  intros Hu Hslot. pose proof (readU29_range _ _ _ Hu) as Hr.
  pose proof (signed29_range u Hr) as Hsr.
  destruct s1 as [d1 h1]. cbn in Hslot.
  assert (Hstart :
    Dec.readInteger (At false p) s =
    (k' <- Dec.reflect (Kind (At false p)) ;;
     match k' with
     | KInt _ => Dec.reflect (SetInt (At false p) (signed29 u))
     | KUint _ => Dec.reflect (SetUint (At false p) (uint64 u))
     | KInterface => Dec.reflect (Set_ (At false p) (ValueOf (TUint W32) (VUint u)))
     | _ => t' <- Dec.reflect (Type_ (At false p)) ;; throw (Dec.InvalidType t' "integer")
     end)%go {| Dec.dec := d1; Dec.mem := h1 |}).
  { unfold Dec.readInteger. unfold bind at 1. rewrite Hu.
    rewrite readInteger_vv by exact Hr. reflexivity. }
  rewrite Hstart. unfold bind. rewrite (reflect_Kind_slot _ _ _ _ _ Hslot).
  repeat split.
  - intros w ->. cbn [kind_of]. unfold SetInt.
    destruct (reflect_set_scalar h1 p (TInt w) d1 "reflect.Value.SetInt"
                (fun t => match t with TInt w => Some (VInt (sint (bits w) (signed29 u))) | _ => None end)
                _ Hslot eq_refl) as (h' & -> & Hl & _).
    eexists; split; [reflexivity|]. split; [exact Hl|].
    change (2 ^ 28) with 0x10000000 in Hsr.
    destruct w; cbn [bits]; intros Hw; try lia;
      try (apply sint_32_small; change (2 ^ 31) with 2147483648; lia);
      apply sint_64_small; change (2 ^ 63) with 9223372036854775808; lia.
  - intros w ->. cbn [kind_of]. unfold SetUint.
    destruct (reflect_set_scalar h1 p (TUint w) d1 "reflect.Value.SetUint"
                (fun t => match t with TUint w => Some (VUint (uint64 u mod 2 ^ bits w)) | _ => None end)
                _ Hslot eq_refl) as (h' & -> & Hl & _).
    change (2 ^ 29) with 0x20000000 in Hr.
    rewrite uint64_small in Hl by (change (2 ^ 64) with 18446744073709551616; lia).
    eexists; split; [reflexivity|]. split; [exact Hl|].
    destruct w; cbn [bits]; intros Hw; try lia; apply Z.mod_small.
    + change (2 ^ 32) with 4294967296; lia.
    + change (2 ^ 64) with 18446744073709551616; lia.
    + change (2 ^ 64) with 18446744073709551616; lia.
  - intros ->. cbn [kind_of]. unfold ValueOf.
    destruct (reflect_Set_Imm h1 p TInterface (TUint W32) (VUint u) d1 Hslot _ eq_refl)
      as (h' & -> & Hl & _).
    eexists; split; [reflexivity|]. exact Hl.
Qed.

Lemma readInteger_slot_witness :
  Dec.readU29 (one_variable (TInt W32) (u29 0x1fffffff))
  = (Ok 0x1fffffff, one_variable (TInt W32) [])
  /\ slot (Dec.mem (one_variable (TInt W32) [])) the_variable (TInt W32)
  /\ exists s2,
       Dec.readInteger (At false the_variable) (one_variable (TInt W32) (u29 0x1fffffff))
       = (Ok tt, s2)
       /\ load (Dec.mem s2) the_variable = Some (VInt (-1)).
Proof.
  assert (Hu : Dec.readU29 (one_variable (TInt W32) (u29 0x1fffffff))
               = (Ok 0x1fffffff, one_variable (TInt W32) [])) by reflexivity.
  assert (Hs : slot (Dec.mem (one_variable (TInt W32) [])) the_variable (TInt W32))
    by (split; [reflexivity|eexists; reflexivity]).
  split; [exact Hu|]. split; [exact Hs|].
  destruct (proj1 (readInteger_slot _ _ _ _ _ Hu Hs) W32 eq_refl) as (s2 & H1 & H2 & _).
  exists s2. split; [exact H1|exact H2].
Defined.

(** * Strings on the wire *)

Lemma length_bytes_of_string s : length (bytes_of_string s) = String.length s.
Proof.
  unfold bytes_of_string, list_byte_of_string. rewrite length_map.
  induction s; cbn; congruence.
Qed.

Lemma string_of_bytes_of_string s : string_of_bytes (bytes_of_string s) = s.
Proof. apply string_of_list_byte_of_string. Qed.

Lemma land_1 x : Z.land x 1 = x mod 2.
Proof. change 1 with (Z.ones 1) at 1. rewrite Z.land_ones by lia. reflexivity. Qed.

Lemma String_eqb_nonempty s : s <> ""%string -> String.eqb s "" = false.
Proof. intros H. apply String.eqb_neq. exact H. Qed.

Lemma writeString_literal s e :
  unbounded e -> Enc.stringCache e !! s = None -> len s < 2 ^ 28 ->
  Enc.writeString s e = (Ok tt, after_literal s e).
Proof.
  intros He Hc Hl. unfold Enc.writeString, bind, gets. rewrite Hc.
  assert (Hlen : 0 <= len s) by (unfold len; lia).
  change (2 ^ 28) with 0x10000000 in Hl.
  replace (uint32 (Z.lor (Z.shiftl (len s) 1) 0x01)) with (2 * len s + 1).
  2:{ rewrite lor_shiftl_small by lia. unfold uint32.
      rewrite Z.mod_small; [lia|]. change (2 ^ 32) with 4294967296. lia. }
  rewrite writeU29_unbounded by (assumption || lia).
  unfold after_literal. destruct (String.eqb s "").
  - unfold ret. rewrite writeBytes_unbounded by reflexivity.
    unfold append, Enc.set_writer. cbn. rewrite app_assoc. reflexivity.
  - unfold modify. rewrite writeBytes_unbounded by reflexivity.
    unfold append, Enc.set_writer, Enc.set_stringCache. cbn. rewrite app_assoc. reflexivity.
Qed.

Lemma writeString_reference s idx e :
  unbounded e -> Enc.stringCache e !! s = Some idx -> 0 <= idx < 2 ^ 28 ->
  Enc.writeString s e = (Ok tt, append (u29 (2 * idx)) e).
Proof.
  intros He Hc Hi. unfold Enc.writeString, bind, gets. rewrite Hc.
  change (2 ^ 28) with 0x10000000 in Hi.
  replace (uint32 (Z.shiftl idx 1)) with (2 * idx).
  2:{ rewrite Z.shiftl_mul_pow2 by lia. unfold uint32.
      rewrite Z.mod_small; [lia|]. change (2 ^ 32) with 4294967296. lia. }
  apply writeU29_unbounded; [assumption|lia].
Qed.

Lemma readBytes_app b rest s :
  Dec.reader (Dec.dec s) = b ++ rest ->
  Dec.readBytes (length b) s = (Ok b, Dec.set_reader rest s).
Proof.
  intros H. unfold Dec.readBytes. rewrite H.
  replace (Nat.leb (length b) (length (b ++ rest))) with true
    by (symmetry; apply Nat.leb_le; rewrite length_app; lia).
  change firstn with (@take byte). change skipn with (@drop byte).
  rewrite take_app_length, drop_app_length. reflexivity.
Qed.






(** * What a call keeps: a preorder on states, through the monad *)

Section Keeps.
Context {S E : Type} (R : S -> S -> Prop).
Hypothesis R_refl : forall s, R s s.
Hypothesis R_trans : forall a b c, R a b -> R b c -> R a c.

Lemma keeps_ret {A} (a : A) : keeps (E := E) R (ret a).
Proof. intros s. apply R_refl. Qed.

Lemma keeps_throw {A} (e : E) : keeps R (@throw S E A e).
Proof. intros s. apply R_refl. Qed.

Lemma keeps_panics {A} (p : panic) : keeps R (@panics S E A p).
Proof. intros s. apply R_refl. Qed.

Lemma keeps_out_of_fuel {A} : keeps R (@out_of_fuel S E A).
Proof. intros s. apply R_refl. Qed.

Lemma keeps_gets {A} (f : S -> A) : keeps (E := E) R (gets f).
Proof. intros s. apply R_refl. Qed.

Lemma keeps_bind {A B} (m : M S E A) (k : A -> M S E B) :
  keeps R m -> (forall a, keeps R (k a)) -> keeps R (bind m k).
Proof.
  intros Hm Hk s. unfold bind. specialize (Hm s).
  destruct (m s) as [[a| | |] s1]; cbn in *; try assumption.
  eapply R_trans; [exact Hm|apply Hk].
Qed.
End Keeps.

(** * The string cache of the encoder *)

Lemma enc_later_refl e : enc_later e e.
Proof. split; [reflexivity|auto]. Qed.

Lemma enc_later_trans a b c : enc_later a b -> enc_later b c -> enc_later a c.
Proof. intros [H1 H2] [H3 H4]. split; [etrans; eauto|auto]. Qed.

Lemma enc_later_same e e' : Enc.stringCache e' = Enc.stringCache e -> enc_later e e'.
Proof. intros H. unfold enc_later. rewrite H. split; [reflexivity|auto]. Qed.

Lemma enc_strings_ok_insert c s :
  s <> ""%string -> c !! s = None -> enc_strings_ok c ->
  enc_strings_ok (<[s := Z.of_nat (size c)]> c).
Proof.
  intros Hne Hnone (H0 & Hd & Hi). split; [|split].
  - rewrite lookup_insert_ne by congruence. exact H0.
  - intros s0 i H. rewrite map_size_insert_None by assumption.
    destruct (decide (s = s0)) as [->|Hs].
    + rewrite lookup_insert_eq in H. injection H as <-. lia.
    + rewrite lookup_insert_ne in H by congruence. apply Hd in H. lia.
  - intros s1 s2 i H1 H2.
    destruct (decide (s = s1)) as [<-|Hs1], (decide (s = s2)) as [<-|Hs2]; [reflexivity|..].
    + rewrite lookup_insert_eq in H1. rewrite lookup_insert_ne in H2 by congruence.
      injection H1 as <-. apply Hd in H2. lia.
    + rewrite lookup_insert_eq in H2. rewrite lookup_insert_ne in H1 by congruence.
      injection H2 as <-. apply Hd in H1. lia.
    + rewrite lookup_insert_ne in H1, H2 by congruence. eauto.
Qed.

Lemma writeBytes_keeps b : ekeeps (Enc.writeBytes b).
Proof.
  intros e. apply enc_later_same. unfold Enc.writeBytes.
  destruct (Enc.Write b (Enc.writer e)) as [n w]. destruct (Nat.eqb n (length b)); reflexivity.
Qed.

Lemma writeBytes_strings b e :
  Enc.stringCache (snd (Enc.writeBytes b e)) = Enc.stringCache e.
Proof.
  unfold Enc.writeBytes.
  destruct (Enc.Write b (Enc.writer e)) as [n w]. destruct (Nat.eqb n (length b)); reflexivity.
Qed.

Lemma writeU29_strings v e :
  Enc.stringCache (snd (Enc.writeU29 v e)) = Enc.stringCache e.
Proof.
  unfold Enc.writeU29.
  repeat (destruct (_ <? _); [apply writeBytes_strings|]). reflexivity.
Qed.

Lemma writeU29_keeps v : ekeeps (Enc.writeU29 v).
Proof. intros e. apply enc_later_same, writeU29_strings. Qed.

Lemma writeMarker_keeps m : ekeeps (Enc.writeMarker m).
Proof. apply writeBytes_keeps. Qed.

Lemma writeString_keeps s : ekeeps (Enc.writeString s).
Proof.
  intros e. unfold Enc.writeString, bind, gets.
  destruct (Enc.stringCache e !! s) as [idx|] eqn:Hc; [apply writeU29_keeps|].
  pose proof (writeU29_strings (uint32 (Z.lor (Z.shiftl (len s) 1) 1)) e) as H1.
  destruct (Enc.writeU29 _ e) as [[[]| | |] e1]; cbn in H1;
    try (apply enc_later_same; exact H1).
  destruct (String.eqb_spec s "") as [->|Hne].
  - unfold ret. eapply enc_later_trans; [apply enc_later_same; exact H1|apply writeBytes_keeps].
  - unfold modify. eapply enc_later_trans; [|apply writeBytes_keeps].
    unfold enc_later. cbn. rewrite H1. split.
    + apply insert_subseteq. exact Hc.
    + apply enc_strings_ok_insert; assumption.
Qed.

Lemma getFieldName_keeps f : ekeeps (Enc.getFieldName f).
Proof.
  unfold Enc.getFieldName. destruct (Enc.Name f); [apply keeps_panics, enc_later_refl|].
  destruct (IsLower a); [apply keeps_ret, enc_later_refl|].
  destruct (negb _); [apply keeps_ret, enc_later_refl|].
  apply keeps_bind; [apply enc_later_trans|apply keeps_gets, enc_later_refl|].
  intros r. destruct (negb r); apply keeps_ret, enc_later_refl.
Qed.

Lemma cache_object_keeps p : ekeeps (Enc.cache_object p).
Proof. intros e. apply enc_later_same. reflexivity. Qed.

Create HintDb keeps.
#[local] Hint Resolve enc_later_refl enc_later_trans : keeps.
#[local] Hint Resolve writeBytes_keeps writeU29_keeps writeMarker_keeps writeString_keeps
  getFieldName_keeps cache_object_keeps : keeps.

(** Steps of a computation, one [bind] at a time. *)
Ltac ekeeps_step :=
  lazymatch goal with
  | |- keeps _ (bind _ _) => apply keeps_bind; [apply enc_later_trans| |intros ?]
  | |- keeps _ (ret _) => apply keeps_ret, enc_later_refl
  | |- keeps _ (throw _) => apply keeps_throw, enc_later_refl
  | |- keeps _ (panics _) => apply keeps_panics, enc_later_refl
  | |- keeps _ out_of_fuel => apply keeps_out_of_fuel, enc_later_refl
  | |- keeps _ (gets _) => apply keeps_gets, enc_later_refl
  | |- keeps _ (if ?b then _ else _) => destruct b
  | |- keeps _ (match ?x with _ => _ end) => destruct x
  | |- _ => solve [auto with keeps]
  end.

Lemma encodeBool_keeps b : ekeeps (Enc.encodeBool b).
Proof. unfold Enc.encodeBool. repeat ekeeps_step. Qed.

Lemma encodeFloat_keeps v : ekeeps (Enc.encodeFloat v).
Proof. unfold Enc.encodeFloat. repeat ekeeps_step. Qed.

Lemma encodeString_keeps s : ekeeps (Enc.encodeString s).
Proof. unfold Enc.encodeString. repeat ekeeps_step. Qed.

#[local] Hint Resolve encodeBool_keeps encodeFloat_keeps encodeString_keeps : keeps.

Lemma encodeUint_keeps v : ekeeps (Enc.encodeUint v).
Proof. unfold Enc.encodeUint. repeat ekeeps_step. Qed.

Lemma encodeInt_keeps v : ekeeps (Enc.encodeInt v).
Proof. unfold Enc.encodeInt. repeat ekeeps_step. Qed.

#[local] Hint Resolve encodeUint_keeps encodeInt_keeps : keeps.

Section EncodeKeeps.
Variable encode : Enc.value -> Enc.EM unit.
Hypothesis encode_keeps : forall v, ekeeps (encode v).

Lemma encodeMap_range_keeps entries : ekeeps (Enc.encodeMap_range encode entries).
Proof.
    induction entries as [|[k elem] rest IH]; cbn [Enc.encodeMap_range];
      repeat ekeeps_step; auto.
Qed.

Lemma encodeStruct_fields_keeps fields : ekeeps (Enc.encodeStruct_fields encode fields).
Proof.
    induction fields as [|[f fv] rest IH]; cbn [Enc.encodeStruct_fields];
      repeat ekeeps_step; auto.
Qed.

Lemma encodeSlice_elems_keeps elems : ekeeps (Enc.encodeSlice_elems encode elems).
Proof.
    induction elems as [|elem rest IH]; cbn [Enc.encodeSlice_elems];
      repeat ekeeps_step; auto.
Qed.

Lemma encodeMap_keeps v : ekeeps (Enc.encodeMap encode v).
Proof.
    unfold Enc.encodeMap. repeat ekeeps_step. apply encodeMap_range_keeps.
Qed.

Lemma encodeStruct_keeps v : ekeeps (Enc.encodeStruct encode v).
Proof.
    unfold Enc.encodeStruct. repeat ekeeps_step. apply encodeStruct_fields_keeps.
Qed.

Lemma encodeSlice_keeps v : ekeeps (Enc.encodeSlice encode v).
Proof.
    unfold Enc.encodeSlice. repeat ekeeps_step. apply encodeSlice_elems_keeps.
Qed.

Lemma encode_body_keeps v : ekeeps (Enc.encode_body encode v).
Proof.
    unfold Enc.encode_body.
    destruct v as [ |b|x|x|f|s|p es|p l|ad p l|ro dyn|target|t ro p fs|t].
    - unfold Enc.TypeString. repeat ekeeps_step.
    - auto with keeps.
    - auto with keeps.
    - auto with keeps.
    - auto with keeps.
    - auto with keeps.
    - apply encodeMap_keeps.
    - apply encodeSlice_keeps.
    - destruct ad; [apply encodeSlice_keeps|repeat ekeeps_step].
    - destruct ro; [repeat ekeeps_step|apply encode_keeps].
    - destruct target as [[a x]|]; [|apply writeMarker_keeps].
      destruct x; try apply encode_keeps. apply encodeStruct_keeps.
    - unfold Enc.TypeString. repeat ekeeps_step.
    - unfold Enc.TypeString. repeat ekeeps_step.
Qed.
End EncodeKeeps.

Lemma encode_keeps fuel v : ekeeps (Enc.encode fuel v).
Proof.
  revert v. induction fuel as [|fuel IH]; intros v; cbn [Enc.encode].
  - apply keeps_out_of_fuel, enc_later_refl.
  - apply encode_body_keeps. exact IH.
Qed.

Lemma Encode_keeps v : ekeeps (Enc.Encode v).
Proof. apply encode_keeps. Qed.

(** * The string cache of the decoder *)

Lemma dec_later_refl s : dec_later s s.
Proof. split; [reflexivity|auto]. Qed.

Lemma dec_later_trans a b c : dec_later a b -> dec_later b c -> dec_later a c.
Proof. intros [H1 H2] [H3 H4]. split; [etrans; eauto|auto]. Qed.

Lemma dec_later_same s s' :
  Dec.stringCache (Dec.dec s') = Dec.stringCache (Dec.dec s) -> dec_later s s'.
Proof. intros H. unfold dec_later. rewrite H. split; [reflexivity|auto]. Qed.

Lemma reflect_keeps {A} (m : M Heap Dec.error A) : dkeeps (Dec.reflect m).
Proof.
  intros s. apply dec_later_same. unfold Dec.reflect. destruct (m (Dec.mem s)). reflexivity.
Qed.

Lemma readBytes_keeps n : dkeeps (Dec.readBytes n).
Proof.
  intros s. apply dec_later_same. unfold Dec.readBytes.
  destruct (Nat.leb _ _); reflexivity.
Qed.

Lemma append_objectCache_keeps v : dkeeps (Dec.append_objectCache v).
Proof. intros s. apply dec_later_same. reflexivity. Qed.

Lemma append_stringCache_keeps x : x <> ""%string -> dkeeps (Dec.append_stringCache x).
Proof.
  intros Hx s. unfold Dec.append_stringCache, modify, dec_later, dec_strings_ok. cbn. split.
  - apply prefix_app_r. reflexivity.
  - intros H. apply Forall_app. split; [exact H|]. constructor; [exact Hx|constructor].
Qed.

Lemma string_at_keeps v : dkeeps (Dec.string_at v).
Proof.
  intros s. apply dec_later_same. unfold Dec.string_at.
  destruct (ValOf _ _) as [[]|]; reflexivity.
Qed.

#[local] Hint Resolve dec_later_refl dec_later_trans : keeps.
#[local] Hint Resolve reflect_keeps readBytes_keeps append_objectCache_keeps
  string_at_keeps : keeps.

Ltac dkeeps_step :=
  lazymatch goal with
  | |- keeps _ (bind _ _) => apply keeps_bind; [apply dec_later_trans| |intros ?]
  | |- keeps _ (ret _) => apply keeps_ret, dec_later_refl
  | |- keeps _ (throw _) => apply keeps_throw, dec_later_refl
  | |- keeps _ (panics _) => apply keeps_panics, dec_later_refl
  | |- keeps _ out_of_fuel => apply keeps_out_of_fuel, dec_later_refl
  | |- keeps _ (gets _) => apply keeps_gets, dec_later_refl
  | |- keeps _ (if ?b then _ else _) => destruct b
  | |- keeps _ (match ?x with _ => _ end) => destruct x
  | |- _ => solve [auto with keeps]
  end.

Lemma readMarker_keeps : dkeeps Dec.readMarker.
Proof. unfold Dec.readMarker. repeat dkeeps_step. Qed.

#[local] Hint Resolve readMarker_keeps : keeps.

Lemma readU29_from_keeps i count r : dkeeps (Dec.readU29_from i count r).
Proof.
  revert i r. induction count as [|count IH]; intros i r; cbn [Dec.readU29_from];
    repeat dkeeps_step; apply IH.
Qed.

Lemma readU29_keeps : dkeeps Dec.readU29.
Proof. apply readU29_from_keeps. Qed.

Lemma dec_same_strings_trans a b c :
  dec_same_strings a b -> dec_same_strings b c -> dec_same_strings a c.
Proof. unfold dec_same_strings. congruence. Qed.

Lemma reflect_same_strings {A} (m : M Heap Dec.error A) :
  keeps dec_same_strings (Dec.reflect m).
Proof. intros s. unfold dec_same_strings, Dec.reflect. destruct (m (Dec.mem s)). reflexivity. Qed.

Lemma readMarker_same_strings : keeps dec_same_strings Dec.readMarker.
Proof.
  intros s. unfold dec_same_strings, Dec.readMarker, Dec.readBytes, bind.
  destruct (Nat.leb _ _); [|reflexivity].
  destruct (firstn 1 _); reflexivity.
Qed.

Lemma readU29_from_strings i count r :
  keeps dec_same_strings (Dec.readU29_from i count r).
Proof.
  revert i r. induction count as [|count IH]; intros i r; cbn [Dec.readU29_from].
  - intros s. reflexivity.
  - apply keeps_bind; [exact dec_same_strings_trans|exact readMarker_same_strings|intros b].
    destruct (negb _); [destruct (_ =? 0)|]; try apply IH. intros s. reflexivity.
Qed.

Lemma type_Elem_keeps t : dkeeps (Dec.type_Elem t).
Proof. unfold Dec.type_Elem. repeat dkeeps_step. Qed.

Lemma new_string_var_keeps : dkeeps Dec.new_string_var.
Proof. unfold Dec.new_string_var. repeat dkeeps_step. Qed.

#[local] Hint Resolve readU29_keeps type_Elem_keeps new_string_var_keeps : keeps.

Lemma setBool_keeps value v : dkeeps (Dec.setBool value v).
Proof. unfold Dec.setBool. repeat dkeeps_step. Qed.

Lemma readFloat_keeps value : dkeeps (Dec.readFloat value).
Proof. unfold Dec.readFloat. repeat dkeeps_step. Qed.

Lemma readInteger_keeps value : dkeeps (Dec.readInteger value).
Proof. unfold Dec.readInteger. repeat dkeeps_step. Qed.

Lemma readString_keeps value : dkeeps (Dec.readString value).
Proof.
  unfold Dec.readString.
  apply keeps_bind; [apply dec_later_trans|auto with keeps|intros index].
  apply keeps_bind; [apply dec_later_trans| |intros s; repeat dkeeps_step].
  destruct (_ =? 0); [repeat dkeeps_step|].
  apply keeps_bind; [apply dec_later_trans|auto with keeps|intros bytes].
  apply keeps_bind; [apply dec_later_trans| |intros _; repeat dkeeps_step].
  destruct (String.eqb_spec (string_of_bytes bytes) "") as [_|Hne].
  - repeat dkeeps_step.
  - apply append_stringCache_keeps. exact Hne.
Qed.

#[local] Hint Resolve setBool_keeps readFloat_keeps readInteger_keeps readString_keeps : keeps.

Section DecodeKeeps.
Variable decode : Value -> Dec.DM unit.
Hypothesis decode_keeps : forall v, dkeeps (decode v).

Lemma readObject_map_keeps fuel value : dkeeps (Dec.readObject_map decode fuel value).
Proof.
    induction fuel as [|fuel IH]; cbn [Dec.readObject_map]; repeat dkeeps_step; auto.
Qed.

Lemma readObject_struct_keeps fuel value : dkeeps (Dec.readObject_struct decode fuel value).
Proof.
    induction fuel as [|fuel IH]; cbn [Dec.readObject_struct]; repeat dkeeps_step; auto.
Qed.

Lemma readObject_keeps fuel value : dkeeps (Dec.readObject decode fuel value).
Proof.
    unfold Dec.readObject. repeat dkeeps_step;
      auto using readObject_map_keeps, readObject_struct_keeps.
Qed.

Lemma readSlice_elems_keeps value i count : dkeeps (Dec.readSlice_elems decode value i count).
Proof.
    revert i. induction count as [|count IH]; intros i; cbn [Dec.readSlice_elems];
      repeat dkeeps_step; auto.
Qed.

Lemma readSlice_keeps value : dkeeps (Dec.readSlice decode value).
Proof.
    unfold Dec.readSlice. repeat dkeeps_step; auto using readSlice_elems_keeps.
Qed.

Lemma unwrap_pointers_keeps n value : dkeeps (Dec.unwrap_pointers n value).
Proof.
    revert value. induction n as [|n IH]; intros value; cbn [Dec.unwrap_pointers];
      repeat dkeeps_step; auto.
Qed.

Lemma decode_body_keeps fuel value : dkeeps (Dec.decode_body decode fuel value).
Proof.
    unfold Dec.decode_body.
    repeat dkeeps_step;
      auto using readObject_keeps, readSlice_keeps, unwrap_pointers_keeps.
Qed.
End DecodeKeeps.

Lemma decode_keeps fuel value : dkeeps (Dec.decode fuel value).
Proof.
  revert value. induction fuel as [|fuel IH]; intros value; cbn [Dec.decode].
  - apply keeps_out_of_fuel, dec_later_refl.
  - apply decode_body_keeps. exact IH.
Qed.

Lemma DecodeValue_keeps value : dkeeps (Dec.DecodeValue value).
Proof. intros s. unfold Dec.DecodeValue. apply decode_keeps. Qed.

(** * Sessions *)

Lemma enc_strings_ok_empty : enc_strings_ok ∅.
Proof.
  split; [apply lookup_empty|]. split.
  - intros s i H. rewrite lookup_empty in H. discriminate.
  - intros s s' i H. rewrite lookup_empty in H. discriminate.
Qed.

Lemma enc_session_strings_ok e : enc_session e -> enc_strings_ok (Enc.stringCache e).
Proof.
  induction 1 as [w r|e v _ IH|e fuel v _ IH|e _ _|e w _ IH].
  - apply enc_strings_ok_empty.
  - apply (Encode_keeps v e). exact IH.
  - apply (encode_keeps fuel v e). exact IH.
  - apply enc_strings_ok_empty.
  - exact IH.
Qed.

Lemma dec_session_strings_ok s : dec_session s -> dec_strings_ok (Dec.stringCache (Dec.dec s)).
Proof.
  induction 1 as [r h|s v _ IH|s v _ IH|s fuel v _ IH|s _ _|s r h _ IH].
  - constructor.
  - apply (DecodeValue_keeps v s). exact IH.
  - apply (DecodeValue_keeps v s). exact IH.
  - apply (decode_keeps fuel v s). exact IH.
  - constructor.
  - exact IH.
Qed.

(** A successful [writeString] of a non-empty string that is not cached
    yet caches it at the next index. *)
Lemma writeString_caches s e :
  s <> ""%string -> Enc.stringCache e !! s = None ->
  fst (Enc.writeString s e) = Ok tt ->
  Enc.stringCache (snd (Enc.writeString s e))
  = <[s := Z.of_nat (size (Enc.stringCache e))]> (Enc.stringCache e).
Proof.
  intros Hne Hc. unfold Enc.writeString, bind, gets. rewrite Hc.
  pose proof (writeU29_strings (uint32 (Z.lor (Z.shiftl (len s) 1) 1)) e) as H1.
  destruct (Enc.writeU29 _ e) as [[[]| | |] e1]; cbn in H1; try discriminate.
  rewrite String_eqb_nonempty by assumption. unfold modify.
  intros _. rewrite writeBytes_strings. cbn. rewrite H1. reflexivity.
Qed.

(** The rest of [readString], after the string has been read, leaves
    the string cache as it is. *)
Lemma readString_store_strings value (x : string) s :
  Dec.stringCache (Dec.dec (snd (
    (k <- Dec.reflect (Kind value) ;;
     match k with
     | KInt WInt | KInt W32 | KInt W64 =>
         match ParseInt x with
         | Some num => Dec.reflect (SetInt value num)
         | None => throw (Dec.NumError x)
         end
     | KUint WInt | KUint W32 | KUint W64 =>
         match ParseUint x with
         | Some num => Dec.reflect (SetUint value num)
         | None => throw (Dec.NumError x)
         end
     | KString => Dec.reflect (SetString value x)
     | KInterface => Dec.reflect (Set_ value (ValueOf TString (VString x)))
     | _ => t <- Dec.reflect (Type_ value) ;; throw (Dec.InvalidType t "string")
     end)%go s)))
  = Dec.stringCache (Dec.dec s).
Proof.
  pose proof dec_same_strings_trans as Htrans.
  assert (Hrefl : forall a, dec_same_strings a a) by reflexivity.
  pose proof (@reflect_same_strings) as Hreflect.
  revert s. change (keeps dec_same_strings
    (k <- Dec.reflect (Kind value) ;;
     match k with
     | KInt WInt | KInt W32 | KInt W64 =>
         match ParseInt x with
         | Some num => Dec.reflect (SetInt value num)
         | None => throw (Dec.NumError x)
         end
     | KUint WInt | KUint W32 | KUint W64 =>
         match ParseUint x with
         | Some num => Dec.reflect (SetUint value num)
         | None => throw (Dec.NumError x)
         end
     | KString => Dec.reflect (SetString value x)
     | KInterface => Dec.reflect (Set_ value (ValueOf TString (VString x)))
     | _ => t <- Dec.reflect (Type_ value) ;; throw (Dec.InvalidType t "string")
     end)%go).
  repeat lazymatch goal with
    | |- keeps _ (bind _ _) => apply keeps_bind; [exact Htrans| |intros ?]
    | |- keeps _ (Dec.reflect _) => apply Hreflect
    | |- keeps _ (throw _) => apply keeps_throw; exact Hrefl
    | |- keeps _ (match ?y with _ => _ end) => destruct y
    end.
Qed.

(** A literal that [readString] reads, when it is not empty, is appended
    to the cache, whatever the destination does with it. *)
Lemma readString_caches value s0 index s1 bytes s2 :
  Dec.readU29 s0 = (Ok index, s1) -> Z.land index 0x01 <> 0 ->
  Dec.readBytes (Z.to_nat (Z.shiftr index 1)) s1 = (Ok bytes, s2) ->
  string_of_bytes bytes <> ""%string ->
  Dec.stringCache (Dec.dec (snd (Dec.readString value s0)))
  = Dec.stringCache (Dec.dec s0) ++ [string_of_bytes bytes].
Proof.
  intros Hu Hodd Hb Hne.
  assert (E1 : Dec.stringCache (Dec.dec s1) = Dec.stringCache (Dec.dec s0)).
  { pose proof (readU29_from_strings 0 4 0 s0) as H. unfold Dec.readU29 in Hu.
    unfold dec_same_strings in H. rewrite Hu in H. exact H. }
  assert (E2 : Dec.stringCache (Dec.dec s2) = Dec.stringCache (Dec.dec s1)).
  { unfold Dec.readBytes in Hb. destruct (Nat.leb _ _); injection Hb as _ <-; reflexivity. }
  unfold Dec.readString. unfold bind at 1. rewrite Hu.
  destruct (Z.eqb_spec (Z.land index 1) 0) as [|_]; [contradiction|].
  unfold bind at 1. unfold bind at 1. rewrite Hb.
  rewrite String_eqb_nonempty by assumption.
  unfold bind at 1. unfold Dec.append_stringCache, modify. unfold ret at 1.
  rewrite readString_store_strings. cbn. rewrite E2, E1. reflexivity.
Qed.

(** C9.  The empty string is never cached.  In every state of an
    encoder's session the string cache has no empty key and its keys are
    numbered 0, 1, 2, ... without gaps or repeats; an [Encode] only adds
    to it, so a string keeps the index of its first appearance, and a
    successful [writeString] of a non-empty string that is not cached
    puts it at the next index.  In every state of a decoder's session no
    entry of the string cache is empty; a [Decode] only appends to it, and
    a non-empty literal that [readString] reads is appended. *)
Theorem string_caches_hold_no_empty_string :
  (forall e, enc_session e ->
     Enc.stringCache e !! ""%string = None
     /\ (forall s i, Enc.stringCache e !! s = Some i ->
           0 <= i < Z.of_nat (size (Enc.stringCache e)))
     /\ (forall s s' i, Enc.stringCache e !! s = Some i ->
           Enc.stringCache e !! s' = Some i -> s = s'))
  /\ (forall e v, Enc.stringCache e ⊆ Enc.stringCache (snd (Enc.Encode v e)))
  /\ (forall e s, s <> ""%string -> Enc.stringCache e !! s = None ->
        fst (Enc.writeString s e) = Ok tt ->
        Enc.stringCache (snd (Enc.writeString s e))
        = <[s := Z.of_nat (size (Enc.stringCache e))]> (Enc.stringCache e))
  /\ (forall s, dec_session s ->
        Forall (fun x => x <> ""%string) (Dec.stringCache (Dec.dec s)))
  /\ (forall s v, Dec.stringCache (Dec.dec s)
                    `prefix_of` Dec.stringCache (Dec.dec (snd (Dec.Decode v s))))
  /\ (forall value s0 index s1 bytes s2,
        Dec.readU29 s0 = (Ok index, s1) -> Z.land index 0x01 <> 0 ->
        Dec.readBytes (Z.to_nat (Z.shiftr index 1)) s1 = (Ok bytes, s2) ->
        string_of_bytes bytes <> ""%string ->
        Dec.stringCache (Dec.dec (snd (Dec.readString value s0)))
        = Dec.stringCache (Dec.dec s0) ++ [string_of_bytes bytes]).
Proof.
  split; [exact enc_session_strings_ok|].
  split; [intros e v; apply (Encode_keeps v e)|].
  split; [intros e s; apply writeString_caches|].
  split; [exact dec_session_strings_ok|].
  split; [intros s v; apply (DecodeValue_keeps v s)|].
  exact readString_caches.
Qed.

Lemma string_caches_hold_no_empty_string_witness :
  enc_session (snd (Enc.Encode (Enc.String_ "") (snd (Enc.Encode (Enc.String_ "ab") fresh))))
  /\ Enc.stringCache (snd (Enc.Encode (Enc.String_ "") (snd (Enc.Encode (Enc.String_ "ab") fresh))))
       !! ""%string = None.
Proof.
  assert (H : enc_session
                (snd (Enc.Encode (Enc.String_ "") (snd (Enc.Encode (Enc.String_ "ab") fresh))))).
  { apply enc_session_Encode, enc_session_Encode. apply enc_session_new. }
  split; [exact H|].
  exact (proj1 (proj1 string_caches_hold_no_empty_string _ H)).
Defined.

(** * Null and references, in general *)

(** X13.  The Null marker into a destination that cannot be nil (a
    boolean, a number, a string, a record) makes [decode] panic in
    [value.IsNil()]; the error "invalid type ... for nil" is not
    returned.  The marker has been consumed and the memory is as it
    was. *)
Theorem Null_into_slot_that_cannot_be_nil fuel ro p d h rest v :
  Dec.reader d = NULL_MARKER :: rest ->
  load h p = Some v -> cannot_be_nil v = true ->
  Dec.decode (S fuel) (At ro p) {| Dec.dec := d; Dec.mem := h |}
  = (Panic (ReflectPanic "reflect.Value.IsNil"),
     {| Dec.dec := with_strings rest (Dec.stringCache d) d; Dec.mem := h |}).
Proof.
  intros Hr Hl Hv. cbn [Dec.decode]. unfold Dec.decode_body.
  unfold bind at 1. rewrite (readMarker_cons NULL_MARKER rest) by exact Hr.
  cbn [Byte.eqb]. change (Byte.eqb NULL_MARKER NULL_MARKER) with true. cbv beta iota.
  unfold bind at 1. unfold Dec.reflect, IsNil. cbn [Dec.set_reader Dec.mem Dec.dec ValOf].
  rewrite Hl. destruct v; try discriminate; reflexivity.
Qed.

(** X12.  The Null marker into an addressable destination of a nilable
    kind (an [AMFAny], a sequence, a mapping, a pointer) succeeds: a
    destination that is nil is left as it is, any other is set to the
    zero value of its type. *)
Theorem Null_clears_a_nilable_slot fuel p d h rest t v isnil :
  Dec.reader d = NULL_MARKER :: rest ->
  type_at h p = Some t -> load h p = Some v -> clearable t v = Some isnil ->
  exists h',
    Dec.decode (S fuel) (At false p) {| Dec.dec := d; Dec.mem := h |}
    = (Ok tt, {| Dec.dec := with_strings rest (Dec.stringCache d) d; Dec.mem := h' |})
    /\ load h' p = Some (if isnil then v else zero t).
Proof.
  intros Hr Ht Hl Hc. cbn [Dec.decode]. unfold Dec.decode_body.
  unfold bind at 1. rewrite (readMarker_cons NULL_MARKER rest) by exact Hr.
  change (Byte.eqb NULL_MARKER NULL_MARKER) with true. cbv beta iota.
  assert (Hslot : slot h p t) by (split; [exact Ht|eexists; exact Hl]).
  assert (Hnil : Dec.reflect (IsNil (At false p))
                   {| Dec.dec := with_strings rest (Dec.stringCache d) d; Dec.mem := h |}
                 = (Ok isnil, {| Dec.dec := with_strings rest (Dec.stringCache d) d; Dec.mem := h |})).
  { unfold Dec.reflect, IsNil. cbn [Dec.mem ValOf]. rewrite Hl.
    destruct t, v; try discriminate; cbn in Hc; injection Hc as <-; reflexivity. }
  unfold bind at 1.
  change (Dec.set_reader rest {| Dec.dec := d; Dec.mem := h |})
    with {| Dec.dec := with_strings rest (Dec.stringCache d) d; Dec.mem := h |}.
  rewrite Hnil. destruct isnil.
  - exists h. split; [reflexivity|exact Hl].
  - unfold bind at 1. rewrite (reflect_Kind_slot _ _ _ _ _ Hslot).
    destruct (reflect_Set_Imm h p t t (zero t)
                (with_strings rest (Dec.stringCache d) d) Hslot (zero t))
      as (h' & Hset & Hl' & _).
    { rewrite type_eqb_refl. reflexivity. }
    exists h'. split; [|exact Hl'].
    assert (Hty : Dec.reflect (Type_ (At false p))
                    {| Dec.dec := with_strings rest (Dec.stringCache d) d; Dec.mem := h |}
                  = (Ok t, {| Dec.dec := with_strings rest (Dec.stringCache d) d; Dec.mem := h |})).
    { unfold Dec.reflect, Type_. cbn [Dec.mem TypeOf]. rewrite Ht. reflexivity. }
    destruct t, v; try discriminate; cbn [kind_of]; unfold bind; rewrite Hty; exact Hset.
Qed.

Lemma Null_into_slot_that_cannot_be_nil_witness :
  Dec.decode 1 (At false the_variable) (one_variable TString [NULL_MARKER; Byte.xff])
  = (Panic (ReflectPanic "reflect.Value.IsNil"), one_variable TString [Byte.xff]).
Proof.
  exact (Null_into_slot_that_cannot_be_nil 0 false the_variable
           (Dec.NewDecoder [NULL_MARKER; Byte.xff]) [Cells TString [zero TString]]
           [Byte.xff] (VString "") eq_refl eq_refl eq_refl).
Defined.

Lemma Null_clears_a_nilable_slot_witness :
  let h := [Cells TInterface [VInterface (Some (TBool, VBool true))]] in
  exists h',
    Dec.decode 1 (At false the_variable)
      {| Dec.dec := Dec.NewDecoder [NULL_MARKER]; Dec.mem := h |}
    = (Ok tt, {| Dec.dec := Dec.NewDecoder []; Dec.mem := h' |})
    /\ load h' the_variable = Some (VInterface None).
Proof.
  intros h.
  exact (Null_clears_a_nilable_slot 0 the_variable (Dec.NewDecoder [NULL_MARKER]) h []
           TInterface (VInterface (Some (TBool, VBool true))) false
           eq_refl eq_refl eq_refl eq_refl).
Defined.

(** A reference to a string that is not in the cache makes [readString]
    panic, whatever the destination. *)
Lemma readString_reference_out_of_range n rest d h value :
  0 <= n < 0x100000 -> Dec.reader d = u29 (2 * n) ++ rest ->
  Dec.stringCache d !! Z.to_nat n = None ->
  Dec.readString value {| Dec.dec := d; Dec.mem := h |}
  = (Panic (IndexOutOfRange n (length (Dec.stringCache d))),
     {| Dec.dec := with_strings rest (Dec.stringCache d) d; Dec.mem := h |}).
Proof.
  intros Hn Hr Hc. unfold Dec.readString. unfold bind at 1.
  rewrite (readU29_u29 (2 * n) rest) by (cbn; (lia || assumption)).
  rewrite land_1. replace ((2 * n) mod 2) with 0 by (Z.div_mod_to_equations; lia).
  cbn [Z.eqb]. rewrite Z.shiftr_div_pow2 by lia.
  replace ((2 * n) / 2 ^ 1) with n by (Z.div_mod_to_equations; lia).
  unfold bind at 1. unfold bind at 1. unfold gets.
  cbn [Dec.set_reader Dec.dec Dec.mem Dec.reader Dec.stringCache Dec.objectCache].
  rewrite Hc. reflexivity.
Qed.

(** So do a reference to an object, and to an array, that is not in the
    object cache. *)
Lemma readObject_reference_out_of_range decode fuel n rest d h value :
  0 <= n < 0x100000 -> Dec.reader d = u29 (2 * n) ++ rest ->
  Dec.objectCache d !! Z.to_nat n = None ->
  Dec.readObject decode fuel value {| Dec.dec := d; Dec.mem := h |}
  = (Panic (IndexOutOfRange n (length (Dec.objectCache d))),
     {| Dec.dec := with_strings rest (Dec.stringCache d) d; Dec.mem := h |})
  /\ Dec.readSlice decode value {| Dec.dec := d; Dec.mem := h |}
     = (Panic (IndexOutOfRange n (length (Dec.objectCache d))),
        {| Dec.dec := with_strings rest (Dec.stringCache d) d; Dec.mem := h |}).
Proof.
  intros Hn Hr Hc.
  assert (Hu : Dec.readU29 {| Dec.dec := d; Dec.mem := h |}
               = (Ok (2 * n),
                  {| Dec.dec := with_strings rest (Dec.stringCache d) d; Dec.mem := h |})).
  { rewrite (readU29_u29 (2 * n) rest) by (cbn; (lia || assumption)). reflexivity. }
  assert (He : (Z.land (2 * n) 1 =? 0) = true).
  { rewrite land_1. replace ((2 * n) mod 2) with 0 by (Z.div_mod_to_equations; lia).
    reflexivity. }
  assert (Hs : Z.shiftr (2 * n) 1 = n).
  { rewrite Z.shiftr_div_pow2 by lia. Z.div_mod_to_equations; lia. }
  split.
  - unfold Dec.readObject. unfold bind at 1. rewrite Hu, He, Hs.
    unfold bind, gets. cbn [Dec.dec Dec.mem Dec.objectCache with_strings].
    rewrite Hc. reflexivity.
  - unfold Dec.readSlice. unfold bind at 1. rewrite Hu, He, Hs.
    unfold bind, gets. cbn [Dec.dec Dec.mem Dec.objectCache with_strings].
    rewrite Hc. reflexivity.
Qed.

(** The reference that the encoder writes for the composite cached at
    [idx] is the U29 of [4 * idx], for a mapping, a record and a sequence
    alike; the decoder resolves the U29 of [2 * n] at [n]. *)
Lemma encoder_reference_form encode v idx e :
  unbounded e -> Enc.objectCache e !! Enc.Pointer v = Some idx -> 0 <= idx < 2 ^ 27 ->
  Enc.encodeMap encode v e = (Ok tt, append (OBJECT_MARKER :: u29 (4 * idx)) e)
  /\ Enc.encodeStruct encode v e = (Ok tt, append (OBJECT_MARKER :: u29 (4 * idx)) e)
  /\ Enc.encodeSlice encode v e = (Ok tt, append (ARRAY_MARKER :: u29 (4 * idx)) e).
Proof.
  intros He Hc Hi. change (2 ^ 27) with 0x8000000 in Hi.
  assert (Hu : uint32 (Z.shiftl idx 2) = 4 * idx).
  { rewrite Z.shiftl_mul_pow2 by lia. unfold uint32.
    rewrite Z.mod_small; [lia|]. change (2 ^ 32) with 4294967296. lia. }
  assert (Hw : forall m, (Enc.writeMarker m ;;; Enc.writeU29 (4 * idx)) e
                         = (Ok tt, append (m :: u29 (4 * idx)) e)).
  { intros m. unfold bind, Enc.writeMarker. rewrite writeBytes_unbounded by exact He.
    rewrite writeU29_unbounded by (reflexivity || lia).
    unfold append, Enc.set_writer. cbn. rewrite <- app_assoc. reflexivity. }
  unfold Enc.encodeMap, Enc.encodeStruct, Enc.encodeSlice.
  repeat split; rewrite <- Hw; unfold bind, Enc.writeMarker, gets;
    rewrite writeBytes_unbounded by exact He; cbn [append Enc.set_writer Enc.objectCache];
    rewrite Hc, Hu; reflexivity.
Qed.

(** * The claims that the code breaks, at their failing inputs *)

(** C2 (the code at the failing input).  [writeU29(0x200080)] succeeds
    and emits the four bytes [80 c0 81 80]; [readU29] reads them back as
    [0x200180], not [0x200080]: the third byte carries bits 7 to 13 where
    the reader takes it for bits 8 to 14. *)
Theorem writeU29_0x200080_reads_back_as_0x200180 :
  Enc.writeU29 0x200080 fresh = (Ok tt, append (hex [0x80; 0xc0; 0x81; 0x80]) fresh)
  /\ Dec.readU29 (decoder_on (hex [0x80; 0xc0; 0x81; 0x80]))
     = (Ok 0x200180, decoder_on []).
Proof. split; reflexivity. Qed.

(** The boundary values of the U29 ranges do go round, each in the
    shortest form, and [0x20000000] is refused. *)
Lemma u29_boundaries_round_trip :
  Forall (fun v => Dec.readU29 (decoder_on (u29 v)) = (Ok v, decoder_on []))
    [0; 0x7f; 0x80; 0x3fff; 0x4000; 0x1fffff; 0x200000; 0x1fffffff]
  /\ List.map (fun v => length (u29 v))
       [0; 0x7f; 0x80; 0x3fff; 0x4000; 0x1fffff; 0x200000; 0x1fffffff]
     = [1; 1; 2; 2; 3; 3; 4; 4]%nat
  /\ Enc.writeU29 0x20000000 fresh = (Err Enc.U29Overflow, fresh).
Proof. split; [repeat constructor|split; reflexivity]. Qed.

(** C3 (the code at the failing inputs).  [encodeInt(0x10000000)] writes
    the Integer marker and the U29 [c0 80 80 00], not a Double;
    [encodeInt(-1)] writes the Integer marker and then fails with "u29
    overflow": no bias is added to a negative value. *)
Theorem encodeInt_misses_the_upper_bound_and_the_bias :
  Enc.encodeInt 0x10000000 fresh
  = (Ok tt, append (INTEGER_MARKER :: hex [0xc0; 0x80; 0x80; 0x00]) fresh)
  /\ Enc.encodeInt (-1) fresh = (Err Enc.U29Overflow, append [INTEGER_MARKER] fresh).
Proof. split; reflexivity. Qed.

(** C4 (the code at the failing input).  [Encode(nil)] panics, whatever
    the state of the encoder: [reflect.ValueOf(nil)] is the zero Value, the
    dispatcher takes its default branch, and [v.Type()] panics there.  The
    same happens to a nil element of an [[]AMFAny], after the head of the
    array has been written. *)
Theorem Encode_of_untyped_nil_panics :
  forall e, Enc.Encode Enc.Invalid e = (Panic (ReflectPanic "reflect.Value.Type"), e)
  /\ Enc.Encode (Enc.Slice 0xc000010000 [Enc.Interface false Enc.Invalid]) fresh
     = (Panic (ReflectPanic "reflect.Value.Type"),
        Enc.set_objectCache {[ 0xc000010000 := 0 ]}
          (append (ARRAY_MARKER :: hex [0x03; 0x01]) fresh)).
Proof. intros e. split; reflexivity. Qed.

(** A nil pointer, however wrapped in interfaces and pointers, is encoded
    as the Null marker alone. *)
Lemma encode_wrapped_nil wraps fuel e :
  unbounded e -> (length wraps < fuel)%nat ->
  Enc.encode fuel (wrapped_nil wraps) e = (Ok tt, append [NULL_MARKER] e).
Proof.
  revert fuel. induction wraps as [|[p|] rest IH]; intros fuel He Hf;
    (destruct fuel as [|fuel]; [cbn in Hf; lia|]); cbn in Hf.
  - cbn [Enc.encode wrapped_nil Enc.encode_body].
    apply writeBytes_unbounded, He.
  - cbn [Enc.encode wrapped_nil Enc.encode_body].
    pose proof (IH fuel He ltac:(lia)) as IH'.
    destruct (wrapped_nil rest) eqn:E; try exact IH'.
    destruct rest as [|[?|] ?]; discriminate.
  - cbn [Enc.encode wrapped_nil Enc.encode_body]. apply IH; [assumption|lia].
Qed.

(** C5 (the code at the failing inputs).  A string reference, an object
    reference and an array reference to a cache entry that does not exist
    make [Decode] panic with an index out of range; no error is
    returned. *)
Theorem reference_out_of_range_panics :
  fst (Dec.Decode (pointer_to_variable TString) (one_variable TString (hex [0x06; 0x00])))
  = Panic (IndexOutOfRange 0 0)
  /\ fst (Dec.Decode (pointer_to_variable TInterface) (one_variable TInterface (hex [0x0a; 0x00])))
     = Panic (IndexOutOfRange 0 0)
  /\ fst (Dec.Decode (pointer_to_variable TInterface) (one_variable TInterface (hex [0x09; 0x02])))
     = Panic (IndexOutOfRange 1 0).
Proof. repeat split; reflexivity. Qed.

(** C6 (the code at the failing input).  The Null marker decoded into
    an [int] slot panics in [value.IsNil()], before the switch that would
    return the type-mismatch error; through [Decode(&x)] it panics in
    [value.Set], the pointer [&x] itself being taken for the destination. *)
Theorem Null_into_an_integer_slot_panics :
  Dec.DecodeValue (At false the_variable) (one_variable (TInt WInt) [NULL_MARKER])
  = (Panic (ReflectPanic "reflect.Value.IsNil"), one_variable (TInt WInt) [])
  /\ Dec.Decode (pointer_to_variable (TInt WInt)) (one_variable (TInt WInt) [NULL_MARKER])
     = (Panic (ReflectPanic "reflect.Value.Set"), one_variable (TInt WInt) []).
Proof. split; reflexivity. Qed.

(** C1 (the code at the failing input).  A record whose two fields alias
    one mapping is encoded as one literal and, for the second field, the
    reference [U29(1<<2) = 04]; [Decode] of that stream panics, looking up
    entry 2 of an object cache of two entries.  With the reference
    [U29(1<<1) = 02] in its place the two fields come back as the same
    mapping. *)
Theorem aliased_fields_are_not_decoded_back :
  let stream := hex [0x0a; 0x0b; 0x01; 0x03; 0x61; 0x0a; 0x0b; 0x01; 0x01;
                     0x03; 0x62; 0x0a; 0x04; 0x01] in
  let intended := hex [0x0a; 0x0b; 0x01; 0x03; 0x61; 0x0a; 0x0b; 0x01; 0x01;
                       0x03; 0x62; 0x0a; 0x02; 0x01] in
  emitted (Enc.Encode two_aliases) = stream
  /\ fst (Enc.Encode two_aliases fresh) = Ok tt
  /\ fst (Dec.Decode (pointer_to_variable record_T) (one_variable record_T stream))
     = Panic (IndexOutOfRange 2 2)
  /\ (let s := snd (Dec.Decode (pointer_to_variable record_T) (one_variable record_T intended)) in
      load (Dec.mem s) (field 0) = Some (VMap (Some 2%nat))
      /\ load (Dec.mem s) (field 1) = Some (VMap (Some 2%nat))).
Proof. repeat split; reflexivity. Qed.


(** C8 (counterexample).  The Integer 300 decoded into an [int8] slot
    leaves 44 there, the low eight bits, not the signed reading 300. *)
Lemma Integer_300_into_int8 :
  Dec.Decode (pointer_to_variable (TInt W8))
    (one_variable (TInt W8) (INTEGER_MARKER :: u29 300))
  = (Ok tt, {| Dec.dec := Dec.NewDecoder []; Dec.mem := [Cells (TInt W8) [VInt 44]] |})
  /\ signed29 300 = 300
  /\ VInt 44 <> VInt (signed29 300).
Proof. split; [reflexivity|]. split; [reflexivity|discriminate]. Qed.

(** * Map enumeration and determinism *)


(** * Two runs of the encoder *)

Section TwoRuns.
Variable ρ : Z -> Z.
Hypothesis ρ_inj : forall a b, ρ a = ρ b -> a = b.

Lemma same_run_pure {A} (m : Enc.EM A) :
  (forall e, snd (m e) = e) -> (forall e1 e2, alike ρ e1 e2 -> fst (m e1) = fst (m e2)) ->
  same_run ρ m m.
Proof.
  intros Hs Hf e1 e2 H. rewrite !Hs. split; [apply Hf, H|]. split; [exact H|].
  exists []. rewrite !app_nil_r. split; reflexivity.
Qed.

Lemma same_run_ret {A} (a : A) : same_run ρ (ret a) (ret a).
Proof. apply same_run_pure; reflexivity. Qed.

Lemma same_run_throw {A} (x : Enc.error) : same_run ρ (@throw _ _ A x) (throw x).
Proof. apply same_run_pure; reflexivity. Qed.

Lemma same_run_panics {A} (p : panic) : same_run ρ (@panics _ _ A p) (panics p).
Proof. apply same_run_pure; reflexivity. Qed.

Lemma same_run_out_of_fuel {A} : same_run ρ (@out_of_fuel _ _ A) out_of_fuel.
Proof. apply same_run_pure; reflexivity. Qed.

Lemma same_run_ret_bind {A B} (x1 x2 : A) (k1 k2 : A -> Enc.EM B) :
  same_run ρ (k1 x1) (k2 x2) -> same_run ρ (bind (ret x1) k1) (bind (ret x2) k2).
Proof. intros H e1 e2 Ha. exact (H e1 e2 Ha). Qed.

Lemma same_run_panics_bind {A B} (p : panic) (k1 k2 : A -> Enc.EM B) :
  same_run ρ (bind (panics p) k1) (bind (panics p) k2).
Proof. exact (same_run_panics p). Qed.

Lemma same_run_bind {A B} (m1 m2 : Enc.EM A) (k1 k2 : A -> Enc.EM B) :
  same_run ρ m1 m2 -> (forall a, same_run ρ (k1 a) (k2 a)) ->
  same_run ρ (bind m1 k1) (bind m2 k2).
Proof.
  intros Hm Hk e1 e2 H. unfold bind.
  destruct (Hm e1 e2 H) as (Hf & Ha & out & Ho1 & Ho2).
  destruct (m1 e1) as [o1 e1'], (m2 e2) as [o2 e2']. cbn in Hf, Ha, Ho1, Ho2. subst o2.
  destruct o1 as [a| | |]; cbn; try (split; [reflexivity|split; [exact Ha|eauto]]).
  destruct (Hk a e1' e2' Ha) as (Hf' & Ha' & out' & Ho1' & Ho2').
  split; [exact Hf'|]. split; [exact Ha'|].
  exists (out ++ out'). rewrite Ho1', Ho2', Ho1, Ho2, !app_assoc. split; reflexivity.
Qed.

Lemma same_run_writeBytes b : same_run ρ (Enc.writeBytes b) (Enc.writeBytes b).
Proof.
  intros e1 e2 (Hs & Hc & Hr & Hroom). unfold Enc.writeBytes, Enc.Write.
  rewrite Hroom. destruct (Enc.room (Enc.writer e2)) as [r|].
  - destruct (Nat.eqb _ _); cbn; (split; [reflexivity|]);
      (split; [repeat split; assumption || apply Hc|]); eauto.
  - rewrite Nat.eqb_refl. cbn. split; [reflexivity|].
    split; [repeat split; assumption || apply Hc|]. eauto.
Qed.

Lemma same_run_writeU29 v : same_run ρ (Enc.writeU29 v) (Enc.writeU29 v).
Proof.
  unfold Enc.writeU29.
  repeat (destruct (_ <? _); [apply same_run_writeBytes|]). apply same_run_throw.
Qed.

Lemma same_run_writeMarker m : same_run ρ (Enc.writeMarker m) (Enc.writeMarker m).
Proof. apply same_run_writeBytes. Qed.

Lemma same_run_gets {A} (f : Enc.Encoder -> A) :
  (forall e1 e2, alike ρ e1 e2 -> f e1 = f e2) -> same_run ρ (gets f) (gets f).
Proof.
  intros Hf. apply same_run_pure; [reflexivity|].
  intros e1 e2 H. cbn. rewrite (Hf e1 e2 H). reflexivity.
Qed.

Lemma same_run_writeString s : same_run ρ (Enc.writeString s) (Enc.writeString s).
Proof.
  unfold Enc.writeString.
  apply same_run_bind; [apply same_run_gets; intros e1 e2 H; apply H|intros c].
  destruct (c !! s) as [idx|]; [apply same_run_writeU29|].
  apply same_run_bind; [apply same_run_writeU29|intros _].
  apply same_run_bind; [|intros _; apply same_run_writeBytes].
  destruct (String.eqb s ""); [apply same_run_ret|].
  intros e1 e2 (Hs & Hc & Hr & Hroom). unfold modify. cbn. rewrite Hs.
  split; [reflexivity|]. split; [repeat split; assumption || apply Hc|].
  exists []. rewrite !app_nil_r. split; reflexivity.
Qed.

Lemma same_run_getFieldName f : same_run ρ (Enc.getFieldName f) (Enc.getFieldName f).
Proof.
  unfold Enc.getFieldName. destruct (Enc.Name f); [apply same_run_panics|].
  destruct (IsLower a); [apply same_run_ret|].
  destruct (negb _); [apply same_run_ret|].
  apply same_run_bind; [apply same_run_gets; intros e1 e2 H; apply H|intros r].
  destruct (negb r); apply same_run_ret.
Qed.

(** The look-up of a composite in the object cache, at its address in
    either run: both runs find it, with the same index, or both enter it
    with the same index. *)
Lemma same_run_cached {A} p (hit1 hit2 : Z -> Enc.EM A) (miss1 miss2 : Enc.EM A) :
  (forall idx, same_run ρ (hit1 idx) (hit2 idx)) -> same_run ρ miss1 miss2 ->
  same_run ρ
    (c <- gets Enc.objectCache ;;
     match c !! p with
     | Some idx => hit1 idx
     | None => Enc.cache_object p ;;; miss1
     end)
    (c <- gets Enc.objectCache ;;
     match c !! ρ p with
     | Some idx => hit2 idx
     | None => Enc.cache_object (ρ p) ;;; miss2
     end).
Proof.
  intros Hhit Hmiss e1 e2 H. pose proof H as (Hs & (Hsize & Hc) & Hr & Hroom).
  unfold bind, gets, Enc.cache_object, modify. cbv beta iota. rewrite Hc.
  destruct (Enc.objectCache e1 !! p) as [idx|] eqn:Hp; [apply Hhit, H|].
  set (e1' := Enc.set_objectCache _ e1). set (e2' := Enc.set_objectCache _ e2).
  assert (H' : alike ρ e1' e2').
  { subst e1' e2'. split; [exact Hs|]. split; [|split; assumption].
    cbn. split.
    - rewrite !map_size_insert_None by (rewrite ?Hc; exact Hp). lia.
    - intros a. rewrite Hsize. destruct (decide (p = a)) as [<-|Hne].
      + rewrite !lookup_insert_eq. reflexivity.
      + rewrite !lookup_insert_ne; [apply Hc|exact Hne|].
        intros Heq. apply Hne, ρ_inj, Heq. }
  exact (Hmiss e1' e2' H').
Qed.

Lemma rename_Addr x :
  is_record x = true -> rename ρ (Enc.Addr x) = Enc.Addr (rename ρ x).
Proof. destruct x; try discriminate. reflexivity. Qed.

Lemma rename_element x : rename ρ (element x) = element (rename ρ x).
Proof. destruct x as [ | | | | | | | | | |[[? ?]|]| | ]; reflexivity. Qed.

Section Bodies.
Variables encode1 encode2 : Enc.value -> Enc.EM unit.
Hypothesis Hencode : forall v, same_run ρ (encode1 v) (encode2 (rename ρ v)).

Lemma same_run_encodeSlice_elems l :
  same_run ρ (Enc.encodeSlice_elems encode1 l)
             (Enc.encodeSlice_elems encode2 (List.map (rename ρ) l)).
Proof.
  induction l as [|x l IH]; cbn [Enc.encodeSlice_elems List.map]; [apply same_run_ret|].
  apply same_run_bind; [|intros _; exact IH].
  change (match rename ρ x with Enc.Struct _ _ _ _ => Enc.Addr (rename ρ x) | _ => rename ρ x end)
    with (element (rename ρ x)).
  rewrite <- rename_element. apply Hencode.
Qed.

Lemma same_run_encodeStruct_fields l :
  same_run ρ (Enc.encodeStruct_fields encode1 l)
             (Enc.encodeStruct_fields encode2
                (List.map (fun fx => (fst fx, rename ρ (snd fx))) l)).
Proof.
  induction l as [|[f x] l IH]; cbn [Enc.encodeStruct_fields List.map fst snd];
    [apply same_run_ret|].
  apply same_run_bind; [apply same_run_getFieldName|intros name].
  destruct (String.eqb name ""); [exact IH|].
  apply same_run_bind; [apply same_run_writeString|intros _].
  apply same_run_bind; [|intros _; exact IH].
  change (match rename ρ x with Enc.Struct _ _ _ _ => Enc.Addr (rename ρ x) | _ => rename ρ x end)
    with (element (rename ρ x)).
  rewrite <- rename_element. apply Hencode.
Qed.

Lemma same_run_encodeMap_range l :
  same_run ρ (Enc.encodeMap_range encode1 l)
             (Enc.encodeMap_range encode2
                (List.map (fun kv => (fst kv, rename ρ (snd kv))) l)).
Proof.
  induction l as [|[k x] l IH]; cbn [Enc.encodeMap_range List.map fst snd];
    [apply same_run_ret|].
  destruct k as [ks|]; [|apply same_run_throw].
  apply same_run_bind; [apply same_run_writeString|intros _].
  destruct x as [ |b|z|z|f|s|p es|p l'|a p l'|ro x|[[p x]|]|t ro p fs|t];
    cbn [rename];
    try (apply same_run_ret_bind;
         apply same_run_bind; [exact (Hencode _)|intros _; exact IH]).
  - destruct ro.
    + apply same_run_panics_bind.
    + apply same_run_ret_bind.
      apply same_run_bind;
        [exact (Hencode (Enc.Addr (Enc.Struct t false p fs)))|intros _; exact IH].
Qed.

Lemma same_run_encodeMap p es :
  same_run ρ (Enc.encodeMap encode1 (Enc.Map p es))
             (Enc.encodeMap encode2 (rename ρ (Enc.Map p es))).
Proof.
  unfold Enc.encodeMap. cbn [rename Enc.Pointer Enc.entries_of].
  apply same_run_bind; [apply same_run_writeMarker|intros _].
  apply same_run_cached; [intros idx; apply same_run_writeU29|].
  apply same_run_bind; [apply same_run_writeMarker|intros _].
  apply same_run_bind; [apply same_run_writeString|intros _].
  apply same_run_bind; [apply same_run_encodeMap_range|intros _].
  apply same_run_writeString.
Qed.

Lemma same_run_encodeSlice p l :
  same_run ρ (Enc.encodeSlice encode1 (Enc.Slice p l))
             (Enc.encodeSlice encode2 (rename ρ (Enc.Slice p l))).
Proof.
  unfold Enc.encodeSlice. cbn [rename Enc.Pointer Enc.elems_of Enc.Len].
  rewrite length_map.
  apply same_run_bind; [apply same_run_writeMarker|intros _].
  apply same_run_cached; [intros idx; apply same_run_writeU29|].
  apply same_run_bind; [apply same_run_writeU29|intros _].
  apply same_run_bind; [apply same_run_writeString|intros _].
  apply same_run_encodeSlice_elems.
Qed.

Lemma same_run_encodeStruct a t ro p fs :
  same_run ρ (Enc.encodeStruct encode1 (Enc.Ptr (Some (a, Enc.Struct t ro p fs))))
             (Enc.encodeStruct encode2 (rename ρ (Enc.Ptr (Some (a, Enc.Struct t ro p fs))))).
Proof.
  unfold Enc.encodeStruct. cbn [rename Enc.Pointer Enc.fields_of Enc.Elem].
  apply same_run_bind; [apply same_run_writeMarker|intros _].
  apply same_run_cached; [intros idx; apply same_run_writeU29|].
  apply same_run_bind; [apply same_run_writeMarker|intros _].
  apply same_run_bind; [apply same_run_writeString|intros _].
  apply same_run_bind; [apply same_run_encodeStruct_fields|intros _].
  apply same_run_writeString.
Qed.

Lemma same_run_encode_body v :
  same_run ρ (Enc.encode_body encode1 v) (Enc.encode_body encode2 (rename ρ v)).
Proof.
  destruct v as [ |b|z|z|f|s|p es|p l|a p l|ro x|[[p x]|]|t ro p fs|t].
  - apply same_run_bind; [apply same_run_panics|intros ?; apply same_run_throw].
  - unfold Enc.encode_body, rename, Enc.encodeBool.
    destruct b; apply same_run_writeMarker.
  - unfold Enc.encode_body, rename, Enc.encodeInt.
    destruct (_ <? _); [destruct (_ <? _)|].
    + apply same_run_writeBytes.
    + apply same_run_bind; [apply same_run_writeMarker|intros _; apply same_run_writeString].
    + apply same_run_bind; [apply same_run_writeMarker|intros _; apply same_run_writeU29].
  - unfold Enc.encode_body, rename, Enc.encodeUint.
    destruct (_ <=? _); [destruct (_ <=? _)|].
    + apply same_run_writeBytes.
    + apply same_run_bind; [apply same_run_writeMarker|intros _; apply same_run_writeString].
    + apply same_run_bind; [apply same_run_writeMarker|intros _; apply same_run_writeU29].
  - apply same_run_writeBytes.
  - apply same_run_bind; [apply same_run_writeMarker|intros _; apply same_run_writeString].
  - apply same_run_encodeMap.
  - apply same_run_encodeSlice.
  - cbn [Enc.encode_body rename]. destruct a; [|apply same_run_panics].
    apply (same_run_encodeSlice p l).
  - cbn [Enc.encode_body rename]. destruct ro; [apply same_run_panics|apply Hencode].
  - destruct x as [ |b|z|z|f|s|p' es|p' l|a p' l|ro x|[[p' x]|]|t ro p' fs|t];
      cbn [Enc.encode_body rename]; try exact (Hencode _).
    apply same_run_encodeStruct.
  - apply same_run_writeMarker.
  - apply same_run_bind; [apply same_run_ret|intros ?; apply same_run_throw].
  - apply same_run_bind; [apply same_run_ret|intros ?; apply same_run_throw].
Qed.
End Bodies.

Lemma same_run_encode fuel v :
  same_run ρ (Enc.encode fuel v) (Enc.encode fuel (rename ρ v)).
Proof.
  revert v. induction fuel as [|fuel IH]; intros v; cbn [Enc.encode].
  - apply same_run_out_of_fuel.
  - apply same_run_encode_body. exact IH.
Qed.

End TwoRuns.


Lemma depth_rename ρ v : Enc.depth (rename ρ v) = Enc.depth v.
Proof.
  induction v as [ |b|x|x|f|s|p es IH|p l IH|a p l IH|ro x IH| |p x IH|t ro p fs IH|t]
    using value_induction; cbn [rename Enc.depth]; try reflexivity.
  - f_equal. induction IH as [|[k x] es Hx _ IHes]; [reflexivity|].
    cbn in *. rewrite Hx, IHes. reflexivity.
  - f_equal. induction IH as [|x l Hx _ IHl]; [reflexivity|].
    cbn. rewrite Hx, IHl. reflexivity.
  - f_equal. induction IH as [|x l Hx _ IHl]; [reflexivity|].
    cbn. rewrite Hx, IHl. reflexivity.
  - rewrite IH. reflexivity.
  - rewrite IH. reflexivity.
  - f_equal. induction IH as [|[f x] fs Hx _ IHfs]; [reflexivity|].
    cbn in *. rewrite Hx, IHfs. reflexivity.
Qed.

Lemma same_run_Encode ρ v :
  (forall a b, ρ a = ρ b -> a = b) ->
  same_run ρ (Enc.Encode v) (Enc.Encode (rename ρ v)).
Proof.
  intros Hinj. unfold Enc.Encode. rewrite depth_rename. apply same_run_encode, Hinj.
Qed.




(** X18.  The output does not depend on where the value lies in memory.
    Two runs of [Encode], one on a value and one on the same value with
    every part of it at another address (distinct parts staying
    distinct), from encoders alike in their string caches, in the numbers
    their object caches give to the composites, in [reservStruct] and in
    the room of their writers, return the same result, append the same
    bytes and leave the encoders alike again: the addresses matter only
    through which of them are equal. *)
Theorem Encode_does_not_depend_on_addresses
    (ρ : Z -> Z) (v : Enc.value) (e1 e2 : Enc.Encoder) :
  (forall a b, ρ a = ρ b -> a = b) -> alike ρ e1 e2 ->
  let run1 := Enc.Encode v e1 in
  let run2 := Enc.Encode (rename ρ v) e2 in
  fst run1 = fst run2
  /\ alike ρ (snd run1) (snd run2)
  /\ exists out,
       Enc.written (Enc.writer (snd run1)) = Enc.written (Enc.writer e1) ++ out
       /\ Enc.written (Enc.writer (snd run2)) = Enc.written (Enc.writer e2) ++ out.
Proof.
  intros Hinj Ha. exact (same_run_Encode ρ v Hinj e1 e2 Ha).
Qed.

Lemma Encode_does_not_depend_on_addresses_witness :
  let ρ := fun a => a + 0x1000 in
  fst (Enc.Encode two_aliases fresh) = fst (Enc.Encode (rename ρ two_aliases) fresh)
  /\ exists out,
       Enc.written (Enc.writer (snd (Enc.Encode two_aliases fresh)))
       = Enc.written (Enc.writer fresh) ++ out
       /\ Enc.written (Enc.writer (snd (Enc.Encode (rename ρ two_aliases) fresh)))
          = Enc.written (Enc.writer fresh) ++ out.
Proof.
  intros ρ.
  destruct (Encode_does_not_depend_on_addresses ρ two_aliases fresh fresh) as (H1 & _ & H2).
  - intros a b Hab. unfold ρ in Hab. lia.
  - split; [reflexivity|]. split; [|split; reflexivity].
    split; [reflexivity|]. intros a. reflexivity.
  - split; [exact H1|exact H2].
Defined.


(** * The fuel of [Encode] is enough *)

Lemma finishes_bind {A B} (m : Enc.EM A) (k : A -> Enc.EM B) :
  finishes m -> (forall a, finishes (k a)) -> finishes (bind m k).
Proof.
  intros Hm Hk e. unfold bind. specialize (Hm e).
  destruct (m e) as [[a| | |] e1]; cbn in *; try discriminate; [apply Hk|congruence].
Qed.

Lemma finishes_ret_bind {A B} (x : A) (k : A -> Enc.EM B) :
  finishes (k x) -> finishes (bind (ret x) k).
Proof. intros H e. apply H. Qed.

Lemma finishes_panics_bind {A B} (p : panic) (k : A -> Enc.EM B) :
  finishes (bind (panics p) k).
Proof. intros e. discriminate. Qed.

Lemma finishes_writeBytes b : finishes (Enc.writeBytes b).
Proof.
  intros e. unfold Enc.writeBytes. destruct (Enc.Write _ _). destruct (Nat.eqb _ _); discriminate.
Qed.

Lemma finishes_writeU29 v : finishes (Enc.writeU29 v).
Proof.
  unfold Enc.writeU29. repeat (destruct (_ <? _); [apply finishes_writeBytes|]).
  intros e. discriminate.
Qed.

Ltac finishes_step :=
  lazymatch goal with
  | |- finishes (bind _ _) => apply finishes_bind; [|intros ?]
  | |- finishes (ret _) => intros ?; discriminate
  | |- finishes (throw _) => intros ?; discriminate
  | |- finishes (panics _) => intros ?; discriminate
  | |- finishes (gets _) => intros ?; discriminate
  | |- finishes (modify _) => intros ?; discriminate
  | |- finishes (Enc.writeBytes _) => apply finishes_writeBytes
  | |- finishes (Enc.writeMarker _) => apply finishes_writeBytes
  | |- finishes (Enc.writeU29 _) => apply finishes_writeU29
  | |- finishes (if ?b then _ else _) => destruct b
  | |- finishes (match ?x with _ => _ end) => destruct x
  end.

Lemma finishes_writeString s : finishes (Enc.writeString s).
Proof. unfold Enc.writeString. repeat finishes_step. Qed.

Lemma finishes_getFieldName f : finishes (Enc.getFieldName f).
Proof. unfold Enc.getFieldName. repeat finishes_step. Qed.

Lemma finishes_scalars :
  (forall b, finishes (Enc.encodeBool b))
  /\ (forall v, finishes (Enc.encodeInt v))
  /\ (forall v, finishes (Enc.encodeUint v))
  /\ (forall f, finishes (Enc.encodeFloat f))
  /\ (forall s, finishes (Enc.encodeString s)).
Proof.
  assert (Hs : forall s, finishes (Enc.encodeString s)).
  { intros s. unfold Enc.encodeString. repeat finishes_step. apply finishes_writeString. }
  assert (Hf : forall f, finishes (Enc.encodeFloat f)).
  { intros f. unfold Enc.encodeFloat. repeat finishes_step. }
  repeat split; try assumption.
  - intros b. unfold Enc.encodeBool. repeat finishes_step.
  - intros v. unfold Enc.encodeInt. repeat finishes_step; auto.
  - intros v. unfold Enc.encodeUint. repeat finishes_step; auto.
Qed.

Lemma enough_element x fuel :
  enough x -> (2 * Enc.depth x + 2 <= fuel)%nat -> finishes (Enc.encode fuel (element x)).
Proof.
  intros [H1 H2] Hf. destruct x; try (apply H1; cbn [element]; lia).
  apply (H2 eq_refl). exact Hf.
Qed.

Section Loops.
Variable fuel : nat.

Lemma finishes_encodeSlice_elems l :
    Forall (fun x => enough x /\ (2 * Enc.depth x + 2 <= fuel)%nat) l ->
    finishes (Enc.encodeSlice_elems (Enc.encode fuel) l).
Proof.
    induction 1 as [|x l [Hx Hd] _ IH]; cbn [Enc.encodeSlice_elems]; [intros ?; discriminate|].
    apply finishes_bind; [|intros _; exact IH].
    apply (enough_element x fuel Hx Hd).
Qed.

Lemma finishes_encodeStruct_fields l :
    Forall (fun fx => enough (snd fx) /\ (2 * Enc.depth (snd fx) + 2 <= fuel)%nat) l ->
    finishes (Enc.encodeStruct_fields (Enc.encode fuel) l).
Proof.
    induction 1 as [|[f x] l [Hx Hd] _ IH]; cbn [Enc.encodeStruct_fields];
      [intros ?; discriminate|].
    apply finishes_bind; [apply finishes_getFieldName|intros name].
    destruct (String.eqb name ""); [exact IH|].
    apply finishes_bind; [apply finishes_writeString|intros _].
    apply finishes_bind; [|intros _; exact IH].
    apply (enough_element x fuel Hx Hd).
Qed.

Lemma finishes_encodeMap_range l :
    Forall (fun kv => enough (snd kv) /\ (2 * Enc.depth (snd kv) + 2 <= fuel)%nat) l ->
    finishes (Enc.encodeMap_range (Enc.encode fuel) l).
Proof.
    induction 1 as [|[k x] l [Hx Hd] _ IH]; cbn [Enc.encodeMap_range];
      [intros ?; discriminate|].
    destruct k; [|intros ?; discriminate].
    apply finishes_bind; [apply finishes_writeString|intros _].
    pose proof (enough_element x fuel Hx Hd) as He.
    destruct x as [ | | | | | | | | | | |t ro p fs| ]; cbn [element] in He;
      try (apply finishes_ret_bind;
           apply finishes_bind; [exact He|intros _; exact IH]).
    destruct ro; [apply finishes_panics_bind|].
    apply finishes_ret_bind.
    apply finishes_bind; [exact He|intros _; exact IH].
Qed.
End Loops.

Lemma depth_bound {A} (f : A -> Enc.value) (l : list A) :
  Forall (fun x => (Enc.depth (f x) <= fold_right (fun y d => Nat.max (Enc.depth (f y)) d) O l)%nat) l.
Proof.
  induction l as [|x l IH]; constructor; cbn.
  - lia.
  - eapply Forall_impl; [exact IH|]. cbn. intros y Hy. lia.
Qed.

Lemma Forall_enough {A} (f : A -> Enc.value) (l : list A) fuel :
  Forall (fun x => enough (f x)) l ->
  (2 * fold_right (fun y d => Nat.max (Enc.depth (f y)) d) O l + 2 <= fuel)%nat ->
  Forall (fun x => enough (f x) /\ (2 * Enc.depth (f x) + 2 <= fuel)%nat) l.
Proof.
  intros H Hf. pose proof (depth_bound f l) as Hd.
  rewrite Forall_forall in *. intros x Hx. split; [auto|]. specialize (Hd x Hx). lia.
Qed.

Lemma encode_enough v : enough v.
Proof.
  destruct finishes_scalars as (Hb & Hi & Hu & Hf & Hs).
  induction v as [ |b|x|x|f|s|p es IH|p l IH|a p l IH|ro x IH| |p x IH|t ro p fs IH|t]
    using value_induction; (split; [|try discriminate]).
  all: try (intros [|fuel] Hfuel; [cbn in Hfuel; lia|];
            cbn [Enc.encode Enc.encode_body]; auto; fail).
  - (* Invalid *)
    intros [|fuel] Hfuel; [cbn in Hfuel; lia|]. cbn. intros ?; discriminate.
  - (* Map *)
    intros [|fuel] Hfuel; [cbn in Hfuel; lia|]. cbn [Enc.encode Enc.encode_body].
    unfold Enc.encodeMap, Enc.cache_object. repeat finishes_step; try apply finishes_writeString.
    apply finishes_encodeMap_range. cbn [Enc.entries_of].
    apply (Forall_enough snd); [exact IH|]. cbn [Enc.depth] in Hfuel. lia.
  - (* Slice *)
    intros [|fuel] Hfuel; [cbn in Hfuel; lia|]. cbn [Enc.encode Enc.encode_body].
    unfold Enc.encodeSlice, Enc.cache_object. repeat finishes_step; try apply finishes_writeString.
    apply finishes_encodeSlice_elems. cbn [Enc.elems_of].
    apply (Forall_enough (fun x => x)); [exact IH|]. cbn [Enc.depth] in Hfuel. lia.
  - (* Array *)
    intros [|fuel] Hfuel; [cbn in Hfuel; lia|]. cbn [Enc.encode Enc.encode_body].
    destruct a; [|intros ?; discriminate].
    unfold Enc.encodeSlice, Enc.cache_object. repeat finishes_step; try apply finishes_writeString.
    apply finishes_encodeSlice_elems. cbn [Enc.elems_of].
    apply (Forall_enough (fun x => x)); [exact IH|]. cbn [Enc.depth] in Hfuel. lia.
  - (* Interface *)
    intros [|fuel] Hfuel; [cbn in Hfuel; lia|]. cbn [Enc.encode Enc.encode_body].
    destruct ro; [intros ?; discriminate|]. apply (proj1 IH). cbn [Enc.depth] in Hfuel. lia.
  - (* Ptr nil *)
    intros [|fuel] Hfuel; [cbn in Hfuel; lia|]. cbn. apply finishes_writeBytes.
  - (* Ptr *)
    intros fuel Hfuel. cbn [Enc.depth] in Hfuel.
    destruct (is_record x) eqn:Hrec.
    + apply (proj2 IH Hrec). lia.
    + destruct fuel as [|fuel]; [lia|]. cbn [Enc.encode Enc.encode_body].
      destruct x; try discriminate; apply (proj1 IH); lia.
  - (* Struct, by value *)
    intros [|fuel] Hfuel; [cbn in Hfuel; lia|]. cbn. intros ?; discriminate.
  - (* Struct, behind a pointer *)
    intros _ a [|fuel] Hfuel; [lia|]. cbn [Enc.encode Enc.encode_body].
    unfold Enc.encodeStruct, Enc.cache_object. repeat finishes_step; try apply finishes_writeString.
    apply finishes_encodeStruct_fields. cbn [Enc.fields_of Enc.Elem].
    apply (Forall_enough snd); [exact IH|]. cbn [Enc.depth] in Hfuel. lia.
  - (* Other *)
    intros [|fuel] Hfuel; [cbn in Hfuel; lia|]. cbn. intros ?; discriminate.
Qed.

(** [Encode] returns, fails or panics: the model never cuts it short. *)
Lemma Encode_finishes v e : fst (Enc.Encode v e) <> OutOfFuel.
Proof. apply (proj1 (encode_enough v)). lia. Qed.

(** * Round trips and edge behaviour *)

(** The value that [readU29] returns for the four bytes that [writeU29]
    emits for [v]: bits 7 to 13 of [v] sit where bits 8 to 14 belong. *)
Lemma four_byte_reading_same v :
  0 <= v ->
  (v / 2 ^ 15 * 2 ^ 15 + (v / 2 ^ 7) mod 128 * 256 + v mod 256 = v
   <-> (v / 128) mod 256 = 0 \/ (v / 128) mod 256 = 255).
Proof.
  intros Hv. change (2 ^ 15) with 32768. change (2 ^ 7) with 128.
  Z.div_mod_to_equations. lia.
Qed.

(** One turn of the loop of [readU29], on a byte and on the end of the
    input. *)
Lemma readU29_from_cons i count r b rest s :
  Dec.reader (Dec.dec s) = b :: rest ->
  Dec.readU29_from i (S count) r s
  = (if negb (Nat.eqb i 3) then
       if Z.land (Z_of_byte b) 0x80 =? 0
       then ret (uint32 (Z.lor (Z.shiftl r 7) (Z.land (Z_of_byte b) 0x7f)))
       else Dec.readU29_from (S i) count
              (uint32 (Z.lor (Z.shiftl r 7) (Z.land (Z_of_byte b) 0x7f)))
     else Dec.readU29_from (S i) count (uint32 (Z.lor (Z.shiftl r 8) (Z_of_byte b))))
      (Dec.set_reader rest s).
Proof.
  intros H. cbn [Dec.readU29_from]. unfold bind at 1.
  rewrite (readMarker_cons _ _ _ H). reflexivity.
Qed.

Lemma readU29_from_nil i count r s :
  Dec.reader (Dec.dec s) = [] ->
  Dec.readU29_from i (S count) r s = (Err Dec.EOF, Dec.set_reader [] s).
Proof.
  intros H. cbn [Dec.readU29_from]. unfold bind at 1.
  rewrite (readMarker_nil _ H). reflexivity.
Qed.

Lemma continuation_bit b : Z.land (Z_of_byte b) 0x80 <> 0 -> 128 <= Z_of_byte b.
Proof.
  intros H. destruct (Z.ltb_spec (Z_of_byte b) 128) as [Hlt|]; [|assumption].
  exfalso. apply H. apply land_0x80_small. pose proof (Z_of_byte_range b). lia.
Qed.

(** X1.  A number below [0x200000] goes round: [writeU29] emits one to
    three bytes for it, whatever the state of the encoder, and [readU29]
    reads the number back from them and leaves what follows them in the
    input. *)
Theorem U29_round_trip (v : Z) (e : Enc.Encoder) :
  0 <= v < 0x200000 -> unbounded e ->
  exists bytes,
    Enc.writeU29 v e = (Ok tt, append bytes e)
    /\ (1 <= length bytes <= 3)%nat
    /\ forall s rest,
         Dec.reader (Dec.dec s) = bytes ++ rest ->
         Dec.readU29 s = (Ok v, Dec.set_reader rest s).
Proof.
  intros Hv He. exists (u29 v).
  split; [apply writeU29_unbounded; [exact He|lia]|].
  split; [rewrite u29_length by lia; repeat case_ltb; lia|].
  intros s rest Hr. apply readU29_u29; assumption.
Qed.

Lemma U29_round_trip_witness :
  exists bytes,
    Enc.writeU29 300 fresh = (Ok tt, append bytes fresh)
    /\ Dec.readU29 (decoder_on (bytes ++ [Byte.xff])) = (Ok 300, decoder_on [Byte.xff]).
Proof.
  destruct (U29_round_trip 300 fresh) as (bytes & Hw & _ & Hr); [lia|reflexivity|].
  exists bytes. split; [exact Hw|].
  apply (Hr (decoder_on (bytes ++ [Byte.xff])) [Byte.xff]). reflexivity.
Defined.

(** X2.  A number from [0x200000] up to [0x1fffffff] is written in four
    bytes, and [readU29] reads from them the number whose bits 8 to 14 are
    bits 7 to 13 of the one written: the same number exactly when bits 7
    to 14 of it are all equal. *)
Theorem U29_four_bytes (v : Z) (e : Enc.Encoder) :
  0x200000 <= v < 0x20000000 -> unbounded e ->
  let read := v / 2 ^ 15 * 2 ^ 15 + (v / 2 ^ 7) mod 128 * 256 + v mod 256 in
  exists bytes,
    Enc.writeU29 v e = (Ok tt, append bytes e)
    /\ length bytes = 4%nat
    /\ (forall s rest,
          Dec.reader (Dec.dec s) = bytes ++ rest ->
          Dec.readU29 s = (Ok read, Dec.set_reader rest s))
    /\ (read = v <-> (v / 128) mod 256 = 0 \/ (v / 128) mod 256 = 255).
Proof.
  intros Hv He read. exists (u29 v).
  split; [apply writeU29_unbounded; [exact He|lia]|].
  split; [rewrite u29_length by lia; repeat case_ltb; lia|].
  split; [intros s rest Hr; apply readU29_u29_four; assumption|].
  apply four_byte_reading_same. lia.
Qed.

Lemma U29_four_bytes_witness :
  exists bytes,
    Enc.writeU29 0x345678 fresh = (Ok tt, append bytes fresh)
    /\ Dec.readU29 (decoder_on bytes) = (Ok 0x342c78, decoder_on []).
Proof.
  destruct (U29_four_bytes 0x345678 fresh) as (bytes & Hw & _ & Hr & _); [lia|reflexivity|].
  exists bytes. split; [exact Hw|].
  apply (Hr (decoder_on bytes) []). symmetry. apply app_nil_r.
Defined.

(** X3.  [readU29] on any input: it takes one to four bytes and returns a
    number below [2^29], or the input ends within the number (fewer than
    four bytes are left and all have the continuation bit), the input is
    used up and the error is [io.EOF].  It never panics, and it touches
    neither the caches nor the memory. *)
Theorem readU29_takes_one_to_four_bytes (s : Dec.state) :
  let r := Dec.reader (Dec.dec s) in
  (exists u n,
     (1 <= n <= 4)%nat /\ (n <= length r)%nat /\ 0 <= u < 2 ^ 29
     /\ Dec.readU29 s = (Ok u, Dec.set_reader (skipn n r) s))
  \/ ((length r < 4)%nat /\ Forall (fun b => 128 <= Z_of_byte b) r
      /\ Dec.readU29 s = (Err Dec.EOF, Dec.set_reader [] s)).
Proof.
  intros r.
  assert (Hcases :
    (exists u n, (1 <= n <= 4)%nat /\ (n <= length r)%nat
       /\ Dec.readU29 s = (Ok u, Dec.set_reader (skipn n r) s))
    \/ ((length r < 4)%nat /\ Forall (fun b => 128 <= Z_of_byte b) r
        /\ Dec.readU29 s = (Err Dec.EOF, Dec.set_reader [] s))).
  { unfold Dec.readU29. subst r.
    destruct (Dec.reader (Dec.dec s)) as [|b1 r1] eqn:E1.
    { right. split; [cbn; lia|]. split; [constructor|]. apply readU29_from_nil, E1. }
    rewrite (readU29_from_cons _ _ _ _ _ _ E1). cbn [Nat.eqb negb].
    destruct (Z.eqb_spec (Z.land (Z_of_byte b1) 0x80) 0) as [|N1].
    { left. eexists _, 1%nat. split; [lia|]. split; [cbn; lia|reflexivity]. }
    apply continuation_bit in N1.
    destruct r1 as [|b2 r2].
    { right. split; [cbn; lia|]. split; [repeat constructor; assumption|].
      rewrite readU29_from_nil by reflexivity. rewrite ?set_reader_twice. reflexivity. }
    rewrite (readU29_from_cons _ _ _ b2 r2) by reflexivity. cbn [Nat.eqb negb].
    rewrite set_reader_twice.
    destruct (Z.eqb_spec (Z.land (Z_of_byte b2) 0x80) 0) as [|N2].
    { left. eexists _, 2%nat. split; [lia|]. split; [cbn; lia|reflexivity]. }
    apply continuation_bit in N2.
    destruct r2 as [|b3 r3].
    { right. split; [cbn; lia|]. split; [repeat constructor; assumption|].
      rewrite readU29_from_nil by reflexivity. rewrite ?set_reader_twice. reflexivity. }
    rewrite (readU29_from_cons _ _ _ b3 r3) by reflexivity. cbn [Nat.eqb negb].
    rewrite set_reader_twice.
    destruct (Z.eqb_spec (Z.land (Z_of_byte b3) 0x80) 0) as [|N3].
    { left. eexists _, 3%nat. split; [lia|]. split; [cbn; lia|reflexivity]. }
    apply continuation_bit in N3.
    destruct r3 as [|b4 r4].
    { right. split; [cbn; lia|]. split; [repeat constructor; assumption|].
      rewrite readU29_from_nil by reflexivity. rewrite ?set_reader_twice. reflexivity. }
    rewrite (readU29_from_cons _ _ _ b4 r4) by reflexivity. cbn [Nat.eqb negb].
    rewrite set_reader_twice.
    left. eexists _, 4%nat. split; [lia|]. split; [cbn; lia|reflexivity]. }
  destruct Hcases as [(u & n & Hn & Hl & H)|H]; [left|right; exact H].
  exists u, n. split; [exact Hn|]. split; [exact Hl|].
  split; [apply (readU29_range _ _ _ H)|exact H].
Qed.

Lemma direct_slot h p t : direct h p t -> slot h p t.
Proof. intros (Ht & _ & v & Hv & _). split; [exact Ht|exists v; exact Hv]. Qed.


(** [decode] of a marker other than Null, into a direct destination or
    through a pointer to it: what is left is the dispatch on the marker,
    with the destination itself. *)
Lemma decode_direct (decode : Value -> Dec.DM unit) fuel value p t d h m rest :
  value = At false p \/ value = pointer_to t p ->
  direct h p t ->
  Dec.reader d = m :: rest -> m <> NULL_MARKER ->
  Dec.decode_body decode fuel value {| Dec.dec := d; Dec.mem := h |}
  = (if Byte.eqb m FALSE_MARKER then Dec.setBool (At false p) false
     else if Byte.eqb m TRUE_MARKER then Dec.setBool (At false p) true
     else if Byte.eqb m STRING_MARKER then Dec.readString (At false p)
     else if Byte.eqb m DOUBLE_MARKER then Dec.readFloat (At false p)
     else if Byte.eqb m INTEGER_MARKER then Dec.readInteger (At false p)
     else if Byte.eqb m ARRAY_MARKER then Dec.readSlice decode (At false p)
     else if Byte.eqb m OBJECT_MARKER then Dec.readObject decode fuel (At false p)
     else throw (Dec.UnsupportedMarker m))
      {| Dec.dec := with_strings rest (Dec.stringCache d) d; Dec.mem := h |}.
Proof.
  intros Hv (Ht & Hd & v & Hl & Hnp) Hr Hm.
  unfold Dec.decode_body. unfold bind at 1.
  rewrite (readMarker_cons m rest) by exact Hr.
  destruct (Byte.eqb m NULL_MARKER) eqn:E; [apply Byte.byte_dec_bl in E; contradiction|].
  change (Dec.set_reader rest {| Dec.dec := d; Dec.mem := h |})
    with {| Dec.dec := with_strings rest (Dec.stringCache d) d; Dec.mem := h |}.
  assert (Hk : Dec.is_kind (kind_of t) KPtr = false) by (destruct t; try reflexivity; discriminate).
  destruct Hv as [-> | ->].
  - unfold bind at 1. unfold Dec.reflect at 1, Kind at 1. cbn [Dec.mem Dec.dec TypeOf].
    rewrite Ht.
    assert (Hstep :
      (if Dec.is_kind (kind_of t) KInterface
       then (v0 <- Dec.reflect (ValueOfInterface (At false p)) ;;
             kv <- Dec.reflect (Kind v0) ;;
             if Dec.is_kind kv KPtr then ret v0 else ret (At false p))
       else ret (At false p))
        {| Dec.dec := with_strings rest (Dec.stringCache d) d; Dec.mem := h |}
      = (Ok (At false p),
         {| Dec.dec := with_strings rest (Dec.stringCache d) d; Dec.mem := h |})).
    { destruct (Dec.is_kind (kind_of t) KInterface) eqn:Ei; [|reflexivity].
      unfold bind, Dec.reflect, ValueOfInterface, Kind.
      cbn [Dec.mem Dec.dec TypeOf ValOf ro_of]. rewrite Ht, Hl.
      destruct v as [| | | | |[[tv x]|]| | | | |]; cbn [TypeOf];
        try (destruct t; try discriminate; reflexivity).
      destruct tv; try discriminate; reflexivity. }
    unfold bind at 1. rewrite Hstep.
    unfold bind at 1. unfold gets. cbn [Dec.mem TypeOf]. rewrite Ht, Hd.
    unfold bind at 1. cbn [Dec.unwrap_pointers].
    unfold bind at 1. unfold Dec.reflect at 1, Kind at 1. cbn [Dec.mem Dec.dec TypeOf].
    rewrite Ht, Hk. reflexivity.
  - unfold pointer_to. unfold bind at 1. unfold Dec.reflect at 1, Kind at 1.
    cbn [Dec.mem Dec.dec TypeOf kind_of Dec.is_kind].
    unfold bind at 1. unfold ret at 1.
    unfold bind at 1. unfold gets. cbn [Dec.mem TypeOf ptr_depth]. rewrite Hd.
    unfold bind at 1. cbn [Dec.unwrap_pointers].
    unfold bind at 1. unfold Dec.reflect at 1, Kind at 1.
    cbn [Dec.mem Dec.dec TypeOf kind_of Dec.is_kind].
    unfold bind at 1. unfold Dec.reflect at 1, IsNil at 1. cbn [Dec.mem Dec.dec ValOf].
    rewrite bool_decide_eq_false_2 by discriminate.
    unfold bind at 1. unfold ret at 1.
    unfold bind at 1. unfold Dec.reflect at 1, Elem at 1. cbn [Dec.mem Dec.dec ValOf ro_of].
    unfold bind at 1. unfold Dec.reflect at 1, Kind at 1. cbn [Dec.mem Dec.dec TypeOf].
    rewrite Ht, Hk. reflexivity.
Qed.

Lemma reflect_Type_slot h p t ro d :
  slot h p t ->
  Dec.reflect (Type_ (At ro p)) {| Dec.dec := d; Dec.mem := h |}
  = (Ok t, {| Dec.dec := d; Dec.mem := h |}).
Proof. intros [Ht _]. unfold Dec.reflect, Type_. cbn. rewrite Ht. reflexivity. Qed.

Lemma uint32_small z : 0 <= z < 2 ^ 32 -> uint32 z = z.
Proof. intros Hz. unfold uint32. apply Z.mod_small. exact Hz. Qed.

(** X4.  [encodeInt] of a number from [-0x0fffffff] up takes the Integer
    branch: it writes the Integer marker and then hands the low 32 bits of
    the number to [writeU29].  When these are [0x20000000] or more the
    marker stays written and the error is "u29 overflow"; this is so for
    every negative number of the branch and for every number from
    [0x20000000] to [0xffffffff].  A number of more than 32 bits is
    written as its low 32 bits. *)
Theorem encodeInt_integer_branch (v : Z) (e : Enc.Encoder) :
  - 0x0fffffff <= v -> unbounded e ->
  let u := v mod 2 ^ 32 in
  Enc.encodeInt v e
  = (if u <? 0x20000000 then (Ok tt, append (INTEGER_MARKER :: u29 u) e)
     else (Err Enc.U29Overflow, append [INTEGER_MARKER] e))
  /\ (v < 0 -> 0x20000000 <= u)
  /\ (0 <= v < 2 ^ 32 -> u = v).
Proof.
  intros Hv He u. split; [|split].
  - unfold Enc.encodeInt. destruct (Z.ltb_spec v (- 0x0fffffff)) as [|_]; [lia|].
    unfold bind, Enc.writeMarker. rewrite writeBytes_unbounded by exact He.
    fold u. change (uint32 v) with u.
    destruct (Z.ltb_spec u 0x20000000) as [Hu|Hu].
    + rewrite writeU29_unbounded by (reflexivity || exact Hu).
      unfold append, Enc.set_writer. cbn. rewrite <- app_assoc. reflexivity.
    + rewrite writeU29_overflow by exact Hu. reflexivity.
  - intros Hneg. subst u. change (2 ^ 32) with 4294967296.
    Z.div_mod_to_equations. lia.
  - intros Hr. subst u. apply Z.mod_small. exact Hr.
Qed.

Lemma encodeInt_integer_branch_witness :
  Enc.encodeInt (- 5) fresh = (Err Enc.U29Overflow, append [INTEGER_MARKER] fresh)
  /\ Enc.encodeInt (2 ^ 32 + 5) fresh = (Ok tt, append [INTEGER_MARKER; Byte.x05] fresh).
Proof.
  split.
  - exact (proj1 (encodeInt_integer_branch (- 5) fresh ltac:(lia) eq_refl)).
  - exact (proj1 (encodeInt_integer_branch (2 ^ 32 + 5) fresh ltac:(lia) eq_refl)).
Defined.

(** What [readInteger] does with the number it has read, by the type of
    the destination. *)
Lemma readInteger_at s u d1 h1 p t :
  Dec.readU29 s = (Ok u, {| Dec.dec := d1; Dec.mem := h1 |}) ->
  slot h1 p t ->
  exists res h',
    Dec.readInteger (At false p) s = (res, {| Dec.dec := d1; Dec.mem := h' |})
    /\ match t with
       | TInt w => res = Ok tt /\ load h' p = Some (VInt (sint (bits w) (signed29 u)))
       | TUint w => res = Ok tt /\ load h' p = Some (VUint (u mod 2 ^ bits w))
       | TInterface =>
           res = Ok tt /\ load h' p = Some (VInterface (Some (TUint W32, VUint u)))
       | _ => res = Err (Dec.InvalidType t "integer") /\ h' = h1
       end.
Proof.
  intros Hu Hslot. pose proof (readU29_range _ _ _ Hu) as Hr.
  assert (Hstart :
    Dec.readInteger (At false p) s =
    (k' <- Dec.reflect (Kind (At false p)) ;;
     match k' with
     | KInt _ => Dec.reflect (SetInt (At false p) (signed29 u))
     | KUint _ => Dec.reflect (SetUint (At false p) (uint64 u))
     | KInterface => Dec.reflect (Set_ (At false p) (ValueOf (TUint W32) (VUint u)))
     | _ => t' <- Dec.reflect (Type_ (At false p)) ;; throw (Dec.InvalidType t' "integer")
     end)%go {| Dec.dec := d1; Dec.mem := h1 |}).
  { unfold Dec.readInteger. unfold bind at 1. rewrite Hu.
    rewrite readInteger_vv by exact Hr. reflexivity. }
  rewrite Hstart. unfold bind at 1. rewrite (reflect_Kind_slot _ _ _ _ _ Hslot).
  destruct t as [| w | w | | | | | te | te | te | n fs |]; cbn [kind_of];
    try (unfold bind; rewrite (reflect_Type_slot _ _ _ _ _ Hslot);
         eexists _, h1; split; [reflexivity|split; reflexivity]).
  - unfold SetInt.
    destruct (reflect_set_scalar h1 p (TInt w) d1 "reflect.Value.SetInt"
                (fun t => match t with TInt w => Some (VInt (sint (bits w) (signed29 u))) | _ => None end)
                _ Hslot eq_refl) as (h' & -> & Hl & _).
    eexists _, h'. split; [reflexivity|]. split; [reflexivity|exact Hl].
  - unfold SetUint.
    destruct (reflect_set_scalar h1 p (TUint w) d1 "reflect.Value.SetUint"
                (fun t => match t with TUint w => Some (VUint (uint64 u mod 2 ^ bits w)) | _ => None end)
                _ Hslot eq_refl) as (h' & -> & Hl & _).
    change (2 ^ 29) with 0x20000000 in Hr.
    rewrite uint64_small in Hl by (change (2 ^ 64) with 18446744073709551616; lia).
    eexists _, h'. split; [reflexivity|]. split; [reflexivity|exact Hl].
  - unfold ValueOf.
    destruct (reflect_Set_Imm h1 p TInterface (TUint W32) (VUint u) d1 Hslot _ eq_refl)
      as (h' & -> & Hl & _).
    eexists _, h'. split; [reflexivity|]. split; [reflexivity|exact Hl].
Qed.

Lemma Byte_eqb_refl b : Byte.eqb b b = true.
Proof. apply Byte.byte_dec_lb. reflexivity. Qed.

(** X5.  A whole number from 0 to [0x1fffff], signed or unsigned, is
    encoded by [Encode] as the Integer marker and its U29, and [Decode]
    through a pointer to a destination gives it back: a signed integer
    variable receives it cut to its width (the number itself if it fits),
    an unsigned one likewise, an [AMFAny] receives it as a [uint32]; any
    other destination is left as it is and the error is "invalid type ...
    for integer". *)
Theorem small_integer_round_trip (v : Z) (e : Enc.Encoder) (h : Heap) (p : place) (t : gotype) :
  0 <= v < 0x200000 -> unbounded e -> direct h p t ->
  exists bytes,
    Enc.Encode (Enc.Int v) e = (Ok tt, append bytes e)
    /\ Enc.Encode (Enc.Uint v) e = (Ok tt, append bytes e)
    /\ forall d rest,
         Dec.reader d = bytes ++ rest ->
         exists res h',
           Dec.Decode (pointer_to t p) {| Dec.dec := d; Dec.mem := h |}
           = (res, {| Dec.dec := with_strings rest (Dec.stringCache d) d; Dec.mem := h' |})
           /\ match t with
              | TInt w =>
                  res = Ok tt /\ load h' p = Some (VInt (sint (bits w) v))
                  /\ (v < 2 ^ (bits w - 1) -> sint (bits w) v = v)
              | TUint w =>
                  res = Ok tt /\ load h' p = Some (VUint (v mod 2 ^ bits w))
                  /\ (v < 2 ^ bits w -> v mod 2 ^ bits w = v)
              | TInterface =>
                  res = Ok tt /\ load h' p = Some (VInterface (Some (TUint W32, VUint v)))
              | _ => res = Err (Dec.InvalidType t "integer") /\ h' = h
              end.
Proof.
  intros Hv He Hdir. exists (INTEGER_MARKER :: u29 v).
  assert (Henc : (Enc.writeMarker INTEGER_MARKER ;;; Enc.writeU29 (uint32 v)) e
                 = (Ok tt, append (INTEGER_MARKER :: u29 v) e)).
  { unfold bind, Enc.writeMarker. rewrite writeBytes_unbounded by exact He.
    rewrite uint32_small by (change (2 ^ 32) with 4294967296; lia).
    rewrite writeU29_unbounded by (reflexivity || lia).
    unfold append, Enc.set_writer. cbn. rewrite <- app_assoc. reflexivity. }
  split; [|split].
  - change (Enc.Encode (Enc.Int v) e) with (Enc.encodeInt v e). unfold Enc.encodeInt.
    destruct (Z.ltb_spec v (- 0x0fffffff)) as [|_]; [lia|]. exact Henc.
  - change (Enc.Encode (Enc.Uint v) e) with (Enc.encodeUint v e). unfold Enc.encodeUint.
    destruct (Z.leb_spec 0x20000000 v) as [|_]; [lia|]. exact Henc.
  - intros d rest Hr. unfold Dec.Decode, Dec.DecodeValue. cbn [Dec.decode].
    rewrite (decode_direct _ _ _ p t d h INTEGER_MARKER (u29 v ++ rest));
      [|right; reflexivity|exact Hdir|exact Hr|discriminate].
    cbn [Byte.eqb]. change (Byte.eqb INTEGER_MARKER FALSE_MARKER) with false.
    change (Byte.eqb INTEGER_MARKER TRUE_MARKER) with false.
    change (Byte.eqb INTEGER_MARKER STRING_MARKER) with false.
    change (Byte.eqb INTEGER_MARKER DOUBLE_MARKER) with false.
    change (Byte.eqb INTEGER_MARKER INTEGER_MARKER) with true. cbv beta iota.
    destruct (readInteger_at
                {| Dec.dec := with_strings (u29 v ++ rest) (Dec.stringCache d) d; Dec.mem := h |}
                v (with_strings rest (Dec.stringCache d) d) h p t)
      as (res & h' & Hread & Hres).
    { apply readU29_u29; [lia|reflexivity]. }
    { apply direct_slot, Hdir. }
    exists res, h'. split; [exact Hread|].
    assert (Hs : signed29 v = v) by (unfold signed29; case_ltb; lia).
    rewrite Hs in Hres.
    destruct t as [| w | w | | | | | te | te | te | n fs |]; try exact Hres.
    + destruct Hres as [-> Hl]. split; [reflexivity|]. split; [exact Hl|].
      intros Hw. unfold sint. rewrite Z.mod_small.
      * destruct (Z.ltb_spec v (2 ^ (bits w - 1))); [reflexivity|lia].
      * split; [lia|]. apply Z.lt_trans with (2 ^ (bits w - 1)); [exact Hw|].
        apply Z.pow_lt_mono_r; destruct w; cbn; lia.
    + destruct Hres as [-> Hl]. split; [reflexivity|]. split; [exact Hl|].
      intros Hw. apply Z.mod_small. lia.
Qed.

Lemma small_integer_round_trip_witness :
  exists bytes,
    Enc.Encode (Enc.Int 1000) fresh = (Ok tt, append bytes fresh)
    /\ exists res h',
         Dec.Decode (pointer_to (TInt W16) the_variable) (one_variable (TInt W16) bytes)
         = (res, {| Dec.dec := Dec.NewDecoder []; Dec.mem := h' |})
         /\ res = Ok tt /\ load h' the_variable = Some (VInt (sint 16 1000)).
Proof.
  destruct (small_integer_round_trip 1000 fresh [Cells (TInt W16) [zero (TInt W16)]]
              the_variable (TInt W16))
    as (bytes & He & _ & Hd).
  - lia.
  - reflexivity.
  - split; [reflexivity|]. split; [reflexivity|]. eexists. split; reflexivity.
  - exists bytes. split; [exact He|].
    destruct (Hd (Dec.NewDecoder bytes) []) as (res & h' & H1 & H2 & H3 & _).
    { symmetry. apply app_nil_r. }
    exists res, h'. split; [exact H1|]. split; [exact H2|exact H3].
Defined.

(** The bytes that the loop of [encodeFloat] lays down, read by the loop
    of [readFloat]. *)






Lemma in_step_empty : in_step ∅ [].
Proof.
  split; [reflexivity|]. intros s i. rewrite lookup_empty. split; [discriminate|].
  intros [_ H]. discriminate.
Qed.

Lemma in_step_None ec dc s : in_step ec dc -> ec !! s = None -> s ∉ dc.
Proof.
  intros [_ H] Hn Hin. apply list_elem_of_lookup in Hin as [i Hi].
  assert (ec !! s = Some (Z.of_nat i)) as Hs.
  { apply H. split; [lia|]. rewrite Nat2Z.id. exact Hi. }
  congruence.
Qed.

Lemma in_step_insert ec dc s :
  in_step ec dc -> ec !! s = None ->
  in_step (<[s := Z.of_nat (size ec)]> ec) (dc ++ [s]).
Proof.
  intros Hstep Hn. pose proof (in_step_None _ _ _ Hstep Hn) as Hnotin.
  destruct Hstep as [Hsize H]. split.
  - rewrite map_size_insert_None by exact Hn. rewrite length_app. cbn. lia.
  - intros s' i. destruct (decide (s = s')) as [<-|Hne].
    + rewrite lookup_insert_eq. split.
      * intros [= <-]. split; [lia|]. rewrite Nat2Z.id, Hsize.
        apply list_lookup_middle. reflexivity.
      * intros [Hi Hl]. f_equal.
        destruct (decide (Z.to_nat i < length dc)%nat) as [Hlt|Hge].
        -- rewrite lookup_app_l in Hl by exact Hlt.
           exfalso. apply Hnotin. apply list_elem_of_lookup. eauto.
        -- apply lookup_lt_Some in Hl. rewrite length_app in Hl. cbn in Hl. lia.
    + rewrite lookup_insert_ne by exact Hne. rewrite H. split.
      * intros [Hi Hl]. split; [exact Hi|]. apply lookup_app_l_Some. exact Hl.
      * intros [Hi Hl]. split; [exact Hi|].
        apply lookup_app_Some in Hl as [Hl|[_ Hl]]; [exact Hl|].
        apply list_lookup_singleton_Some in Hl as [_ Hl]. congruence.
Qed.

Lemma readString_tail value :
  Dec.readString value
  = (index <- Dec.readU29 ;;
     s <- (if Z.land index 0x01 =? 0 then
             cache <- gets (fun s => Dec.stringCache (Dec.dec s)) ;;
             match cache !! Z.to_nat (Z.shiftr index 1) with
             | Some s => ret s
             | None => panics (IndexOutOfRange (Z.shiftr index 1) (length cache))
             end
           else
             bytes <- Dec.readBytes (Z.to_nat (Z.shiftr index 1)) ;;
             let s := string_of_bytes bytes in
             (if String.eqb s "" then ret tt else Dec.append_stringCache s) ;;;
             ret s) ;;
     store_string value s).
Proof. reflexivity. Qed.

Lemma even_odd_u29 n :
  0 <= n ->
  (Z.land (2 * n) 1 =? 0) = true /\ Z.shiftr (2 * n) 1 = n
  /\ (Z.land (2 * n + 1) 1 =? 0) = false /\ Z.shiftr (2 * n + 1) 1 = n.
Proof.
  intros Hn. rewrite !land_1, !Z.shiftr_div_pow2 by lia. change (2 ^ 1) with 2.
  replace ((2 * n) mod 2) with 0 by (Z.div_mod_to_equations; lia).
  replace ((2 * n + 1) mod 2) with 1 by (Z.div_mod_to_equations; lia).
  repeat split; try reflexivity; Z.div_mod_to_equations; lia.
Qed.

(** What [readString] reads from the literal form and from the reference
    form. *)
Lemma readString_reads_literal s rest d h value :
  len s < 0x100000 ->
  Dec.reader d = u29 (2 * len s + 1) ++ bytes_of_string s ++ rest ->
  Dec.readString value {| Dec.dec := d; Dec.mem := h |}
  = store_string value s
      {| Dec.dec := with_strings rest
                      (if String.eqb s "" then Dec.stringCache d else Dec.stringCache d ++ [s]) d;
         Dec.mem := h |}.
Proof.
  intros Hl Hr. assert (Hlen : 0 <= len s) by (unfold len; lia).
  rewrite readString_tail. unfold bind at 1.
  rewrite (readU29_u29 (2 * len s + 1) (bytes_of_string s ++ rest)) by (cbn; (lia || assumption)).
  destruct (even_odd_u29 (len s) Hlen) as (_ & _ & -> & ->).
  unfold len. rewrite Nat2Z.id, <- length_bytes_of_string.
  unfold bind at 1. unfold bind at 1.
  rewrite (readBytes_app (bytes_of_string s) rest) by reflexivity.
  rewrite string_of_bytes_of_string. cbv zeta.
  destruct (String.eqb s ""); reflexivity.
Qed.

Lemma readString_reads_reference n s rest d h value :
  0 <= n < 0x100000 -> Dec.stringCache d !! Z.to_nat n = Some s ->
  Dec.reader d = u29 (2 * n) ++ rest ->
  Dec.readString value {| Dec.dec := d; Dec.mem := h |}
  = store_string value s
      {| Dec.dec := with_strings rest (Dec.stringCache d) d; Dec.mem := h |}.
Proof.
  intros Hn Hc Hr. rewrite readString_tail. unfold bind at 1.
  rewrite (readU29_u29 (2 * n) rest) by (cbn; (lia || assumption)).
  destruct (even_odd_u29 n ltac:(lia)) as (-> & -> & _ & _).
  unfold bind at 1. unfold bind at 1. unfold gets.
  cbn [Dec.set_reader Dec.dec Dec.mem Dec.reader Dec.stringCache Dec.objectCache].
  rewrite Hc. reflexivity.
Qed.

(** One string through [writeString] and [readString], with caches in
    step before and after. *)
Lemma string_in_step s e dc :
  in_step (Enc.stringCache e) dc -> unbounded e ->
  len s < 0x100000 -> Z.of_nat (length dc) < 0x100000 ->
  exists bytes ec' dc',
    Enc.writeString s e
    = (Ok tt, Enc.set_stringCache ec' (append bytes e))
    /\ in_step ec' dc'
    /\ (length dc' <= S (length dc))%nat
    /\ forall value d h rest,
         Dec.stringCache d = dc -> Dec.reader d = bytes ++ rest ->
         Dec.readString value {| Dec.dec := d; Dec.mem := h |}
         = store_string value s {| Dec.dec := with_strings rest dc' d; Dec.mem := h |}.
Proof.
  intros Hstep He Hl Hn. assert (Hlen : 0 <= len s) by (unfold len; lia).
  destruct (Enc.stringCache e !! s) as [idx|] eqn:Hc.
  - pose proof (proj1 (proj2 Hstep s idx) Hc) as [Hi Hd].
    assert (Hidx : idx < 0x100000).
    { apply lookup_lt_Some in Hd. lia. }
    exists (u29 (2 * idx)), (Enc.stringCache e), dc.
    split; [|split; [exact Hstep|split; [lia|]]].
    + rewrite (writeString_reference s idx) by
        (try assumption; change (2 ^ 28) with 0x10000000; lia).
      destruct e; reflexivity.
    + intros value d h rest <- Hr.
      apply (readString_reads_reference idx); [lia|exact Hd|exact Hr].
  - exists (u29 (2 * len s + 1) ++ bytes_of_string s),
      (if String.eqb s "" then Enc.stringCache e
       else <[s := Z.of_nat (size (Enc.stringCache e))]> (Enc.stringCache e)),
      (if String.eqb s "" then dc else dc ++ [s]).
    split; [|split; [|split]].
    + rewrite writeString_literal by
        (try assumption; change (2 ^ 28) with 0x10000000; lia).
      unfold after_literal, append. destruct (String.eqb s ""); destruct e; reflexivity.
    + destruct (String.eqb s ""); [exact Hstep|]. apply in_step_insert; assumption.
    + destruct (String.eqb s ""); [lia|]. rewrite length_app. cbn. lia.
    + intros value d h rest <- Hr. rewrite <- app_assoc in Hr.
      apply readString_reads_literal; assumption.
Qed.

Lemma store_string_at s d h p t :
  slot h p t ->
  exists res h',
    store_string (At false p) s {| Dec.dec := d; Dec.mem := h |}
    = (res, {| Dec.dec := d; Dec.mem := h' |})
    /\ match t with
       | TString => res = Ok tt /\ load h' p = Some (VString s)
       | TInterface => res = Ok tt /\ load h' p = Some (VInterface (Some (TString, VString s)))
       | TInt W32 | TInt W64 | TInt WInt =>
           match ParseInt s with
           | Some num =>
               res = Ok tt
               /\ exists w, t = TInt w /\ load h' p = Some (VInt (sint (bits w) num))
           | None => res = Err (Dec.NumError s) /\ h' = h
           end
       | TUint W32 | TUint W64 | TUint WInt =>
           match ParseUint s with
           | Some num =>
               res = Ok tt
               /\ exists w, t = TUint w /\ load h' p = Some (VUint (num mod 2 ^ bits w))
           | None => res = Err (Dec.NumError s) /\ h' = h
           end
       | _ => res = Err (Dec.InvalidType t "string") /\ h' = h
       end.
Proof.
  intros Hslot. unfold store_string. unfold bind at 1.
  rewrite (reflect_Kind_slot _ _ _ _ _ Hslot).
  destruct t as [| w | w | | | | | te | te | te | n fs |]; cbn [kind_of];
    try (unfold bind; rewrite (reflect_Type_slot _ _ _ _ _ Hslot);
         eexists _, h; split; [reflexivity|split; reflexivity]).
  - destruct w;
      try (unfold bind; rewrite (reflect_Type_slot _ _ _ _ _ Hslot);
           eexists _, h; split; [reflexivity|split; reflexivity]);
      (destruct (ParseInt s) as [num|];
       [|eexists _, h; split; [reflexivity|split; reflexivity]]);
      unfold SetInt;
      match goal with |- context [TInt ?w] =>
        destruct (reflect_set_scalar h p (TInt w) d "reflect.Value.SetInt"
          (fun t => match t with
                    | TInt w0 => Some (VInt (sint (bits w0) num))
                    | _ => None end) _ Hslot eq_refl) as (h' & -> & Hl & _);
        eexists _, h'; split; [reflexivity|]; split; [reflexivity|];
        exists w; split; [reflexivity|exact Hl]
      end.
  - destruct w;
      try (unfold bind; rewrite (reflect_Type_slot _ _ _ _ _ Hslot);
           eexists _, h; split; [reflexivity|split; reflexivity]);
      (destruct (ParseUint s) as [num|];
       [|eexists _, h; split; [reflexivity|split; reflexivity]]);
      unfold SetUint;
      match goal with |- context [TUint ?w] =>
        destruct (reflect_set_scalar h p (TUint w) d "reflect.Value.SetUint"
          (fun t => match t with
                    | TUint w0 => Some (VUint (num mod 2 ^ bits w0))
                    | _ => None end) _ Hslot eq_refl) as (h' & -> & Hl & _);
        eexists _, h'; split; [reflexivity|]; split; [reflexivity|];
        exists w; split; [reflexivity|exact Hl]
      end.
  - unfold SetString.
    destruct (reflect_set_scalar h p TString d "reflect.Value.SetString"
      (fun t => match t with TString => Some (VString s) | _ => None end)
      _ Hslot eq_refl) as (h' & -> & Hl & _).
    eexists _, h'. split; [reflexivity|]. split; [reflexivity|exact Hl].
  - unfold ValueOf.
    destruct (reflect_Set_Imm h p TInterface TString (VString s) d Hslot _ eq_refl)
      as (h' & -> & Hl & _).
    eexists _, h'. split; [reflexivity|]. split; [reflexivity|exact Hl].
Qed.

(** [encodeString] and [Decode], with caches in step. *)
Lemma encodeString_in_step s e dc :
  in_step (Enc.stringCache e) dc -> unbounded e ->
  len s < 0x100000 -> Z.of_nat (length dc) < 0x100000 ->
  exists bytes ec' dc',
    Enc.encodeString s e
    = (Ok tt, Enc.set_stringCache ec' (append (STRING_MARKER :: bytes) e))
    /\ in_step ec' dc'
    /\ (length dc' <= S (length dc))%nat
    /\ forall t p d h rest,
         direct h p t ->
         Dec.stringCache d = dc -> Dec.reader d = STRING_MARKER :: bytes ++ rest ->
         Dec.Decode (pointer_to t p) {| Dec.dec := d; Dec.mem := h |}
         = store_string (At false p) s {| Dec.dec := with_strings rest dc' d; Dec.mem := h |}.
Proof.
  intros Hstep He Hl Hn.
  destruct (string_in_step s (append [STRING_MARKER] e) dc Hstep eq_refl Hl Hn)
    as (bytes & ec' & dc' & Hw & Hstep' & Hlen & Hread).
  exists bytes, ec', dc'. split; [|split; [exact Hstep'|split; [exact Hlen|]]].
  - unfold Enc.encodeString, bind, Enc.writeMarker.
    rewrite writeBytes_unbounded by exact He. rewrite Hw.
    unfold append, Enc.set_stringCache, Enc.set_writer. cbn. rewrite <- app_assoc. reflexivity.
  - intros t p d h rest Hdir Hd Hr.
    unfold Dec.Decode, Dec.DecodeValue. cbn [Dec.decode].
    rewrite (decode_direct _ _ _ p t d h STRING_MARKER (bytes ++ rest));
      [|right; reflexivity|exact Hdir|exact Hr|discriminate].
    change (Byte.eqb STRING_MARKER FALSE_MARKER) with false.
    change (Byte.eqb STRING_MARKER TRUE_MARKER) with false.
    change (Byte.eqb STRING_MARKER STRING_MARKER) with true. cbv beta iota.
    rewrite (Hread (At false p) (with_strings (bytes ++ rest) (Dec.stringCache d) d) h rest);
      [reflexivity|exact Hd|reflexivity].
Qed.

(** X7.  Strings go round with the caches in step.  When the decoder
    holds at each index the string that the encoder numbered so, and the
    string and the caches are below [0x100000], [Encode] of a string
    succeeds and [Decode] of what it wrote, through a pointer to a string
    variable or to an [AMFAny], stores the string, whether it was written
    as a literal or as a reference; the input that follows is left, and
    the caches are in step again, whatever the destination was. *)
Theorem strings_go_round_in_step (s : string) (e : Enc.Encoder) (dc : list string) :
  in_step (Enc.stringCache e) dc -> unbounded e ->
  len s < 0x100000 -> Z.of_nat (length dc) < 0x100000 ->
  exists bytes e',
    Enc.Encode (Enc.String_ s) e = (Ok tt, e')
    /\ Enc.written (Enc.writer e') = Enc.written (Enc.writer e) ++ bytes
    /\ unbounded e'
    /\ forall t p h d rest,
         direct h p t -> Dec.stringCache d = dc -> Dec.reader d = bytes ++ rest ->
         exists res d' h',
           Dec.Decode (pointer_to t p) {| Dec.dec := d; Dec.mem := h |}
           = (res, {| Dec.dec := d'; Dec.mem := h' |})
           /\ Dec.reader d' = rest
           /\ in_step (Enc.stringCache e') (Dec.stringCache d')
           /\ (t = TString -> res = Ok tt /\ load h' p = Some (VString s))
           /\ (t = TInterface ->
               res = Ok tt /\ load h' p = Some (VInterface (Some (TString, VString s)))).
Proof.
  intros Hstep He Hl Hn.
  destruct (encodeString_in_step s e dc Hstep He Hl Hn)
    as (bytes & ec' & dc' & Hw & Hstep' & _ & Hread).
  exists (STRING_MARKER :: bytes), (Enc.set_stringCache ec' (append (STRING_MARKER :: bytes) e)).
  split; [exact Hw|]. split; [reflexivity|]. split; [reflexivity|].
  intros t p h d rest Hdir Hd Hr.
  rewrite (Hread t p d h rest Hdir Hd Hr).
  destruct (store_string_at s (with_strings rest dc' d) h p t (direct_slot _ _ _ Hdir))
    as (res & h' & Hst & Hres).
  exists res, (with_strings rest dc' d), h'.
  split; [exact Hst|]. split; [reflexivity|]. split; [exact Hstep'|].
  split; intros ->; exact Hres.
Qed.

Lemma strings_go_round_in_step_witness :
  exists bytes e',
    Enc.Encode (Enc.String_ "abc") fresh = (Ok tt, e')
    /\ Enc.written (Enc.writer e') = bytes
    /\ exists res d' h',
         Dec.Decode (pointer_to TString the_variable) (one_variable TString bytes)
         = (res, {| Dec.dec := d'; Dec.mem := h' |})
         /\ res = Ok tt /\ load h' the_variable = Some (VString "abc").
Proof.
  destruct (strings_go_round_in_step "abc" fresh [])
    as (bytes & e' & He & Hw & _ & Hd).
  - exact in_step_empty.
  - reflexivity.
  - reflexivity.
  - reflexivity.
  - exists bytes, e'. split; [exact He|]. split; [exact Hw|].
    destruct (Hd TString the_variable [Cells TString [zero TString]] (Dec.NewDecoder bytes) [])
      as (res & d' & h' & H1 & _ & _ & H2 & _).
    + split; [reflexivity|]. split; [reflexivity|]. eexists. split; reflexivity.
    + reflexivity.
    + symmetry. apply app_nil_r.
    + exists res, d', h'. split; [exact H1|]. exact (H2 eq_refl).
Defined.

(** [strconv]: decimal digits, written and parsed. *)
Lemma digit_value k :
  0 <= k < 10 -> Z.of_nat (nat_of_ascii (ascii_of_nat (48 + Z.to_nat k))) - 48 = k.
Proof.
  intros Hk. rewrite nat_ascii_embedding by lia. lia.
Qed.

Lemma parse_digits_digits fuel n acc :
  0 <= n < 10 ^ Z.of_nat fuel ->
  parse_digits (digits fuel n acc) 0 = parse_digits acc n.
Proof.
  revert n acc. induction fuel as [|fuel IH]; intros n acc Hn.
  - cbn in Hn. assert (n = 0) as -> by lia. reflexivity.
  - cbn [digits].
    assert (Hd : 0 <= n mod 10 < 10) by (apply Z.mod_pos_bound; lia).
    assert (Hstep : forall a, parse_digits (String (ascii_of_nat (48 + Z.to_nat (n mod 10))) acc) a
                              = parse_digits acc (10 * a + n mod 10)).
    { intros a. cbn [parse_digits]. rewrite digit_value by exact Hd.
      replace ((0 <=? n mod 10) && (n mod 10 <=? 9)) with true; [reflexivity|].
      symmetry. apply andb_true_iff. split; apply Z.leb_le; lia. }
    destruct (Z.ltb_spec n 10) as [Hlt|Hge].
    + rewrite Hstep. f_equal. rewrite Z.mod_small by lia. lia.
    + rewrite IH.
      * rewrite Hstep. f_equal. Z.div_mod_to_equations; lia.
      * rewrite Nat2Z.inj_succ, Z.pow_succ_r in Hn by lia. Z.div_mod_to_equations; nia.
Qed.

Lemma length_digits fuel n acc :
  (String.length (digits fuel n acc) <= fuel + String.length acc)%nat.
Proof.
  revert n acc. induction fuel as [|fuel IH]; intros n acc; cbn [digits]; [lia|].
  destruct (n <? 10); [cbn; lia|]. etransitivity; [apply IH|]. cbn. lia.
Qed.

Lemma digits_nonempty fuel n acc : acc <> ""%string -> digits fuel n acc <> ""%string.
Proof.
  revert n acc. induction fuel as [|fuel IH]; intros n acc Ha; cbn [digits]; [exact Ha|].
  destruct (n <? 10); [discriminate|]. apply IH. discriminate.
Qed.

Lemma FormatUint_nonempty v : digits 20 v "" <> ""%string.
Proof.
  change (digits 20 v "") with
    (let acc' := String (ascii_of_nat (48 + Z.to_nat (v mod 10))) "" in
     if v <? 10 then acc' else digits 19 (v / 10) acc').
  cbv zeta. destruct (v <? 10); [discriminate|]. apply digits_nonempty. discriminate.
Qed.

Lemma ParseUint_digits v : 0 <= v < 2 ^ 64 -> ParseUint (digits 20 v "") = Some v.
Proof.
  intros Hv. unfold ParseUint.
  pose proof (parse_digits_digits 20 v "") as H. cbn [parse_digits] in H.
  rewrite H by (change (2 ^ 64) with 18446744073709551616 in Hv;
                change (10 ^ Z.of_nat 20) with 100000000000000000000; lia).
  pose proof (FormatUint_nonempty v) as Hne.
  destruct (digits 20 v ""); [congruence|].
  destruct (Z.ltb_spec v (2 ^ 64)); [reflexivity|lia].
Qed.

Lemma ParseUint_FormatUint v : 0 <= v < 2 ^ 64 -> ParseUint (FormatUint v) = Some v.
Proof. apply ParseUint_digits. Qed.

Lemma ParseInt_FormatInt v : - 2 ^ 63 <= v < 2 ^ 63 -> ParseInt (FormatInt v) = Some v.
Proof.
  intros Hv. change (2 ^ 63) with 9223372036854775808 in Hv.
  unfold FormatInt. destruct (Z.ltb_spec v 0) as [Hneg|Hpos].
  - unfold ParseInt. change (Ascii.eqb "-" "-") with true. rewrite orb_true_r.
    rewrite ParseUint_digits by (change (2 ^ 64) with 18446744073709551616; lia).
    destruct (Z.leb_spec (- v) (2 ^ 63)) as [|H];
      [f_equal; lia|change (2 ^ 63) with 9223372036854775808 in H; lia].
  - pose proof (ParseUint_digits v) as HU.
    specialize (HU ltac:(change (2 ^ 64) with 18446744073709551616; lia)).
    unfold ParseInt. destruct (digits 20 v "") as [|c rest] eqn:E; [discriminate HU|].
    assert (Hc : Ascii.eqb c "+" || Ascii.eqb c "-" = false).
    { destruct (Ascii.eqb_spec c "+") as [->|_]; [discriminate HU|].
      destruct (Ascii.eqb_spec c "-") as [->|_]; [discriminate HU|]. reflexivity. }
    rewrite Hc, HU.
    destruct (Ascii.eqb c "-"); [rewrite orb_true_r in Hc; discriminate|].
    destruct (Z.ltb_spec v (2 ^ 63)) as [|H];
      [reflexivity|change (2 ^ 63) with 9223372036854775808 in H; lia].
Qed.

Lemma len_FormatUint v : len (FormatUint v) <= 20.
Proof. unfold len, FormatUint. pose proof (length_digits 20 v ""). cbn in *. lia. Qed.

Lemma len_FormatInt v : len (FormatInt v) <= 21.
Proof.
  unfold len, FormatInt. pose proof (length_digits 20 v "").
  pose proof (length_digits 20 (- v) ""). destruct (v <? 0); cbn in *; lia.
Qed.

(** X8.  An unsigned number above [0xffffffff] travels as the string of
    its decimal digits: [Encode] writes the String marker and that string,
    and [Decode] of it through a pointer to an unsigned variable of 32
    bits or more parses the digits and stores the number cut to the width
    of the variable: the number itself for [uint] and [uint64].  The
    string goes through the string cache like any other, and the caches
    stay in step. *)
Theorem large_unsigned_round_trip (v : Z) (e : Enc.Encoder) (dc : list string) :
  0xffffffff < v < 2 ^ 64 ->
  in_step (Enc.stringCache e) dc -> unbounded e -> Z.of_nat (length dc) < 0x100000 ->
  exists bytes e',
    Enc.Encode (Enc.Uint v) e = (Ok tt, e')
    /\ Enc.written (Enc.writer e') = Enc.written (Enc.writer e) ++ STRING_MARKER :: bytes
    /\ forall w p h d rest,
         32 <= bits w -> direct h p (TUint w) ->
         Dec.stringCache d = dc -> Dec.reader d = STRING_MARKER :: bytes ++ rest ->
         exists d' h',
           Dec.Decode (pointer_to (TUint w) p) {| Dec.dec := d; Dec.mem := h |}
           = (Ok tt, {| Dec.dec := d'; Dec.mem := h' |})
           /\ load h' p = Some (VUint (v mod 2 ^ bits w))
           /\ (bits w = 64 -> v mod 2 ^ bits w = v)
           /\ Dec.reader d' = rest
           /\ in_step (Enc.stringCache e') (Dec.stringCache d').
Proof.
  intros Hv Hstep He Hn.
  pose proof (len_FormatUint v) as Hlen.
  destruct (encodeString_in_step (FormatUint v) e dc Hstep He ltac:(lia) Hn)
    as (bytes & ec' & dc' & Hw & Hstep' & _ & Hread).
  exists bytes, (Enc.set_stringCache ec' (append (STRING_MARKER :: bytes) e)).
  split; [|split; [reflexivity|]].
  - change (Enc.Encode (Enc.Uint v) e) with (Enc.encodeUint v e). unfold Enc.encodeUint.
    destruct (Z.leb_spec 0x20000000 v); [|lia].
    destruct (Z.leb_spec v 0xffffffff); [lia|]. exact Hw.
  - intros w p h d rest Hbits Hdir Hd Hr.
    rewrite (Hread (TUint w) p d h rest Hdir Hd Hr).
    destruct (store_string_at (FormatUint v) (with_strings rest dc' d) h p (TUint w)
                (direct_slot _ _ _ Hdir)) as (res & h' & Hst & Hres).
    rewrite ParseUint_FormatUint in Hres by lia.
    assert (Hok : res = Ok tt /\ load h' p = Some (VUint (v mod 2 ^ bits w))).
    { destruct w; cbn in Hbits; try lia;
        destruct Hres as (-> & w' & [= <-] & Hl); (split; [reflexivity|exact Hl]). }
    destruct Hok as [-> Hl].
    exists (with_strings rest dc' d), h'.
    split; [exact Hst|]. split; [exact Hl|].
    split; [intros ->; apply Z.mod_small; lia|].
    split; [reflexivity|exact Hstep'].
Qed.

Lemma large_unsigned_round_trip_witness :
  exists bytes e',
    Enc.Encode (Enc.Uint 0x100000000) fresh = (Ok tt, e')
    /\ Enc.written (Enc.writer e') = STRING_MARKER :: bytes
    /\ exists d' h',
         Dec.Decode (pointer_to (TUint W64) the_variable)
           (one_variable (TUint W64) (STRING_MARKER :: bytes))
         = (Ok tt, {| Dec.dec := d'; Dec.mem := h' |})
         /\ load h' the_variable = Some (VUint (0x100000000 mod 2 ^ 64)).
Proof.
  destruct (large_unsigned_round_trip 0x100000000 fresh [])
    as (bytes & e' & He & Hw & Hd).
  - lia.
  - exact in_step_empty.
  - reflexivity.
  - reflexivity.
  - exists bytes, e'. split; [exact He|]. split; [exact Hw|].
    destruct (Hd W64 the_variable [Cells (TUint W64) [zero (TUint W64)]]
                (Dec.NewDecoder (STRING_MARKER :: bytes)) [])
      as (d' & h' & H1 & H2 & _).
    + cbn. lia.
    + split; [reflexivity|]. split; [reflexivity|]. eexists. split; reflexivity.
    + reflexivity.
    + cbn. rewrite app_nil_r. reflexivity.
    + exists d', h'. split; [exact H1|exact H2].
Defined.

(** X9.  A signed number of [-0x7fffffff] or less travels as the string
    of its decimal digits with the sign in front, and [Decode] of it
    through a pointer to a signed variable of 32 bits or more parses it
    and stores the number cut to the width of the variable: the number
    itself for [int] and [int64]. *)
Theorem large_negative_round_trip (v : Z) (e : Enc.Encoder) (dc : list string) :
  - 2 ^ 63 <= v <= - 0x7fffffff ->
  in_step (Enc.stringCache e) dc -> unbounded e -> Z.of_nat (length dc) < 0x100000 ->
  exists bytes e',
    Enc.Encode (Enc.Int v) e = (Ok tt, e')
    /\ Enc.written (Enc.writer e') = Enc.written (Enc.writer e) ++ STRING_MARKER :: bytes
    /\ forall w p h d rest,
         32 <= bits w -> direct h p (TInt w) ->
         Dec.stringCache d = dc -> Dec.reader d = STRING_MARKER :: bytes ++ rest ->
         exists d' h',
           Dec.Decode (pointer_to (TInt w) p) {| Dec.dec := d; Dec.mem := h |}
           = (Ok tt, {| Dec.dec := d'; Dec.mem := h' |})
           /\ load h' p = Some (VInt (sint (bits w) v))
           /\ (bits w = 64 -> sint (bits w) v = v)
           /\ Dec.reader d' = rest
           /\ in_step (Enc.stringCache e') (Dec.stringCache d').
Proof.
  intros Hv Hstep He Hn.
  pose proof (len_FormatInt v) as Hlen.
  destruct (encodeString_in_step (FormatInt v) e dc Hstep He ltac:(lia) Hn)
    as (bytes & ec' & dc' & Hw & Hstep' & _ & Hread).
  exists bytes, (Enc.set_stringCache ec' (append (STRING_MARKER :: bytes) e)).
  split; [|split; [reflexivity|]].
  - change (Enc.Encode (Enc.Int v) e) with (Enc.encodeInt v e). unfold Enc.encodeInt.
    destruct (Z.ltb_spec v (- 0x0fffffff)); [|lia].
    destruct (Z.ltb_spec (- 0x7fffffff) v); [lia|]. exact Hw.
  - intros w p h d rest Hbits Hdir Hd Hr.
    rewrite (Hread (TInt w) p d h rest Hdir Hd Hr).
    destruct (store_string_at (FormatInt v) (with_strings rest dc' d) h p (TInt w)
                (direct_slot _ _ _ Hdir)) as (res & h' & Hst & Hres).
    rewrite ParseInt_FormatInt in Hres
      by (change (2 ^ 63) with 9223372036854775808 in *; lia).
    assert (Hok : res = Ok tt /\ load h' p = Some (VInt (sint (bits w) v))).
    { destruct w; cbn in Hbits; try lia;
        destruct Hres as (-> & w' & [= <-] & Hl); (split; [reflexivity|exact Hl]). }
    destruct Hok as [-> Hl].
    exists (with_strings rest dc' d), h'.
    split; [exact Hst|]. split; [exact Hl|].
    split; [intros ->; apply sint_64_small; lia|].
    split; [reflexivity|exact Hstep'].
Qed.

Lemma large_negative_round_trip_witness :
  exists bytes e',
    Enc.Encode (Enc.Int (- 0x80000000)) fresh = (Ok tt, e')
    /\ Enc.written (Enc.writer e') = STRING_MARKER :: bytes
    /\ exists d' h',
         Dec.Decode (pointer_to (TInt W64) the_variable)
           (one_variable (TInt W64) (STRING_MARKER :: bytes))
         = (Ok tt, {| Dec.dec := d'; Dec.mem := h' |})
         /\ load h' the_variable = Some (VInt (sint 64 (- 0x80000000))).
Proof.
  destruct (large_negative_round_trip (- 0x80000000) fresh [])
    as (bytes & e' & He & Hw & Hd).
  - lia.
  - exact in_step_empty.
  - reflexivity.
  - reflexivity.
  - exists bytes, e'. split; [exact He|]. split; [exact Hw|].
    destruct (Hd W64 the_variable [Cells (TInt W64) [zero (TInt W64)]]
                (Dec.NewDecoder (STRING_MARKER :: bytes)) [])
      as (d' & h' & H1 & H2 & _).
    + cbn. lia.
    + split; [reflexivity|]. split; [reflexivity|]. eexists. split; reflexivity.
    + reflexivity.
    + cbn. rewrite app_nil_r. reflexivity.
    + exists d', h'. split; [exact H1|exact H2].
Defined.

Lemma setBool_at b d h p t :
  slot h p t ->
  exists res h',
    Dec.setBool (At false p) b {| Dec.dec := d; Dec.mem := h |}
    = (res, {| Dec.dec := d; Dec.mem := h' |})
    /\ match t with
       | TBool => res = Ok tt /\ load h' p = Some (VBool b)
       | TInterface => res = Ok tt /\ load h' p = Some (VInterface (Some (TBool, VBool b)))
       | _ => res = Err (Dec.InvalidType t "bool") /\ h' = h
       end.
Proof.
  intros Hslot. unfold Dec.setBool. unfold bind at 1.
  rewrite (reflect_Kind_slot _ _ _ _ _ Hslot).
  destruct t as [| w | w | | | | | te | te | te | n fs |]; cbn [kind_of];
    try (unfold bind; rewrite (reflect_Type_slot _ _ _ _ _ Hslot);
         eexists _, h; split; [reflexivity|split; reflexivity]).
  - unfold SetBool.
    destruct (reflect_set_scalar h p TBool d "reflect.Value.SetBool"
      (fun t => match t with TBool => Some (VBool b) | _ => None end)
      _ Hslot eq_refl) as (h' & -> & Hl & _).
    eexists _, h'. split; [reflexivity|]. split; [reflexivity|exact Hl].
  - unfold ValueOf.
    destruct (reflect_Set_Imm h p TInterface TBool (VBool b) d Hslot _ eq_refl)
      as (h' & -> & Hl & _).
    eexists _, h'. split; [reflexivity|]. split; [reflexivity|exact Hl].
Qed.

(** X10.  A boolean goes round: [Encode] writes the True or the False
    marker, one byte, and [Decode] of it through a pointer to a [bool]
    variable stores the boolean; an [AMFAny] receives it as a [bool].  Any
    other destination is left as it is, with the error "invalid type ...
    for bool". *)
Theorem bool_round_trip (b : bool) (e : Enc.Encoder) (h : Heap) (p : place) (t : gotype) :
  unbounded e -> direct h p t ->
  let m := if b then TRUE_MARKER else FALSE_MARKER in
  Enc.Encode (Enc.Bool b) e = (Ok tt, append [m] e)
  /\ forall d rest,
       Dec.reader d = m :: rest ->
       exists res h',
         Dec.Decode (pointer_to t p) {| Dec.dec := d; Dec.mem := h |}
         = (res, {| Dec.dec := with_strings rest (Dec.stringCache d) d; Dec.mem := h' |})
         /\ match t with
            | TBool => res = Ok tt /\ load h' p = Some (VBool b)
            | TInterface =>
                res = Ok tt /\ load h' p = Some (VInterface (Some (TBool, VBool b)))
            | _ => res = Err (Dec.InvalidType t "bool") /\ h' = h
            end.
Proof.
  intros He Hdir m. split.
  - change (Enc.Encode (Enc.Bool b) e) with (Enc.encodeBool b e).
    unfold Enc.encodeBool, Enc.writeMarker. subst m.
    destruct b; apply writeBytes_unbounded, He.
  - intros d rest Hr. unfold Dec.Decode, Dec.DecodeValue. cbn [Dec.decode].
    rewrite (decode_direct _ _ _ p t d h m rest);
      [|right; reflexivity|exact Hdir|exact Hr|subst m; destruct b; discriminate].
    replace (if Byte.eqb m FALSE_MARKER then Dec.setBool (At false p) false
             else if Byte.eqb m TRUE_MARKER then Dec.setBool (At false p) true
             else _) with (Dec.setBool (At false p) b)
      by (subst m; destruct b; reflexivity).
    apply setBool_at, direct_slot, Hdir.
Qed.

Lemma bool_round_trip_witness :
  Enc.Encode (Enc.Bool true) fresh = (Ok tt, append [TRUE_MARKER] fresh)
  /\ exists res h',
       Dec.Decode (pointer_to TInterface the_variable) (one_variable TInterface [TRUE_MARKER])
       = (res, {| Dec.dec := Dec.NewDecoder []; Dec.mem := h' |})
       /\ res = Ok tt
       /\ load h' the_variable = Some (VInterface (Some (TBool, VBool true))).
Proof.
  destruct (bool_round_trip true fresh [Cells TInterface [zero TInterface]]
              the_variable TInterface) as (He & Hd).
  - reflexivity.
  - split; [reflexivity|]. split; [reflexivity|]. eexists. split; reflexivity.
  - split; [exact He|].
    destruct (Hd (Dec.NewDecoder [TRUE_MARKER]) []) as (res & h' & H1 & H2 & H3);
      [reflexivity|].
    exists res, h'. split; [exact H1|]. split; [exact H2|exact H3].
Defined.

(** X11.  The Null marker cannot be decoded through [Decode(&x)]: the
    pointer [&x] is itself taken for the destination, it is not nil, and
    [value.Set] panics on it, not being addressable.  This is so whatever
    the type of [x] and whatever the memory holds; the marker has been
    consumed. *)
Theorem Decode_of_Null_through_a_pointer_panics
    (t : gotype) (p : place) (d : Dec.Decoder) (h : Heap) (rest : list byte) :
  Dec.reader d = NULL_MARKER :: rest ->
  Dec.Decode (pointer_to t p) {| Dec.dec := d; Dec.mem := h |}
  = (Panic (ReflectPanic "reflect.Value.Set"),
     {| Dec.dec := with_strings rest (Dec.stringCache d) d; Dec.mem := h |}).
Proof.
  intros Hr. unfold Dec.Decode, Dec.DecodeValue. cbn [Dec.decode Dec.dec].
  unfold Dec.decode_body. unfold bind at 1.
  rewrite (readMarker_cons NULL_MARKER rest) by exact Hr.
  change (Byte.eqb NULL_MARKER NULL_MARKER) with true. cbv beta iota.
  unfold pointer_to, bind, Dec.reflect, IsNil, Kind, Type_, Set_.
  cbn [Dec.set_reader Dec.mem Dec.dec ValOf TypeOf kind_of].
  rewrite bool_decide_eq_false_2 by discriminate. reflexivity.
Qed.

Lemma Decode_of_Null_through_a_pointer_panics_witness :
  Dec.Decode (pointer_to (TPtr TString) the_variable)
    (one_variable (TPtr TString) [NULL_MARKER])
  = (Panic (ReflectPanic "reflect.Value.Set"), one_variable (TPtr TString) []).
Proof.
  exact (Decode_of_Null_through_a_pointer_panics (TPtr TString) the_variable
           (Dec.NewDecoder [NULL_MARKER]) [Cells (TPtr TString) [zero (TPtr TString)]] []
           eq_refl).
Defined.

(** X14.  A reference is resolved without a check of its index: when the
    string cache, or the object cache, has no entry at the index that a
    string reference, an object reference or an array reference names,
    [readString], [readObject] and [readSlice] panic with an index out of
    range, whatever the destination; no error is returned. *)
Theorem reference_beyond_the_cache_panics
    (decode : Value -> Dec.DM unit) (fuel : nat) (n : Z) (rest : list byte)
    (d : Dec.Decoder) (h : Heap) (value : Value) :
  0 <= n < 0x100000 -> Dec.reader d = u29 (2 * n) ++ rest ->
  let after := {| Dec.dec := with_strings rest (Dec.stringCache d) d; Dec.mem := h |} in
  (Dec.stringCache d !! Z.to_nat n = None ->
   Dec.readString value {| Dec.dec := d; Dec.mem := h |}
   = (Panic (IndexOutOfRange n (length (Dec.stringCache d))), after))
  /\ (Dec.objectCache d !! Z.to_nat n = None ->
      Dec.readObject decode fuel value {| Dec.dec := d; Dec.mem := h |}
      = (Panic (IndexOutOfRange n (length (Dec.objectCache d))), after)
      /\ Dec.readSlice decode value {| Dec.dec := d; Dec.mem := h |}
         = (Panic (IndexOutOfRange n (length (Dec.objectCache d))), after)).
Proof.
  intros Hn Hr after. split.
  - intros Hc. apply readString_reference_out_of_range; assumption.
  - intros Hc. apply readObject_reference_out_of_range; assumption.
Qed.

Lemma reference_beyond_the_cache_panics_witness :
  Dec.readString (At false the_variable) (one_variable TString (u29 (2 * 5)))
  = (Panic (IndexOutOfRange 5 0), one_variable TString []).
Proof.
  refine (proj1 (reference_beyond_the_cache_panics (fun _ => ret tt) 0 5 []
                   (Dec.NewDecoder (u29 (2 * 5))) [Cells TString [zero TString]]
                   (At false the_variable) _ _) _).
  - lia.
  - reflexivity.
  - reflexivity.
Defined.

(** X15.  The reference that the encoder writes for a composite it has
    cached at index [idx] is the U29 of [4 * idx], for a mapping, a record
    and a sequence alike; the decoder takes the U29 it reads for twice the
    index, and so looks up entry [2 * idx] of its object cache for it. *)
Theorem composite_reference_is_resolved_at_twice_the_index
    (encode : Enc.value -> Enc.EM unit) (v : Enc.value) (idx : Z) (e : Enc.Encoder) :
  unbounded e -> Enc.objectCache e !! Enc.Pointer v = Some idx -> 0 <= idx < 0x80000 ->
  let ref := u29 (4 * idx) in
  Enc.encodeMap encode v e = (Ok tt, append (OBJECT_MARKER :: ref) e)
  /\ Enc.encodeStruct encode v e = (Ok tt, append (OBJECT_MARKER :: ref) e)
  /\ Enc.encodeSlice encode v e = (Ok tt, append (ARRAY_MARKER :: ref) e)
  /\ forall decode fuel value d h rest,
       Dec.reader d = ref ++ rest ->
       let after := {| Dec.dec := with_strings rest (Dec.stringCache d) d; Dec.mem := h |} in
       let resolved :=
         match Dec.objectCache d !! Z.to_nat (2 * idx) with
         | Some x => Dec.reflect (Set_ value x) after
         | None => (Panic (IndexOutOfRange (2 * idx) (length (Dec.objectCache d))), after)
         end in
       Dec.readObject decode fuel value {| Dec.dec := d; Dec.mem := h |} = resolved
       /\ Dec.readSlice decode value {| Dec.dec := d; Dec.mem := h |} = resolved.
Proof.
  intros He Hc Hi ref.
  destruct (encoder_reference_form encode v idx e He Hc ltac:(change (2 ^ 27) with 0x8000000; lia))
    as (H1 & H2 & H3).
  split; [exact H1|]. split; [exact H2|]. split; [exact H3|].
  intros decode fuel value d h rest Hr after resolved.
  assert (Hu : Dec.readU29 {| Dec.dec := d; Dec.mem := h |} = (Ok (2 * (2 * idx)), after)).
  { rewrite (readU29_u29 (4 * idx) rest) by (cbn; (lia || assumption)).
    f_equal. f_equal. lia. }
  destruct (even_odd_u29 (2 * idx) ltac:(lia)) as (Hev & Hsh & _ & _).
  split.
  - unfold Dec.readObject. unfold bind at 1. rewrite Hu, Hev, Hsh.
    unfold bind, gets. subst resolved after.
    cbn [Dec.dec Dec.mem Dec.objectCache with_strings].
    destruct (Dec.objectCache d !! Z.to_nat (2 * idx)); reflexivity.
  - unfold Dec.readSlice. unfold bind at 1. rewrite Hu, Hev, Hsh.
    unfold bind, gets. subst resolved after.
    cbn [Dec.dec Dec.mem Dec.objectCache with_strings].
    destruct (Dec.objectCache d !! Z.to_nat (2 * idx)); reflexivity.
Qed.

Lemma composite_reference_is_resolved_at_twice_the_index_witness :
  let e := Enc.set_objectCache {[ 0xc000010000 := 0; 0xc000012000 := 1 ]} fresh in
  Enc.encodeSlice (Enc.encode 1) (Enc.Slice 0xc000012000 []) e
  = (Ok tt, append [ARRAY_MARKER; Byte.x04] e).
Proof.
  exact (proj1 (proj2 (proj2
    (composite_reference_is_resolved_at_twice_the_index (Enc.encode 1)
       (Enc.Slice 0xc000012000 []) 1
       (Enc.set_objectCache {[ 0xc000010000 := 0; 0xc000012000 := 1 ]} fresh)
       eq_refl eq_refl ltac:(lia))))).
Defined.

Lemma writeU29_writeBytes v e :
  v < 0x20000000 -> Enc.writeU29 v e = Enc.writeBytes (u29 v) e.
Proof.
  intros Hv. unfold u29, emitted, Enc.writeU29.
  repeat (case_ltb; [reflexivity|]). lia.
Qed.

Lemma writeBytes_room b e r :
  Enc.room (Enc.writer e) = Some r ->
  Enc.writeBytes b e
  = (if Nat.leb (length b) r then Ok tt else Err Enc.WriteFailed,
     Enc.set_writer
       {| Enc.written := Enc.written (Enc.writer e) ++ firstn (Nat.min r (length b)) b;
          Enc.room := Some (r - Nat.min r (length b))%nat |} e).
Proof.
  intros Hr. unfold Enc.writeBytes, Enc.Write. rewrite Hr.
  destruct (Nat.leb_spec (length b) r) as [Hle|Hgt].
  - replace (Nat.eqb (Nat.min r (length b)) (length b)) with true
      by (symmetry; apply Nat.eqb_eq; lia). reflexivity.
  - replace (Nat.eqb (Nat.min r (length b)) (length b)) with false
      by (symmetry; apply Nat.eqb_neq; lia). reflexivity.
Qed.

(** X16.  A write that fails leaves the string cached.  When the writer
    takes the head of a literal but not all of its bytes, [writeString]
    returns "write failed", the writer holds the part that fitted, and the
    string is in the cache with the next index all the same: written again
    to the encoder, once its writer takes bytes again, it goes out as a
    reference to a literal that was never written in full. *)
Theorem failed_write_leaves_the_string_cached (s : string) (e : Enc.Encoder) (r : nat) :
  s <> ""%string -> len s < 2 ^ 27 -> Enc.stringCache e !! s = None ->
  Z.of_nat (size (Enc.stringCache e)) < 2 ^ 27 ->
  Enc.room (Enc.writer e) = Some r ->
  let head := u29 (2 * len s + 1) in
  (length head <= r < length head + String.length s)%nat ->
  let n := Z.of_nat (size (Enc.stringCache e)) in
  exists e',
    Enc.writeString s e = (Err Enc.WriteFailed, e')
    /\ Enc.written (Enc.writer e')
       = Enc.written (Enc.writer e) ++ head ++ firstn (r - length head) (bytes_of_string s)
    /\ Enc.stringCache e' !! s = Some n
    /\ forall w, Enc.room w = None ->
         Enc.writeString s (Enc.set_writer w e')
         = (Ok tt, append (u29 (2 * n)) (Enc.set_writer w e')).
Proof.
  intros Hne Hl Hc Hsz Hroom head Hr n.
  assert (Hlen : 0 <= len s) by (unfold len; lia).
  change (2 ^ 27) with 0x8000000 in *.
  assert (Hhead : uint32 (Z.lor (Z.shiftl (len s) 1) 0x01) = 2 * len s + 1).
  { rewrite lor_shiftl_small by lia. unfold uint32.
    rewrite Z.mod_small; [lia|]. change (2 ^ 32) with 4294967296. lia. }
  eexists. split; [|split; [|split]].
  - unfold Enc.writeString. unfold bind at 1. unfold gets. rewrite Hc.
    rewrite Hhead. unfold bind at 1.
    rewrite writeU29_writeBytes by lia. fold head.
    rewrite (writeBytes_room head e r Hroom).
    replace (Nat.leb (length head) r) with true by (symmetry; apply Nat.leb_le; lia).
    rewrite String_eqb_nonempty by exact Hne.
    unfold bind at 1. unfold modify.
    erewrite writeBytes_room by reflexivity.
    rewrite length_bytes_of_string.
    replace (Nat.leb (String.length s) (r - Nat.min r (length head))) with false
      by (symmetry; apply Nat.leb_gt; lia).
    reflexivity.
  - cbn [Enc.writer Enc.set_writer Enc.set_stringCache Enc.written].
    rewrite <- app_assoc. f_equal.
    replace (Nat.min r (length head)) with (length head) by lia.
    rewrite firstn_all. f_equal. f_equal. lia.
  - cbn [Enc.stringCache Enc.set_writer Enc.set_stringCache]. apply lookup_insert_eq.
  - intros w Hw. apply writeString_reference.
    + exact Hw.
    + cbn [Enc.stringCache Enc.set_writer Enc.set_stringCache]. apply lookup_insert_eq.
    + change (2 ^ 28) with 0x10000000. lia.
Qed.

Lemma failed_write_leaves_the_string_cached_witness :
  exists e',
    Enc.writeString "abc"
      (Enc.NewEncoder {| Enc.written := []; Enc.room := Some 2%nat |} false)
    = (Err Enc.WriteFailed, e')
    /\ Enc.written (Enc.writer e') = [Byte.x07; Byte.x61]
    /\ Enc.stringCache e' !! "abc"%string = Some 0.
Proof.
  destruct (failed_write_leaves_the_string_cached "abc"
              (Enc.NewEncoder {| Enc.written := []; Enc.room := Some 2%nat |} false) 2)
    as (e' & H1 & H2 & H3 & _).
  - discriminate.
  - reflexivity.
  - reflexivity.
  - reflexivity.
  - reflexivity.
  - vm_compute. lia.
  - exists e'. split; [exact H1|]. split; [exact H2|exact H3].
Defined.

(** Letters: the upper-case letter that [ToLower] took to lower case is
    found again by [ToUpper]. *)
Lemma ToUpper_ToLower c :
  IsUpper c = true -> IsLower c = false /\ IsLower (ToLower c) = true /\ ToUpper (ToLower c) = c.
Proof.
  intros Hu. pose proof Hu as Hu'. unfold IsUpper in Hu'. cbv zeta in Hu'.
  apply andb_true_iff in Hu' as [H1 H2]. apply Nat.leb_le in H1, H2.
  unfold ToLower. rewrite Hu.
  assert (Hn : nat_of_ascii (ascii_of_nat (nat_of_ascii c + 32)) = (nat_of_ascii c + 32)%nat)
    by (apply nat_ascii_embedding; lia).
  assert (Hl : IsLower (ascii_of_nat (nat_of_ascii c + 32)) = true).
  { unfold IsLower. cbv zeta. rewrite Hn. apply andb_true_iff.
    split; apply Nat.leb_le; lia. }
  split; [|split; [exact Hl|]].
  - unfold IsLower. cbv zeta. apply andb_false_iff. left. apply Nat.leb_gt. lia.
  - unfold ToUpper. rewrite Hl, Hn.
    replace (nat_of_ascii c + 32 - 32)%nat with (nat_of_ascii c) by lia.
    apply ascii_nat_embedding.
Qed.

Lemma find_first {A} (f : A -> bool) pre x post :
  forallb (fun y => negb (f y)) pre = true -> f x = true ->
  List.find f (pre ++ x :: post) = Some x.
Proof.
  intros Hpre Hx. induction pre as [|y pre IH]; cbn.
  - rewrite Hx. reflexivity.
  - cbn in Hpre. apply andb_true_iff in Hpre as [Hy Hpre].
    apply negb_true_iff in Hy. rewrite Hy. apply IH, Hpre.
Qed.

(** X17.  Field names agree between the two sides.  For a field whose
    name starts with an upper-case letter, the encoder writes it under its
    tag if it has one, else under its name, the first letter in lower case
    unless [reservStruct] is set; and [getField] finds the field again
    under that key, by the tag or by the name with the first letter back
    in upper case, provided no earlier field of the record answers to the
    key.  A field whose name starts with a lower-case letter gets the
    empty name, under which it is not written. *)
Theorem field_names_agree (c : ascii) (rest tag : string) (e : Enc.Encoder) :
  let name := String c rest in
  let f := {| Enc.Name := name; Enc.amf_name := tag |} in
  (IsLower c = true -> Enc.getFieldName f e = (Ok ""%string, e))
  /\ (IsUpper c = true ->
      let key := if String.eqb tag "" then
                   if Enc.reservStruct e then name else String (ToLower c) rest
                 else tag in
      Enc.getFieldName f e = (Ok key, e)
      /\ forall tname pre ft post,
           forallb (fun g => negb (answers key g)) pre = true ->
           Dec.getField key (TStruct tname (pre ++ (name, tag, ft) :: post))
           = Some (name, tag, ft)).
Proof.
  intros name f. split.
  - intros Hlow. unfold Enc.getFieldName. cbn [Enc.Name f name]. rewrite Hlow. reflexivity.
  - intros Hup key. destruct (ToUpper_ToLower c Hup) as (Hnl & Hl & Hul). split.
    + unfold Enc.getFieldName. cbn [Enc.Name Enc.amf_name f name]. rewrite Hnl.
      subst key. destruct (String.eqb tag ""); cbn [negb]; [|reflexivity].
      unfold bind, gets. destruct (Enc.reservStruct e); reflexivity.
    + intros tname pre ft post Hpre.
      change (Dec.getField key (TStruct tname (pre ++ (name, tag, ft) :: post)))
        with (List.find (answers key) (pre ++ (name, tag, ft) :: post)).
      apply find_first; [exact Hpre|].
      unfold answers. cbn [fst snd]. subst key.
      destruct (String.eqb_spec tag "") as [->|Hne].
      * apply orb_true_iff. left. apply String.eqb_eq.
        destruct (Enc.reservStruct e); unfold upper_first, name.
        -- rewrite Hnl. reflexivity.
        -- rewrite Hl, Hul. reflexivity.
      * apply orb_true_iff. right. apply String.eqb_refl.
Qed.

Lemma field_names_agree_witness :
  Enc.getFieldName {| Enc.Name := "Name"; Enc.amf_name := "" |} fresh = (Ok "name"%string, fresh)
  /\ Dec.getField "name" (TStruct "T" [("Age"%string, ""%string, TInt WInt);
                                       ("Name"%string, ""%string, TString)])
     = Some ("Name"%string, ""%string, TString).
Proof.
  destruct (proj2 (field_names_agree "N" "ame" "" fresh) eq_refl) as [H1 H2].
  split; [exact H1|].
  exact (H2 "T"%string [("Age"%string, ""%string, TInt WInt)] TString [] eq_refl).
Defined.

(** * A sequence of integers, there and back *)

Lemma store_cell (h : Heap) l t vs i w :
  h !! l = Some (Cells t vs) -> (i < length vs)%nat ->
  store h (cell l i) w = Some (<[l := Cells t (<[i := w]> vs)]> h).
Proof.
  intros Hl Hi. unfold store, cell. cbn [blk idx path]. rewrite Hl.
  destruct (lookup_lt_is_Some_2 vs i Hi) as [v Hv]. rewrite Hv. reflexivity.
Qed.

Lemma type_at_cell (h : Heap) l t vs i :
  h !! l = Some (Cells t vs) -> (i < length vs)%nat -> type_at h (cell l i) = Some t.
Proof.
  intros Hl Hi. unfold type_at, cell. cbn [blk idx path]. rewrite Hl.
  replace (Nat.ltb i (length vs)) with true by (symmetry; apply Nat.ltb_lt; exact Hi).
  reflexivity.
Qed.

Lemma load_cell (h : Heap) l t vs i :
  h !! l = Some (Cells t vs) -> load h (cell l i) = vs !! i.
Proof.
  intros Hl. unfold load, cell. cbn [blk idx path]. rewrite Hl.
  destruct (vs !! i); reflexivity.
Qed.

(** [decode] of an Integer into a cell of a run of integers. *)
Lemma decode_integer_into_cell fuel x rest d (h : Heap) l w vs i :
  0 <= x < 0x200000 ->
  h !! l = Some (Cells (TInt w) vs) -> (i < length vs)%nat ->
  Forall (fun v => holds_no_pointer v = true) vs ->
  Dec.reader d = INTEGER_MARKER :: u29 x ++ rest ->
  Dec.decode (S fuel) (At false (cell l i)) {| Dec.dec := d; Dec.mem := h |}
  = (Ok tt, {| Dec.dec := with_strings rest (Dec.stringCache d) d;
               Dec.mem := <[l := Cells (TInt w) (<[i := VInt (sint (bits w) x)]> vs)]> h |}).
Proof.
  intros Hx Hl Hi Hvs Hr. cbn [Dec.decode].
  destruct (lookup_lt_is_Some_2 vs i Hi) as [v Hv].
  rewrite (decode_direct _ _ _ (cell l i) (TInt w) d h INTEGER_MARKER (u29 x ++ rest));
    [|left; reflexivity| |exact Hr|discriminate].
  2:{ split; [eapply type_at_cell; eassumption|]. split; [reflexivity|].
      exists v. split; [rewrite (load_cell _ _ _ _ _ Hl); exact Hv|].
      exact (proj1 (Forall_lookup _ _) Hvs i v Hv). }
  change (Byte.eqb INTEGER_MARKER FALSE_MARKER) with false.
  change (Byte.eqb INTEGER_MARKER TRUE_MARKER) with false.
  change (Byte.eqb INTEGER_MARKER STRING_MARKER) with false.
  change (Byte.eqb INTEGER_MARKER DOUBLE_MARKER) with false.
  change (Byte.eqb INTEGER_MARKER INTEGER_MARKER) with true. cbv beta iota.
  unfold Dec.readInteger. unfold bind at 1.
  rewrite (readU29_u29 x rest) by (try lia; reflexivity).
  rewrite readInteger_vv by (change (2 ^ 29) with 0x20000000; lia).
  assert (Hs : signed29 x = x) by (unfold signed29; case_ltb; lia). rewrite Hs.
  unfold bind at 1. unfold Dec.reflect at 1, Kind at 1.
  cbn [Dec.set_reader Dec.mem Dec.dec TypeOf].
  rewrite (type_at_cell _ _ _ _ _ Hl Hi). cbn [kind_of].
  unfold Dec.reflect, SetInt, set_scalar. cbn [Dec.mem Dec.dec].
  rewrite (type_at_cell _ _ _ _ _ Hl Hi), (store_cell _ _ _ _ _ _ Hl Hi). reflexivity.
Qed.

(** The loop of [readSlice] over a run of integers: it fills the cells
    from [i] on, one Integer each. *)
Lemma readSlice_elems_integers fuel t l n w xs :
  forall i vs d (h : Heap) rest,
    Forall (fun x => 0 <= x < 0x200000) xs ->
    h !! l = Some (Cells (TInt w) vs) -> (i + length xs <= length vs)%nat ->
    (i + length xs <= n)%nat ->
    Forall (fun v => holds_no_pointer v = true) vs ->
    Dec.reader d = integers xs ++ rest ->
    Dec.readSlice_elems (Dec.decode (S fuel)) (Imm false t (VSlice (Some (l, O, n)))) i (length xs)
      {| Dec.dec := d; Dec.mem := h |}
    = (Ok tt,
       {| Dec.dec := with_strings rest (Dec.stringCache d) d;
          Dec.mem := <[l := Cells (TInt w)
                         (take i vs ++ List.map (fun x => VInt (sint (bits w) x)) xs
                          ++ drop (i + length xs) vs)]> h |}).
Proof.
  induction xs as [|x xs IH]; intros i vs d h rest Hxs Hl Hlen Hn Hvs Hr.
  - cbn [length Dec.readSlice_elems List.map]. unfold ret. f_equal.
    cbn in Hr. destruct d as [r sc oc]. cbn in *. subst r. f_equal.
    rewrite Nat.add_0_r. change (take i vs ++ [] ++ drop i vs) with (take i vs ++ drop i vs).
    rewrite take_drop. symmetry. apply list_insert_id. exact Hl.
  - cbn [length Dec.readSlice_elems]. cbn [length] in Hlen, Hn.
    inversion Hxs as [|? ? Hx Hxs']; subst.
    unfold bind at 1. unfold Dec.reflect at 1, Index at 1. cbn [Dec.mem Dec.dec ValOf ro_of].
    replace (Nat.ltb i n) with true by (symmetry; apply Nat.ltb_lt; lia).
    change {| blk := l; idx := 0 + i; path := [] |} with (cell l i).
    unfold bind at 1.
    assert (Hint : integers (x :: xs) ++ rest
                   = INTEGER_MARKER :: u29 x ++ integers xs ++ rest).
    { unfold integers. rewrite map_cons, concat_cons, <- app_assoc. reflexivity. }
    rewrite Hint in Hr.
    rewrite (decode_integer_into_cell fuel x (integers xs ++ rest) d h l w vs i);
      [|exact Hx|exact Hl|lia|exact Hvs|exact Hr].
    rewrite (IH (S i) (<[i := VInt (sint (bits w) x)]> vs)
               (with_strings (integers xs ++ rest) (Dec.stringCache d) d)
               (<[l := Cells (TInt w) (<[i := VInt (sint (bits w) x)]> vs)]> h) rest);
      [|exact Hxs'| | | | |reflexivity].
    + f_equal. f_equal. rewrite list_insert_insert_eq. f_equal. f_equal.
      rewrite (take_S_r _ _ (VInt (sint (bits w) x)))
        by (apply list_lookup_insert_eq; lia).
      rewrite take_insert_ge by lia. rewrite <- app_assoc. cbn [app List.map].
      f_equal. f_equal. f_equal.
      rewrite drop_insert_lt by lia. f_equal. lia.
    + apply list_lookup_insert_eq. eapply lookup_lt_Some. exact Hl.
    + rewrite length_insert. lia.
    + lia.
    + apply Forall_insert; [exact Hvs|reflexivity].
Qed.

Lemma append_append a b e : append b (append a e) = append (a ++ b) e.
Proof. unfold append, Enc.set_writer. cbn. rewrite <- app_assoc. reflexivity. Qed.

Lemma encodeSlice_elems_integers fuel xs :
  forall e, unbounded e -> Forall (fun x => 0 <= x < 0x200000) xs ->
    Enc.encodeSlice_elems (Enc.encode (S fuel)) (List.map Enc.Int xs) e
    = (Ok tt, append (integers xs) e).
Proof.
  induction xs as [|x xs IH]; intros e He Hxs.
  - cbn. unfold ret, append, integers. cbn. rewrite app_nil_r.
    destruct e as [[wr ro] sc oc rs]. unfold unbounded in He. cbn in He. subst ro.
    reflexivity.
  - inversion Hxs as [|? ? Hx Hxs']; subst.
    cbn [List.map Enc.encodeSlice_elems]. unfold bind at 1.
    change (Enc.encode (S fuel) (Enc.Int x) e) with (Enc.encodeInt x e).
    unfold Enc.encodeInt. destruct (Z.ltb_spec x (- 0x0fffffff)) as [|_]; [lia|].
    unfold bind at 1. unfold Enc.writeMarker. rewrite writeBytes_unbounded by exact He.
    rewrite uint32_small by (change (2 ^ 32) with 4294967296; lia).
    rewrite writeU29_unbounded by (reflexivity || lia).
    rewrite IH by (reflexivity || exact Hxs').
    rewrite !append_append. reflexivity.
Qed.

(** X19.  A sequence of whole numbers from 0 to [0x1fffff] goes round.
    [Encode] of a sequence that is not yet in the object cache writes the
    Array marker, the U29 of twice the length plus one, the empty string
    and one Integer for each number, and enters the sequence in the
    object cache; [Decode] of that through a pointer to a nil sequence
    variable of a signed integer type makes a new sequence of that length,
    stores it in the variable and in the object cache, and fills it with
    the numbers, each cut to the width of the element type. *)
Theorem integer_sequence_round_trip
    (xs : list Z) (a : Z) (e : Enc.Encoder) (h : Heap) (p : place) (w : width) :
  Forall (fun x => 0 <= x < 0x200000) xs -> Z.of_nat (length xs) < 0x100000 ->
  unbounded e -> Enc.objectCache e !! a = None -> Enc.stringCache e !! ""%string = None ->
  type_at h p = Some (TSlice (TInt w)) -> load h p = Some (VSlice None) ->
  let n := length xs in
  let made := Imm false (TSlice (TInt w)) (VSlice (Some (length h, O, n))) in
  exists bytes,
    Enc.Encode (Enc.Slice a (List.map Enc.Int xs)) e
    = (Ok tt,
       Enc.set_objectCache (<[a := Z.of_nat (size (Enc.objectCache e))]> (Enc.objectCache e))
         (append bytes e))
    /\ forall d rest,
         Dec.reader d = bytes ++ rest ->
         exists h',
           Dec.Decode (pointer_to (TSlice (TInt w)) p) {| Dec.dec := d; Dec.mem := h |}
           = (Ok tt,
              {| Dec.dec := {| Dec.reader := rest;
                               Dec.stringCache := Dec.stringCache d;
                               Dec.objectCache := Dec.objectCache d ++ [made] |};
                 Dec.mem := h' |})
           /\ load h' p = Some (VSlice (Some (length h, O, n)))
           /\ h' !! length h
              = Some (Cells (TInt w) (List.map (fun x => VInt (sint (bits w) x)) xs)).
Proof.
  intros Hxs Hn He Hoc Hsc Ht Hl n made.
  set (hdr := 2 * Z.of_nat n + 1).
  exists (ARRAY_MARKER :: u29 hdr ++ [Byte.x01] ++ integers xs).
  split.
  - unfold Enc.Encode.
    assert (Hfuel : exists f, (2 * Enc.depth (Enc.Slice a (List.map Enc.Int xs)) + 1 = S (S f))%nat)
      by (cbn [Enc.depth];
          exists (2 * fold_right (fun x d => Nat.max (Enc.depth x) d) O (List.map Enc.Int xs) + 1)%nat;
          lia).
    destruct Hfuel as [f ->].
    change (Enc.encode (S (S f)) (Enc.Slice a (List.map Enc.Int xs)) e)
      with (Enc.encodeSlice (Enc.encode (S f)) (Enc.Slice a (List.map Enc.Int xs)) e).
    unfold Enc.encodeSlice. cbn [Enc.Pointer Enc.Len Enc.elems_of].
    unfold bind at 1. unfold Enc.writeMarker. rewrite writeBytes_unbounded by exact He.
    unfold bind at 1. unfold gets. cbn [append Enc.set_writer Enc.objectCache].
    rewrite Hoc. unfold bind at 1. unfold Enc.cache_object, modify.
    rewrite length_map. fold n.
    replace (Z.lor (uint32 (Z.shiftl (uint32 (Z.of_nat n)) 1)) 1) with hdr.
    2:{ subst hdr. assert (Hn' : Z.of_nat n < 0x100000) by exact Hn.
        rewrite (uint32_small (Z.of_nat n)) by (change (2 ^ 32) with 4294967296; lia).
        rewrite Z.shiftl_mul_pow2 by lia. change (2 ^ 1) with 2.
        rewrite uint32_small by (change (2 ^ 32) with 4294967296; lia).
        replace (Z.of_nat n * 2) with (Z.shiftl (Z.of_nat n) 1)
          by (rewrite Z.shiftl_mul_pow2 by lia; reflexivity).
        rewrite lor_shiftl_small by lia. lia. }
    assert (Hn' : Z.of_nat n < 0x100000) by exact Hn.
    unfold bind at 1. rewrite writeU29_unbounded by (reflexivity || (subst hdr; lia)).
    unfold bind at 1. rewrite writeString_literal;
      [|reflexivity|exact Hsc|reflexivity].
    rewrite encodeSlice_elems_integers by (reflexivity || exact Hxs).
    unfold after_literal, append, Enc.set_writer, Enc.set_objectCache. cbn.
    rewrite <- !app_assoc. reflexivity.
  - intros d rest Hr. assert (Hn' : Z.of_nat n < 0x100000) by exact Hn.
    assert (Hdir : direct h p (TSlice (TInt w))).
    { split; [exact Ht|]. split; [reflexivity|]. exists (VSlice None). split; [exact Hl|reflexivity]. }
    unfold Dec.Decode, Dec.DecodeValue. cbn [Dec.decode].
    rewrite (decode_direct _ _ _ p (TSlice (TInt w)) d h ARRAY_MARKER
               (u29 hdr ++ [Byte.x01] ++ integers xs ++ rest));
      [|right; reflexivity|exact Hdir|rewrite Hr; cbn; rewrite <- !app_assoc; reflexivity
       |discriminate].
    change (Byte.eqb ARRAY_MARKER FALSE_MARKER) with false.
    change (Byte.eqb ARRAY_MARKER TRUE_MARKER) with false.
    change (Byte.eqb ARRAY_MARKER STRING_MARKER) with false.
    change (Byte.eqb ARRAY_MARKER DOUBLE_MARKER) with false.
    change (Byte.eqb ARRAY_MARKER INTEGER_MARKER) with false.
    change (Byte.eqb ARRAY_MARKER ARRAY_MARKER) with true. cbv beta iota.
    unfold Dec.readSlice. unfold bind at 1.
    rewrite (readU29_u29 hdr ([Byte.x01] ++ integers xs ++ rest))
      by (try (subst hdr; lia); reflexivity).
    destruct (even_odd_u29 (Z.of_nat n) ltac:(lia)) as (_ & _ & Hodd & Hsh).
    fold hdr in Hodd, Hsh. rewrite Hodd, Hsh. cbv zeta. rewrite Nat2Z.id.
    unfold bind at 1. rewrite (readMarker_cons Byte.x01 (integers xs ++ rest)) by reflexivity.
    change (negb (Byte.eqb Byte.x01 Byte.x01)) with false. cbv beta iota.
    unfold bind at 1. unfold Dec.reflect at 1, IsNil at 1.
    cbn [Dec.set_reader Dec.mem Dec.dec ValOf]. rewrite Hl.
    rewrite bool_decide_eq_true_2 by reflexivity.
    unfold bind at 1. unfold bind at 1. unfold Dec.reflect at 1, Type_ at 1.
    cbn [Dec.mem Dec.dec TypeOf]. rewrite Ht. cbn [kind_of].
    unfold bind at 1. unfold Dec.reflect at 1, MakeSlice, alloc, bind, ret.
    cbn [Dec.mem Dec.dec].
    assert (Hp : (blk p < length h)%nat).
    { unfold type_at in Ht. destruct (h !! blk p) eqn:E; [|discriminate].
      eapply lookup_lt_Some. exact E. }
    set (h1 := h ++ [Cells (TInt w) (replicate n (zero (TInt w)))]).
    assert (Ht1 : type_at h1 p = Some (TSlice (TInt w))).
    { unfold type_at, h1 in *. rewrite lookup_app_l by exact Hp. exact Ht. }
    assert (Hl1 : is_Some (load h1 p)).
    { exists (VSlice None). unfold load, h1 in *. rewrite lookup_app_l by exact Hp. exact Hl. }
    destruct (store_spec h1 p (VSlice (Some (length h, O, n))) Hl1) as (h2 & Hst & Hld & Hty).
    unfold Dec.reflect at 1, Set_ at 1. cbn [Dec.mem Dec.dec TypeOf ValOf ro_of].
    fold h1. rewrite Ht1, type_eqb_refl, Hst.
    unfold Dec.append_objectCache, modify.
    cbn [Dec.dec Dec.mem Dec.reader Dec.stringCache Dec.objectCache with_strings].
    assert (Hh2 : h2 !! length h = Some (Cells (TInt w) (replicate n (VInt 0)))).
    { unfold store in Hst. destruct (h1 !! blk p) as [[t0 vs0|]|] eqn:E; try discriminate.
      destruct (vs0 !! idx p); [|discriminate]. destruct (upd_val _ _ _); [|discriminate].
      injection Hst as <-. rewrite list_lookup_insert_ne by lia.
      unfold h1. rewrite lookup_app_r by lia. rewrite Nat.sub_diag. reflexivity. }
    pose proof (readSlice_elems_integers (length (Dec.reader d) - 1)
                  (TSlice (TInt w)) (length h) n w xs O (replicate n (VInt 0))
                  {| Dec.reader := integers xs ++ rest;
                     Dec.stringCache := Dec.stringCache d;
                     Dec.objectCache := Dec.objectCache d ++ [made] |}
                  h2 rest Hxs Hh2) as Hloop.
    rewrite length_replicate in Hloop.
    specialize (Hloop ltac:(subst n; lia) ltac:(subst n; lia)
                      ltac:(apply Forall_replicate; reflexivity) eq_refl).
    assert (Hfu : S (length (Dec.reader d) - 1) = length (Dec.reader d)).
    { rewrite Hr. cbn [length app]. lia. }
    rewrite Hfu in Hloop. fold n in Hloop.
    eexists. split; [exact Hloop|]. split.
    + unfold load in *. rewrite list_lookup_insert_ne by lia. exact Hld.
    + rewrite list_lookup_insert_eq by (eapply lookup_lt_Some; exact Hh2).
      f_equal. f_equal. cbn [take]. rewrite drop_ge by (rewrite length_replicate; subst n; lia).
      rewrite app_nil_r. reflexivity.
Qed.

Lemma integer_sequence_round_trip_witness :
  exists bytes e',
    Enc.Encode (Enc.Slice 0xc000010000 [Enc.Int 1; Enc.Int 300]) fresh = (Ok tt, e')
    /\ Enc.written (Enc.writer e') = bytes
    /\ exists d' h',
         Dec.Decode (pointer_to (TSlice (TInt W64)) the_variable)
           (one_variable (TSlice (TInt W64)) bytes)
         = (Ok tt, {| Dec.dec := d'; Dec.mem := h' |})
         /\ load h' the_variable = Some (VSlice (Some (1%nat, O, 2%nat)))
         /\ h' !! 1%nat = Some (Cells (TInt W64) [VInt (sint 64 1); VInt (sint 64 300)]).
Proof.
  destruct (integer_sequence_round_trip [1; 300] 0xc000010000 fresh
              [Cells (TSlice (TInt W64)) [zero (TSlice (TInt W64))]] the_variable W64)
    as (bytes & He & Hd).
  - repeat constructor; lia.
  - cbn. lia.
  - reflexivity.
  - reflexivity.
  - reflexivity.
  - reflexivity.
  - reflexivity.
  - exists bytes. eexists. split; [exact He|]. split; [reflexivity|].
    destruct (Hd (Dec.NewDecoder bytes) []) as (h' & H1 & H2 & H3).
    { symmetry. apply app_nil_r. }
    eexists _, h'. split; [exact H1|]. split; [exact H2|exact H3].
Defined.

(** * A mapping of integers, there and back *)

Lemma store_string_cell s d (h : Heap) c vs i :
  h !! c = Some (Cells TString vs) -> (i < length vs)%nat ->
  store_string (At false (cell c i)) s {| Dec.dec := d; Dec.mem := h |}
  = (Ok tt, {| Dec.dec := d; Dec.mem := <[c := Cells TString (<[i := VString s]> vs)]> h |}).
Proof.
  intros Hc Hi. unfold store_string. unfold bind at 1.
  unfold Dec.reflect at 1, Kind at 1. cbn [Dec.mem Dec.dec TypeOf].
  rewrite (type_at_cell _ _ _ _ _ Hc Hi). cbn [kind_of].
  unfold Dec.reflect, SetString, set_scalar. cbn [Dec.mem Dec.dec].
  rewrite (type_at_cell _ _ _ _ _ Hc Hi), (store_cell _ _ _ _ _ _ Hc Hi). reflexivity.
Qed.

Lemma decode_integer_into_any fuel x rest d (h : Heap) c :
  0 <= x < 0x200000 ->
  h !! c = Some (Cells TInterface [VInterface None]) ->
  Dec.reader d = INTEGER_MARKER :: u29 x ++ rest ->
  Dec.decode (S fuel) (pointer_to TInterface (cell c 0)) {| Dec.dec := d; Dec.mem := h |}
  = (Ok tt, {| Dec.dec := with_strings rest (Dec.stringCache d) d;
               Dec.mem := <[c := Cells TInterface [any_uint32 x]]> h |}).
Proof.
  intros Hx Hc Hr. cbn [Dec.decode].
  assert (Hi : (0 < length [VInterface None])%nat) by (cbn; lia).
  rewrite (decode_direct _ _ _ (cell c 0) TInterface d h INTEGER_MARKER (u29 x ++ rest));
    [|right; reflexivity| |exact Hr|discriminate].
  2:{ split; [eapply type_at_cell; eassumption|]. split; [reflexivity|].
      exists (VInterface None). split; [rewrite (load_cell _ _ _ _ _ Hc); reflexivity|reflexivity]. }
  change (Byte.eqb INTEGER_MARKER FALSE_MARKER) with false.
  change (Byte.eqb INTEGER_MARKER TRUE_MARKER) with false.
  change (Byte.eqb INTEGER_MARKER STRING_MARKER) with false.
  change (Byte.eqb INTEGER_MARKER DOUBLE_MARKER) with false.
  change (Byte.eqb INTEGER_MARKER INTEGER_MARKER) with true. cbv beta iota.
  unfold Dec.readInteger. unfold bind at 1.
  rewrite (readU29_u29 x rest) by (try lia; reflexivity).
  unfold bind at 1. unfold Dec.reflect at 1, Kind at 1.
  cbn [Dec.set_reader Dec.mem Dec.dec TypeOf].
  rewrite (type_at_cell _ _ _ _ _ Hc Hi). cbn [kind_of].
  unfold Dec.reflect, Set_, ValueOf. cbn [Dec.mem Dec.dec TypeOf ValOf ro_of].
  rewrite (type_at_cell _ _ _ _ _ Hc Hi). cbn [type_eqb].
  rewrite (store_cell _ _ _ _ _ _ Hc Hi). reflexivity.
Qed.

Lemma lookup_alloc (h : Heap) o : (h ++ [o]) !! length h = Some o.
Proof. apply list_lookup_middle. reflexivity. Qed.

Lemma insert_alloc (h : Heap) o o' : <[length h := o']> (h ++ [o]) = h ++ [o'].
Proof.
  rewrite insert_app_r_alt by lia. rewrite Nat.sub_diag. reflexivity.
Qed.

Lemma new_string_var_spec d (h : Heap) :
  Dec.new_string_var {| Dec.dec := d; Dec.mem := h |}
  = (Ok (At false (cell (length h) 0)),
     {| Dec.dec := d; Dec.mem := h ++ [Cells TString [zero TString]] |}).
Proof. reflexivity. Qed.

Lemma reflect_New_spec t d (h : Heap) :
  Dec.reflect (New t) {| Dec.dec := d; Dec.mem := h |}
  = (Ok (pointer_to t (cell (length h) 0)),
     {| Dec.dec := d; Dec.mem := h ++ [Cells t [zero t]] |}).
Proof. reflexivity. Qed.

Lemma string_at_cell d (h : Heap) c k :
  h !! c = Some (Cells TString [VString k]) ->
  Dec.string_at (At false (cell c 0)) {| Dec.dec := d; Dec.mem := h |}
  = (Ok k, {| Dec.dec := d; Dec.mem := h |}).
Proof.
  intros Hc. unfold Dec.string_at. cbn [Dec.mem ValOf].
  rewrite (load_cell _ _ _ _ _ Hc). reflexivity.
Qed.

(** The last turn of the loop over the members of a mapping: the empty
    key. *)
Lemma readObject_map_end decode fuel value d d1 (hc : Heap) :
  Dec.readString (At false (cell (length hc) 0))
    {| Dec.dec := d; Dec.mem := hc ++ [Cells TString [zero TString]] |}
  = store_string (At false (cell (length hc) 0)) ""
      {| Dec.dec := d1; Dec.mem := hc ++ [Cells TString [zero TString]] |} ->
  Dec.readObject_map decode (S fuel) value {| Dec.dec := d; Dec.mem := hc |}
  = (Ok tt, {| Dec.dec := d1; Dec.mem := hc ++ [Cells TString [VString ""]] |}).
Proof.
  intros Hkey. cbn [Dec.readObject_map]. unfold bind at 1.
  rewrite new_string_var_spec. unfold bind at 1. rewrite Hkey.
  rewrite (store_string_cell "" d1 _ (length hc) [zero TString] 0 (lookup_alloc _ _))
    by (cbn; lia).
  rewrite insert_alloc. cbn [insert list_insert zero].
  unfold bind at 1. rewrite (string_at_cell _ _ _ "" (lookup_alloc _ _)). reflexivity.
Qed.

(** A turn of that loop on a key and an Integer, for a mapping of
    [AMFAny]. *)
Lemma readObject_map_entry g fuel k x d d1 (hc : Heap) l M rest :
  k <> ""%string -> 0 <= x < 0x200000 ->
  hc !! l = Some (Mapping TInterface M) ->
  Dec.readString (At false (cell (length hc) 0))
    {| Dec.dec := d; Dec.mem := hc ++ [Cells TString [zero TString]] |}
  = store_string (At false (cell (length hc) 0)) k
      {| Dec.dec := d1; Dec.mem := hc ++ [Cells TString [zero TString]] |} ->
  Dec.reader d1 = INTEGER_MARKER :: u29 x ++ rest ->
  Dec.readObject_map (Dec.decode (S g)) (S fuel)
    (Imm false (TMap TInterface) (VMap (Some l))) {| Dec.dec := d; Dec.mem := hc |}
  = Dec.readObject_map (Dec.decode (S g)) fuel
      (Imm false (TMap TInterface) (VMap (Some l)))
      {| Dec.dec := with_strings rest (Dec.stringCache d1) d1;
         Dec.mem := <[l := Mapping TInterface (<[k := any_uint32 x]> M)]> hc
                    ++ [Cells TString [VString k]; Cells TInterface [any_uint32 x]] |}.
Proof.
  intros Hk Hx Hl Hkey Hr. pose proof (lookup_lt_Some _ _ _ Hl) as Hlt.
  cbn [Dec.readObject_map]. unfold bind at 1.
  rewrite new_string_var_spec. unfold bind at 1. rewrite Hkey.
  rewrite (store_string_cell k d1 _ (length hc) [zero TString] 0 (lookup_alloc _ _))
    by (cbn; lia).
  rewrite insert_alloc. cbn [insert list_insert zero].
  set (h1 := hc ++ [Cells TString [VString k]]).
  unfold bind at 1.
  rewrite (string_at_cell d1 h1 (length hc) k (lookup_alloc hc (Cells TString [VString k]))).
  rewrite String_eqb_nonempty by exact Hk.
  unfold bind at 1. unfold Dec.reflect at 1, Type_ at 1. cbn [Dec.mem Dec.dec TypeOf].
  unfold bind at 1. unfold Dec.type_Elem at 1, ret at 1.
  unfold bind at 1. rewrite reflect_New_spec.
  unfold bind at 1.
  rewrite (decode_integer_into_any g x rest d1 (h1 ++ [Cells TInterface [zero TInterface]])
             (length h1) Hx (lookup_alloc _ _) Hr).
  rewrite insert_alloc.
  unfold bind at 1. unfold Dec.reflect at 1, Elem at 1, pointer_to.
  cbn [Dec.mem Dec.dec ValOf ro_of].
  change {| blk := length h1; idx := 0; path := [] |} with (cell (length h1) 0).
  unfold bind at 1. unfold Dec.reflect at 1, SetMapIndex.
  cbn [Dec.mem Dec.dec ValOf TypeOf ro_of orb].
  assert (Hl2 : (h1 ++ [Cells TInterface [any_uint32 x]]) !! l
                = Some (Mapping TInterface M)).
  { unfold h1. rewrite <- app_assoc. rewrite lookup_app_l by exact Hlt. exact Hl. }
  rewrite Hl2.
  rewrite (type_at_cell _ _ _ _ 0 (lookup_alloc h1 (Cells TInterface [any_uint32 x])))
    by (cbn; lia).
  rewrite (load_cell _ _ _ _ 0 (lookup_alloc h1 (Cells TInterface [any_uint32 x]))).
  cbn [lookup list_lookup type_eqb].
  f_equal. f_equal. unfold h1. rewrite <- app_assoc. cbn [app].
  rewrite insert_app_l by exact Hlt. reflexivity.
Qed.

Lemma encodeInt_small x e :
  0 <= x < 0x200000 -> unbounded e ->
  Enc.encodeInt x e = (Ok tt, append (INTEGER_MARKER :: u29 x) e).
Proof.
  intros Hx He. unfold Enc.encodeInt.
  destruct (Z.ltb_spec x (- 0x0fffffff)) as [|_]; [lia|].
  unfold bind, Enc.writeMarker. rewrite writeBytes_unbounded by exact He.
  rewrite uint32_small by (change (2 ^ 32) with 4294967296; lia).
  rewrite writeU29_unbounded by (reflexivity || lia).
  rewrite append_append. reflexivity.
Qed.

Lemma append_nil e : unbounded e -> append [] e = e.
Proof.
  intros He. destruct e as [[wr ro] sc oc rs]. unfold unbounded in He. cbn in He. subst ro.
  unfold append, Enc.set_writer. cbn. rewrite app_nil_r. reflexivity.
Qed.

(** Writing a key never enters the empty string in the cache. *)
Lemma string_in_step_no_empty k e bytes ec' :
  k <> ""%string -> Enc.stringCache e !! ""%string = None ->
  Enc.writeString k e = (Ok tt, Enc.set_stringCache ec' (append bytes e)) ->
  ec' !! ""%string = None.
Proof.
  intros Hk H0 Hw.
  assert (Hc : Enc.stringCache (snd (Enc.writeString k e)) = ec') by (rewrite Hw; reflexivity).
  destruct (Enc.stringCache e !! k) as [idx|] eqn:Hl.
  - unfold Enc.writeString, bind, gets in Hc. rewrite Hl in Hc.
    rewrite writeU29_strings in Hc. rewrite <- Hc. exact H0.
  - rewrite writeString_caches in Hc by (try assumption; rewrite Hw; reflexivity).
    rewrite <- Hc. rewrite lookup_insert_ne by exact Hk. exact H0.
Qed.

(** The members of a mapping of small whole numbers, through the loop of
    [encodeMap] and the loop of [readObject], with the string caches in
    step. *)
Lemma integer_entries_round_trip f kxs :
  forall e dc,
    in_step (Enc.stringCache e) dc -> unbounded e ->
    Enc.stringCache e !! ""%string = None ->
    Forall (fun kx => fst kx <> ""%string /\ len (fst kx) < 0x100000
                      /\ 0 <= snd kx < 0x200000) kxs ->
    Z.of_nat (length dc + length kxs) < 0x100000 ->
    exists bytes ec' dc',
      Enc.encodeMap_range (Enc.encode (S f)) (integer_entries kxs) e
      = (Ok tt, Enc.set_stringCache ec' (append bytes e))
      /\ in_step ec' dc' /\ ec' !! ""%string = None
      /\ (length kxs <= length bytes)%nat
      /\ forall g fuel d (h0 : Heap) l M junk rest,
           Dec.stringCache d = dc -> Dec.reader d = bytes ++ Byte.x01 :: rest ->
           (l < length h0)%nat -> (length kxs < fuel)%nat ->
           exists junk',
             Dec.readObject_map (Dec.decode (S g)) fuel
               (Imm false (TMap TInterface) (VMap (Some l)))
               {| Dec.dec := d; Dec.mem := <[l := Mapping TInterface M]> h0 ++ junk |}
             = (Ok tt,
                {| Dec.dec := with_strings rest dc' d;
                   Dec.mem := <[l := Mapping TInterface (with_entries kxs M)]> h0 ++ junk' |}).
Proof.
  induction kxs as [|[k x] kxs IH]; intros e dc Hstep He H0 Hall Hn.
  - exists [], (Enc.stringCache e), dc.
    split; [|split; [exact Hstep|split; [exact H0|split; [cbn; lia|]]]].
    + cbn. unfold ret. rewrite append_nil by exact He. destruct e; reflexivity.
    + intros g fuel d h0 l M junk rest Hd Hr Hl Hf.
      destruct fuel as [|fuel]; [cbn in Hf; lia|].
      exists (junk ++ [Cells TString [VString ""]]).
      rewrite (readObject_map_end _ fuel _ d (with_strings rest dc d)).
      * rewrite <- app_assoc. reflexivity.
      * rewrite (readString_reads_literal "" rest d); [rewrite Hd; reflexivity|reflexivity|].
        rewrite Hr. reflexivity.
  - inversion Hall as [|? ? (Hk & Hlk & Hx) Hall']; subst. cbn [fst snd] in Hk, Hlk, Hx.
    cbn [length] in Hn.
    destruct (string_in_step k e dc Hstep He Hlk ltac:(lia))
      as (bk & ec1 & dc1 & Hw & Hstep1 & Hlen1 & Hread).
    pose proof (string_in_step_no_empty k e bk ec1 Hk H0 Hw) as H01.
    set (e1 := Enc.set_stringCache ec1 (append bk e)) in *.
    destruct (IH (append (INTEGER_MARKER :: u29 x) e1) dc1 Hstep1 eq_refl H01 Hall'
                ltac:(lia)) as (b2 & ec' & dc' & Henc2 & Hstep' & H0' & Hlen2 & Hdec2).
    exists (bk ++ INTEGER_MARKER :: u29 x ++ b2), ec', dc'.
    split; [|split; [exact Hstep'|split; [exact H0'|split]]].
    + cbn [integer_entries List.map fst snd Enc.encodeMap_range].
      fold (integer_entries kxs).
      unfold bind at 1. rewrite Hw. fold e1.
      unfold bind at 1. unfold ret at 1. unfold bind at 1.
      change (Enc.encode (S f) (Enc.Int x) e1) with (Enc.encodeInt x e1).
      rewrite (encodeInt_small x e1 Hx eq_refl). rewrite Henc2.
      f_equal. unfold e1, append, Enc.set_stringCache, Enc.set_writer. cbn.
      rewrite <- !app_assoc. reflexivity.
    + rewrite length_app. cbn [length]. rewrite length_app. lia.
    + intros g fuel d h0 l M junk rest Hd Hr Hl Hf.
      destruct fuel as [|fuel]; [cbn in Hf; lia|]. cbn [length] in Hf.
      set (hc := <[l := Mapping TInterface M]> h0 ++ junk).
      assert (Hhc : hc !! l = Some (Mapping TInterface M)).
      { unfold hc. rewrite lookup_app_l by (rewrite length_insert; exact Hl).
        apply list_lookup_insert_eq. exact Hl. }
      set (d1 := with_strings (INTEGER_MARKER :: u29 x ++ b2 ++ Byte.x01 :: rest) dc1 d).
      rewrite (readObject_map_entry g fuel k x d d1 hc l M (b2 ++ Byte.x01 :: rest) Hk Hx Hhc).
      * destruct (Hdec2 g fuel
                    (with_strings (b2 ++ Byte.x01 :: rest) (Dec.stringCache d1) d1)
                    h0 l (<[k := any_uint32 x]> M)
                    (junk ++ [Cells TString [VString k]; Cells TInterface [any_uint32 x]])
                    rest eq_refl eq_refl Hl ltac:(lia)) as (junk' & Hloop).
        exists junk'.
        replace (<[l := Mapping TInterface (<[k := any_uint32 x]> M)]> hc
                 ++ [Cells TString [VString k]; Cells TInterface [any_uint32 x]])
          with (<[l := Mapping TInterface (<[k := any_uint32 x]> M)]> h0
                ++ (junk ++ [Cells TString [VString k]; Cells TInterface [any_uint32 x]])).
        -- rewrite Hloop. reflexivity.
        -- unfold hc. rewrite insert_app_l by (rewrite length_insert; exact Hl).
           rewrite list_insert_insert_eq, <- app_assoc. reflexivity.
      * apply Hread; [exact Hd|]. rewrite Hr, <- app_assoc.
        change ((INTEGER_MARKER :: u29 x ++ b2) ++ Byte.x01 :: rest)
          with (INTEGER_MARKER :: (u29 x ++ b2) ++ Byte.x01 :: rest).
        rewrite <- app_assoc. reflexivity.
      * reflexivity.
Qed.

(** X20.  A mapping from non-empty strings to whole numbers from 0 to
    [0x1fffff] goes round into an [AMFAny].  With the string caches in
    step, [Encode] of a mapping that is not yet in the object cache
    writes the Object marker, the byte [0x0b], the empty string, then for
    each entry its key and an Integer, and the empty string again;
    [Decode] of that through a pointer to a nil [AMFAny] makes a new
    [map[string]AMFAny], stores it in the variable and in the object
    cache, and enters each key with its number as a [uint32]; what
    follows in the input is left and the string caches are in step
    again. *)
Theorem integer_mapping_round_trip
    (kxs : list (string * Z)) (a : Z) (e : Enc.Encoder) (dc : list string)
    (h : Heap) (p : place) :
  Forall (fun kx => fst kx <> ""%string /\ len (fst kx) < 0x100000
                    /\ 0 <= snd kx < 0x200000) kxs ->
  in_step (Enc.stringCache e) dc -> unbounded e ->
  Enc.stringCache e !! ""%string = None -> Enc.objectCache e !! a = None ->
  Z.of_nat (length dc + length kxs) < 0x100000 ->
  type_at h p = Some TInterface -> load h p = Some (VInterface None) ->
  let made := Imm false (TMap TInterface) (VMap (Some (length h))) in
  exists bytes e',
    Enc.Encode (Enc.Map a (integer_entries kxs)) e = (Ok tt, e')
    /\ Enc.written (Enc.writer e') = Enc.written (Enc.writer e) ++ bytes
    /\ Enc.objectCache e'
       = <[a := Z.of_nat (size (Enc.objectCache e))]> (Enc.objectCache e)
    /\ forall d rest,
         Dec.stringCache d = dc -> Dec.reader d = bytes ++ rest ->
         exists d' h',
           Dec.Decode (pointer_to TInterface p) {| Dec.dec := d; Dec.mem := h |}
           = (Ok tt, {| Dec.dec := d'; Dec.mem := h' |})
           /\ Dec.reader d' = rest
           /\ Dec.objectCache d' = Dec.objectCache d ++ [made]
           /\ in_step (Enc.stringCache e') (Dec.stringCache d')
           /\ load h' p = Some (VInterface (Some (TMap TInterface, VMap (Some (length h)))))
           /\ h' !! length h = Some (Mapping TInterface (with_entries kxs ∅)).
Proof.
  intros Hall Hstep He H0 Hoc Hn Ht Hl made.
  set (e0 := Enc.set_objectCache
               (<[a := Z.of_nat (size (Enc.objectCache e))]> (Enc.objectCache e))
               (append [OBJECT_MARKER; Byte.x0b; Byte.x01] e)).
  assert (Hfuel : exists f, (2 * Enc.depth (Enc.Map a (integer_entries kxs)) + 1 = S (S f))%nat)
    by (cbn [Enc.depth];
        exists (2 * fold_right (fun kv d => Nat.max (Enc.depth (snd kv)) d) O
                      (integer_entries kxs) + 1)%nat; lia).
  destruct Hfuel as [f Hfuel].
  destruct (integer_entries_round_trip f kxs e0 dc Hstep eq_refl H0 Hall Hn)
    as (b & ec' & dc' & Henc & Hstep' & H0' & Hlen & Hdec).
  exists (OBJECT_MARKER :: Byte.x0b :: Byte.x01 :: b ++ [Byte.x01]).
  exists (append [Byte.x01] (Enc.set_stringCache ec' (append b e0))).
  split; [|split; [|split]].
  - unfold Enc.Encode. rewrite Hfuel.
    change (Enc.encode (S (S f)) (Enc.Map a (integer_entries kxs)) e)
      with (Enc.encodeMap (Enc.encode (S f)) (Enc.Map a (integer_entries kxs)) e).
    unfold Enc.encodeMap. cbn [Enc.Pointer Enc.entries_of].
    unfold bind at 1. unfold Enc.writeMarker at 1. rewrite writeBytes_unbounded by exact He.
    unfold bind at 1. unfold gets. cbn [append Enc.set_writer Enc.objectCache].
    rewrite Hoc. unfold bind at 1. unfold Enc.cache_object, modify.
    unfold bind at 1. unfold Enc.writeMarker at 1.
    rewrite writeBytes_unbounded by reflexivity.
    unfold bind at 1. rewrite writeString_literal; [|reflexivity|exact H0|reflexivity].
    cbv beta iota. unfold bind at 1.
    match goal with |- context [Enc.encodeMap_range _ _ ?s] =>
      replace s with e0
        by (unfold e0, after_literal, append, Enc.set_writer, Enc.set_objectCache; cbn;
            rewrite <- !app_assoc; reflexivity)
    end.
    rewrite Henc.
    rewrite writeString_literal; [|reflexivity|exact H0'|reflexivity].
    unfold after_literal. cbn [String.eqb]. unfold append, Enc.set_writer. cbn.
    rewrite app_nil_r. reflexivity.
  - unfold e0, append, Enc.set_writer, Enc.set_stringCache, Enc.set_objectCache. cbn.
    rewrite <- !app_assoc. reflexivity.
  - reflexivity.
  - intros d rest Hd Hr.
    assert (Hdir : direct h p TInterface).
    { split; [exact Ht|]. split; [reflexivity|].
      exists (VInterface None). split; [exact Hl|reflexivity]. }
    unfold Dec.Decode, Dec.DecodeValue. cbn [Dec.decode Dec.dec].
    set (L := length (Dec.reader d)).
    assert (HL : (length kxs + 4 <= L)%nat).
    { unfold L. rewrite Hr. cbn [length app]. rewrite !length_app. cbn [length]. lia. }
    rewrite (decode_direct _ _ _ p TInterface d h OBJECT_MARKER
               (Byte.x0b :: Byte.x01 :: b ++ Byte.x01 :: rest));
      [|right; reflexivity|exact Hdir
       |rewrite Hr; cbn; rewrite <- app_assoc; reflexivity|discriminate].
    change (Byte.eqb OBJECT_MARKER FALSE_MARKER) with false.
    change (Byte.eqb OBJECT_MARKER TRUE_MARKER) with false.
    change (Byte.eqb OBJECT_MARKER STRING_MARKER) with false.
    change (Byte.eqb OBJECT_MARKER DOUBLE_MARKER) with false.
    change (Byte.eqb OBJECT_MARKER INTEGER_MARKER) with false.
    change (Byte.eqb OBJECT_MARKER ARRAY_MARKER) with false.
    change (Byte.eqb OBJECT_MARKER OBJECT_MARKER) with true. cbv beta iota.
    unfold Dec.readObject. unfold bind at 1.
    rewrite (readU29_u29 0x0b (Byte.x01 :: b ++ Byte.x01 :: rest)) by (try lia; reflexivity).
    change (Z.land 11 1 =? 0) with false. change (negb (11 =? 11)) with false.
    cbv beta iota.
    unfold bind at 1. rewrite (readMarker_cons Byte.x01 (b ++ Byte.x01 :: rest)) by reflexivity.
    change (negb (Byte.eqb Byte.x01 Byte.x01)) with false. cbv beta iota.
    unfold bind at 1. unfold Dec.reflect at 1, Kind at 1.
    cbn [Dec.set_reader Dec.mem Dec.dec TypeOf]. rewrite Ht. cbn [kind_of Dec.is_kind].
    unfold bind at 1. unfold bind at 1.
    unfold Dec.reflect at 1, MakeMap, alloc. unfold bind at 1, ret at 1.
    cbn [Dec.mem Dec.dec].
    assert (Hp : (blk p < length h)%nat).
    { unfold type_at in Ht. destruct (h !! blk p) eqn:E; [|discriminate].
      eapply lookup_lt_Some. exact E. }
    set (h1 := h ++ [Mapping TInterface ∅]).
    assert (Ht1 : type_at h1 p = Some TInterface).
    { unfold type_at, h1 in *. rewrite lookup_app_l by exact Hp. exact Ht. }
    assert (Hl1 : is_Some (load h1 p)).
    { exists (VInterface None). unfold load, h1 in *. rewrite lookup_app_l by exact Hp. exact Hl. }
    destruct (store_spec h1 p (VInterface (Some (TMap TInterface, VMap (Some (length h))))) Hl1)
      as (h2 & Hst & Hld & Hty).
    unfold bind at 1. unfold Dec.reflect at 1, Set_ at 1.
    cbn [Dec.mem Dec.dec TypeOf ValOf ro_of]. fold h1. rewrite Ht1. cbn [type_eqb].
    rewrite Hst. unfold ret at 1.
    unfold bind at 1. unfold Dec.reflect at 1, Kind at 1. cbn [Dec.mem Dec.dec TypeOf kind_of Dec.is_kind].
    unfold bind at 1. unfold Dec.reflect at 1, IsNil at 1. cbn [Dec.mem Dec.dec ValOf].
    rewrite bool_decide_eq_false_2 by discriminate.
    unfold bind at 1. unfold ret at 1.
    unfold bind at 1. unfold Dec.append_objectCache, modify.
    cbn [Dec.dec Dec.mem Dec.reader Dec.stringCache Dec.objectCache with_strings].
    assert (Hh2 : h2 !! length h = Some (Mapping TInterface ∅)).
    { unfold store in Hst. destruct (h1 !! blk p) as [[t0 vs0|]|] eqn:E; try discriminate.
      destruct (vs0 !! idx p); [|discriminate]. destruct (upd_val _ _ _); [|discriminate].
      injection Hst as <-. rewrite list_lookup_insert_ne by lia.
      unfold h1. apply lookup_alloc. }
    assert (Hlen2 : (length h < length h2)%nat) by (eapply lookup_lt_Some; exact Hh2).
    destruct L as [|g]; [lia|].
    destruct (Hdec g (S g)
                {| Dec.reader := b ++ Byte.x01 :: rest;
                   Dec.stringCache := Dec.stringCache d;
                   Dec.objectCache := Dec.objectCache d ++ [made] |}
                h2 (length h) ∅ [] rest Hd eq_refl Hlen2 ltac:(lia)) as (junk' & Hloop).
    rewrite list_insert_id, app_nil_r in Hloop by exact Hh2.
    eexists _, _. split; [exact Hloop|]. split; [reflexivity|]. split; [reflexivity|].
    split; [exact Hstep'|]. split.
    + unfold load in *. rewrite lookup_app_l by (rewrite length_insert; lia).
      rewrite list_lookup_insert_ne by lia. exact Hld.
    + rewrite lookup_app_l by (rewrite length_insert; lia).
      apply list_lookup_insert_eq. exact Hlen2.
Qed.

Lemma integer_mapping_round_trip_witness :
  exists bytes e',
    Enc.Encode (Enc.Map 0xc000012000 (integer_entries [("a"%string, 1); ("b"%string, 2)])) fresh
    = (Ok tt, e')
    /\ Enc.written (Enc.writer e') = bytes
    /\ exists d' h',
         Dec.Decode (pointer_to TInterface the_variable) (one_variable TInterface bytes)
         = (Ok tt, {| Dec.dec := d'; Dec.mem := h' |})
         /\ h' !! 1%nat
            = Some (Mapping TInterface
                      (with_entries [("a"%string, 1); ("b"%string, 2)] ∅)).
Proof.
  destruct (integer_mapping_round_trip [("a"%string, 1); ("b"%string, 2)] 0xc000012000
              fresh [] [Cells TInterface [zero TInterface]] the_variable)
    as (bytes & e' & He & Hw & _ & Hd).
  - repeat constructor; cbn; (discriminate || lia).
  - exact in_step_empty.
  - reflexivity.
  - reflexivity.
  - reflexivity.
  - cbn. lia.
  - reflexivity.
  - reflexivity.
  - exists bytes, e'. split; [exact He|]. split; [exact Hw|].
    destruct (Hd (Dec.NewDecoder bytes) []) as (d' & h' & H1 & _ & _ & _ & _ & H2).
    + reflexivity.
    + symmetry. apply app_nil_r.
    + exists d', h'. split; [exact H1|exact H2].
Defined.
